(** * fftpp: a shallow embedding of FFTComplex.h and FFTReal.h

    The C++ templates are parameterised by the sample type [T].  The
    embedding follows them: every algorithm is written once over a
    [Scalar] interface, and instantiated at
    - [R], the floating-point path with IEEE rounding idealised away
      (phases, [cos] and [sin] are exact reals), and
    - [int B], a [B]-bit two's complement integer with its wrap-around
      written out; its twiddle factors go through the [double]
      arithmetic of a platform that is a parameter of the embedding.

    Sizes and indices ([size_t], and the [int] loop counters the source
    declares with [auto]) are natural numbers: no size that fits in
    memory reaches the 31 bits at which an [int] counter would wrap.

    Buffers live in one flat memory of complex cells addressed by
    natural numbers; a pointer is an address, pointer arithmetic is
    addition, and [alloca] hands out the block that starts at a stack
    address [sp] supplied by the caller of the model. *)

From Stdlib Require Import Reals ZArith List Lia Lra Bool Arith PeanoNat Sorted.
Import ListNotations.

(* ================================================================== *)
(** * Scalar math functions *)
(* ================================================================== *)

(** The operations the source applies to a sample, including the
    built-in [+], [-] and unary [-] it uses through [std::complex]. *)
Class Scalar (T : Type) : Type := {
  is_integral : bool;        (* fftpp_is_integral<T> *)
  cast : Z -> T;             (* (T) d, and the literal 0 *)
  add : T -> T -> T;
  sub : T -> T -> T;
  neg : T -> T;
  smul : T -> T -> T;
  sdiv : T -> T -> T;
  halve : T -> T;
  scos : R -> T;
  ssin : R -> T
}.

(** ** Integer samples *)

(** Reduction of a mathematical integer to [B]-bit two's complement. *)
Definition wrap (B : Z) (z : Z) : Z :=
  ((z + 2 ^ (B - 1)) mod 2 ^ B - 2 ^ (B - 1))%Z.

Definition in_range (B : Z) (z : Z) : Prop :=
  (- 2 ^ (B - 1) <= z < 2 ^ (B - 1))%Z.

(** [std::numeric_limits<T>::max()] *)
Definition int_max (B : Z) : Z := (2 ^ (B - 1) - 1)%Z.

(** [sround]: the only call site passes an [int64_t], so [T] is deduced
    as [int64_t] whatever the sample type is; [FRACBITS] is the constant
    31 and the cast to [T] binds tighter than the shift. *)
Definition FRACBITS : Z := 31.

Definition sround (x : Z) : Z :=
  Z.shiftr (wrap 64 (x + Z.shiftl 1 (FRACBITS - 1))) FRACBITS.

(** [smul] on a [B]-bit integer type: widen to [int64_t], multiply,
    [sround], narrow back. *)
Definition int_smul (B : Z) (a b : Z) : Z :=
  wrap B (sround (wrap 64 (a * b))).

(** [sdiv] on an integer type: [smul (a, max / b)]; C++ division
    truncates. *)
Definition int_sdiv (B : Z) (a b : Z) : Z :=
  int_smul B a (Z.quot (int_max B) b).

(** ** The platform's [double] arithmetic

    On an integer type [scos] and [ssin] compute in [double]: they call
    [std::cos] or [std::sin], convert [max] to [double], multiply, add
    0.5 and take [std::floor].  What these operations return to the
    last bit is the platform's business (the standard does not fix the
    accuracy of [std::cos] and [std::sin]), and [std::floor] makes the
    stored integer depend on that bit; so they are the operations of a
    platform that is left open.  A [double] is represented by the real
    number it denotes; 0.5 is a [double].  The phase the functions are
    applied to is the constructor's [factor * i], which the embedding
    computes without rounding, as it does for the floating-point
    path. *)
Class Binary64 : Type := {
  b64_cos : R -> R;           (* std::cos (double) *)
  b64_sin : R -> R;           (* std::sin (double) *)
  b64_mul : R -> R -> R;      (* double * double *)
  b64_add : R -> R -> R;      (* double + double *)
  b64_of_int : Z -> R         (* conversion of an integer to double *)
}.

(** A platform whose [double] operations are exact.  The examples that
    need a concrete platform are evaluated on it; the statements about
    integer samples hold on every platform. *)
#[export] Instance exact_binary64 : Binary64 | 10 := {
  b64_cos := cos;
  b64_sin := sin;
  b64_mul := Rmult;
  b64_add := Rplus;
  b64_of_int := IZR
}.

(** [std::floor (0.5 + max * std::cos (phase))], converted to [T].
    The conversion keeps an integer that is in the range of [T] and is
    undefined for any other; the model keeps the integer. *)
Definition int_scos `{Binary64} (B : Z) (phase : R) : Z :=
  Zfloor (b64_add 0.5 (b64_mul (b64_of_int (int_max B)) (b64_cos phase))).

Definition int_ssin `{Binary64} (B : Z) (phase : R) : Z :=
  Zfloor (b64_add 0.5 (b64_mul (b64_of_int (int_max B)) (b64_sin phase))).

(** A [B]-bit signed sample. *)
Definition int (B : positive) : Type := Z.

#[export] Instance IntScalar `{Binary64} (B : positive) : Scalar (int B) := {
  is_integral := true;
  cast := fun d => wrap (Z.pos B) d;
  add := fun a b => wrap (Z.pos B) (a + b);
  sub := fun a b => wrap (Z.pos B) (a - b);
  neg := fun a => wrap (Z.pos B) (- a);
  smul := int_smul (Z.pos B);
  sdiv := int_sdiv (Z.pos B);
  halve := fun x => Z.shiftr x 1;
  scos := int_scos (Z.pos B);
  ssin := int_ssin (Z.pos B)
}.

(** ** Floating-point samples, idealised as real numbers *)

#[export] Instance RealScalar : Scalar R := {
  is_integral := false;
  cast := IZR;
  add := Rplus;
  sub := Rminus;
  neg := Ropp;
  smul := Rmult;
  sdiv := Rdiv;
  halve := fun x => (x * 0.5)%R;
  scos := cos;
  ssin := sin
}.

(** ** What the specification says [s_mul] does on integers

    Scale the exact product by [2^-(B-1)] and round to nearest, ties
    away from zero. *)
Definition round_shift_ties_away (x F : Z) : Z :=
  (Z.sgn x * Z.shiftr (Z.abs x + Z.shiftl 1 (F - 1)) F)%Z.

Definition spec_s_mul (B : Z) (a b : Z) : Z :=
  round_shift_ties_away (a * b) (B - 1).

(* ================================================================== *)
(** * Complex math functions *)
(* ================================================================== *)

Record complex (T : Type) : Type := mkC { real : T; imag : T }.

Arguments mkC {T} _ _.
Arguments real {T} _.
Arguments imag {T} _.

Section ComplexOps.
Context {T : Type} `{Scalar T}.

Definition czero : complex T := mkC (cast 0) (cast 0).

  (** [std::complex] [operator+], [operator-] and [std::conj]. *)
Definition cadd (a b : complex T) : complex T :=
    mkC (add (real a) (real b)) (add (imag a) (imag b)).

Definition csub (a b : complex T) : complex T :=
    mkC (sub (real a) (real b)) (sub (imag a) (imag b)).

Definition conj (a : complex T) : complex T :=
    mkC (real a) (neg (imag a)).

Definition cmul (a b : complex T) : complex T :=
    mkC (sub (smul (real a) (real b)) (smul (imag a) (imag b)))
        (add (smul (real a) (imag b)) (smul (imag a) (real b))).

Definition cdiv (c : complex T) (d : Z) : complex T :=
    mkC (sdiv (real c) (cast d)) (sdiv (imag c) (cast d)).

Definition cexp (phase : R) : complex T :=
    mkC (scos phase) (ssin phase).
End ComplexOps.

(* ================================================================== *)
(** * Memory and loops *)
(* ================================================================== *)

(** A flat memory of complex cells.  A [T*] that the source
    reinterprets as [std::complex<T>*] addresses the same cells: real
    sample [2j] is the real part of cell [j], sample [2j+1] its
    imaginary part. *)
Definition mem (T : Type) : Type := nat -> complex T.

Definition store {T} (m : mem T) (a : nat) (v : complex T) : mem T :=
  fun x => if Nat.eqb x a then v else m x.

(** [for (i = 0; i < n; ++i) body], and the [do ... while] loops of the
    source, which run [n >= 1] times for every factor list the
    constructor builds. *)
Fixpoint for_loop {S : Type} (n : nat) (body : nat -> S -> S) (s : S) : S :=
  match n with
  | O => s
  | Datatypes.S k => body k (for_loop k body s)
  end.

(** [std::memcpy (dst, src, n * sizeof (std::complex<T>))] *)
Definition memcpy {T} (m : mem T) (dst src n : nat) : mem T :=
  for_loop n (fun i m' => store m' (dst + i) (m (src + i))) m.

(** [std::memset (dst, 0, n * sizeof (std::complex<T>))] *)
Definition memset0 {T} `{Scalar T} (m : mem T) (dst n : nat) : mem T :=
  for_loop n (fun i m' => store m' (dst + i) czero) m.

(** Reading and writing a run of cells, for stating examples. *)
Definition load_list {T} (m : mem T) (a n : nat) : list (complex T) :=
  map (fun i => m (a + i)) (seq 0 n).

Fixpoint store_list {T} (m : mem T) (a : nat) (l : list (complex T)) : mem T :=
  match l with
  | [] => m
  | v :: l' => store_list (store m a v) (Datatypes.S a) l'
  end.

(* ================================================================== *)
(** * FFTComplex *)
(* ================================================================== *)

Record Factor : Type := mkFactor { radix : nat; length : nat }.

Record FFTComplex (T : Type) : Type := mkFFTComplex {
  size : nat;
  factors : list Factor;
  twiddlesFwd : list (complex T);
  twiddlesInv : list (complex T)
}.

Arguments size {T} _.
Arguments factors {T} _.
Arguments twiddlesFwd {T} _.
Arguments twiddlesInv {T} _.

(** ** Construction *)

(** The [switch] that advances the candidate radix. *)
Definition next_candidate (p : nat) : nat :=
  match p with
  | 4 => 2
  | 2 => 3
  | _ => p + 2
  end.

(** [while (fftSize % p) { ... }], returning the final [p]. *)
Fixpoint find_radix (fuel p fftSize root : nat) : nat :=
  match fuel with
  | O => p
  | S fuel' =>
      if Nat.eqb (fftSize mod p) 0 then p
      else
        let p1 := next_candidate p in
        let p2 := if Nat.ltb root p1 then fftSize else p1 in
        find_radix fuel' p2 fftSize root
  end.

(** [do { ... } while (fftSize > 1)], returning the factors written
    through [factorsPtr]. *)
Fixpoint factor_loop (fuel p fftSize root : nat) : list Factor :=
  match fuel with
  | O => []
  | S fuel' =>
      let p' := find_radix (3 + root) p fftSize root in
      let fftSize' := fftSize / p' in
      mkFactor p' fftSize'
        :: (if Nat.ltb 1 fftSize' then factor_loop fuel' p' fftSize' root
            else [])
  end.

(** The factor list of a transform of [fftSize] points; [root] is
    [std::sqrt ((double) size)] truncated to [size_t]. *)
Definition factorize (fftSize : nat) : list Factor :=
  factor_loop fftSize 4 fftSize (Nat.sqrt fftSize).

Definition radices (fs : list Factor) : list nat := map radix fs.

Section FFTComplexCode.
Context {T : Type} `{Scalar T}.

  (** [factor] of the constructor: [-2 * pi / size]. *)
Definition phase_factor (size : nat) : R := (-2 * PI / INR size)%R.

Definition new_FFTComplex (fftSize : nat) : FFTComplex T :=
    {| size := fftSize;
       factors := factorize fftSize;
       twiddlesFwd :=
         map (fun i => cexp (phase_factor fftSize * INR i)%R) (seq 0 fftSize);
       twiddlesInv :=
         map (fun i => cexp (phase_factor fftSize * INR i * -1)%R)
             (seq 0 fftSize) |}.

  (** [twiddles[i]] *)
Definition tw_at (twiddles : list (complex T)) (i : nat) : complex T :=
    nth i twiddles czero.

  (** [cdiv (output[a], d)], which divides the cell in place. *)
Definition cdiv_at (m : mem T) (a : nat) (d : Z) : mem T :=
    store m a (cdiv (m a) d).

  (** ** butterfly2 *)
Definition butterfly2 (m : mem T) (output stride length : nat)
             (twiddles : list (complex T)) : mem T :=
    for_loop length (fun i m =>
      let o := output + i in
      let o2 := output + length + i in
      let m := if is_integral then cdiv_at (cdiv_at m o 2) o2 2 else m in
      let t := cmul (m o2) (tw_at twiddles (i * stride)) in
      let m := store m o2 (csub (m o) t) in
      store m o (cadd (m o) t)) m.

  (** ** butterfly4 *)
Definition butterfly4 (m : mem T) (output stride length : nat)
             (twiddles : list (complex T)) (inverse : bool) : mem T :=
    let length2 := 2 * length in
    let length3 := 3 * length in
    let m :=
      if is_integral then
        for_loop length (fun i m =>
          let o := output + i in
          let m := cdiv_at m (o + length) 4 in
          let m := cdiv_at m (o + length2) 4 in
          let m := cdiv_at m (o + length3) 4 in
          cdiv_at m o 4) m
      else m in
    for_loop length (fun i m =>
      let o := output + i in
      let s0 := cmul (m (o + length)) (tw_at twiddles (i * stride)) in
      let s1 := cmul (m (o + length2)) (tw_at twiddles (i * (stride * 2))) in
      let s2 := cmul (m (o + length3)) (tw_at twiddles (i * (stride * 3))) in
      let s3 := cadd s0 s2 in
      let s4 := csub s0 s2 in
      let s5 := csub (m o) s1 in
      let m := store m o (cadd (m o) s1) in
      let m := store m (o + length2) (csub (m o) s3) in
      let m := store m o (cadd (m o) s3) in
      if inverse then
        let m := store m (o + length)
                   (mkC (sub (real s5) (imag s4)) (add (imag s5) (real s4))) in
        store m (o + length3)
              (mkC (add (real s5) (imag s4)) (sub (imag s5) (real s4)))
      else
        let m := store m (o + length)
                   (mkC (add (real s5) (imag s4)) (sub (imag s5) (real s4))) in
        store m (o + length3)
              (mkC (sub (real s5) (imag s4)) (add (imag s5) (real s4)))) m.

  (** ** butterflyGeneric *)

  (** One step of the twiddle index: [twIndex += stride * k;
      if (twIndex >= size) twIndex -= size;]. *)
Definition tw_step (size stride k twIndex : nat) : nat :=
    let twIndex := twIndex + stride * k in
    if Nat.leb size twIndex then twIndex - size else twIndex.

  (** The value of [twIndex] at the table access of iteration [q] of
      the innermost loop ([q = 1, 2, ...]; it starts from 0). *)
Fixpoint tw_index (size stride k q : nat) : nat :=
    match q with
    | O => 0
    | S q' => tw_step size stride k (tw_index size stride k q')
    end.

  (** The body of the innermost loop,
      [for (twIndex = 0, q = 1; q < radix; ++q)], on the state
      (memory, [twIndex]); iteration [j] of the model is [q = j + 1]. *)
Definition generic_inner_step (size stride k output : nat)
             (scratch twiddles : list (complex T))
             (j : nat) (st : mem T * nat) : mem T * nat :=
    let q := j + 1 in
    let m := fst st in
    let twIndex := tw_step size stride k (snd st) in
    (store m (output + k)
           (cadd (m (output + k))
                 (cmul (nth q scratch czero) (tw_at twiddles twIndex))),
     twIndex).

Definition generic_inner (size stride radix k : nat) (output : nat)
             (scratch : list (complex T)) (twiddles : list (complex T))
             (m : mem T) : mem T :=
    fst (for_loop (radix - 1)
           (generic_inner_step size stride k output scratch twiddles)
           (m, 0)).

Definition butterflyGeneric (size : nat) (m : mem T)
             (output stride radix length : nat)
             (twiddles : list (complex T)) : mem T :=
    let m :=
      if is_integral then
        for_loop length (fun u m =>
          for_loop radix (fun q1 m =>
            cdiv_at m (output + (u + q1 * length)) (Z.of_nat radix)) m) m
      else m in
    for_loop length (fun u m =>
      let scratch :=
        map (fun q1 => m (output + (u + q1 * length))) (seq 0 radix) in
      for_loop radix (fun q1 m =>
        let k := u + q1 * length in
        let m := store m (output + k) (nth 0 scratch czero) in
        generic_inner size stride radix k output scratch twiddles m) m) m.

  (** ** perform

      [factors] is the pointer into the factor array; the recursion
      stops at the factor whose [length] is 1, which is the last one
      the constructor wrote, so the empty list is never reached. *)
Fixpoint perform (fft : FFTComplex T) (m : mem T)
           (input output stride inStride : nat)
           (factors : list Factor) (inverse : bool) : mem T :=
    match factors with
    | [] => m
    | factor :: factors =>
        let radix := radix factor in
        let length := length factor in
        let m :=
          if Nat.eqb length 1 then
            for_loop (radix * length) (fun i m =>
              store m (output + i) (m (input + i * (stride * inStride)))) m
          else
            for_loop radix (fun q m =>
              perform fft m (input + q * (stride * inStride))
                      (output + q * length) (stride * radix) inStride
                      factors inverse) m in
        let twiddles := if inverse then twiddlesInv fft else twiddlesFwd fft in
        match radix with
        | 2 => butterfly2 m output stride length twiddles
        | 4 => butterfly4 m output stride length twiddles inverse
        | _ => butterflyGeneric (size fft) m output stride radix length twiddles
        end
    end.

Definition forward (fft : FFTComplex T) (m : mem T)
             (timeData freqData : nat) : mem T :=
    perform fft m timeData freqData 1 1 (factors fft) false.

Definition inverse (fft : FFTComplex T) (m : mem T)
             (freqData timeData : nat) : mem T :=
    perform fft m freqData timeData 1 1 (factors fft) true.
End FFTComplexCode.

(* ================================================================== *)
(** * FFTReal, as in namespace fftpp (in-place forward, [inPlace] flag) *)
(* ================================================================== *)

Module FFTReal.
Section Code.
Context {T : Type} `{Scalar T}.

Record FFTReal : Type := mkFFTReal {
    size : nat;
    fft : FFTComplex T;
    twiddlesCplx : list (complex T)
  }.

  (** [assert ((size & 1) == 0 && "Real FFT size must be even.")],
      on [size = halve (fftSize)], which is [fftSize >> 1]. *)
Definition size_check (fftSize : nat) : bool :=
    Nat.eqb (Nat.land (Nat.shiftr fftSize 1) 1) 0.

  (** The constructor; [None] when the assertion fails. *)
Definition new (fftSize : nat) : option FFTReal :=
    let size := Nat.shiftr fftSize 1 in
    if size_check fftSize then
      Some {| size := size;
              fft := new_FFTComplex size;
              twiddlesCplx :=
                map (fun i =>
                       cexp (- PI * (INR (i + 1) / INR size + 0.5))%R)
                    (seq 0 size) |}
    else None.

Definition forward (r : FFTReal) (m : mem T)
             (timeData freqData : nat) : mem T :=
    let size := size r in
    let m := forward (fft r) m timeData freqData in
    let m :=
      if is_integral then
        for_loop size (fun k m => cdiv_at m (freqData + k) 2) m
      else m in
    let tdc := m freqData in
    let m := store m freqData (mkC (add (real tdc) (imag tdc)) (cast 0)) in
    let m := store m (freqData + size)
                   (mkC (sub (real tdc) (imag tdc)) (cast 0)) in
    let m :=
      for_loop (size / 2) (fun j m =>
        let k := j + 1 in
        let s0 := m (freqData + k) in
        let s1 := conj (m (freqData + (size - k))) in
        let fk := cadd s0 s1 in
        let fknc := csub s0 s1 in
        let tw := cmul fknc (tw_at (twiddlesCplx r) (k - 1)) in
        let m := store m (freqData + k)
                   (mkC (halve (add (real fk) (real tw)))
                        (halve (add (imag fk) (imag tw)))) in
        store m (freqData + (size - k))
              (mkC (halve (sub (real fk) (real tw)))
                   (halve (sub (imag tw) (imag fk))))) m in
    (* Clear negative frequencies *)
    memset0 m (freqData + size) size.

  (** The part of [inverse] that precedes the complex transform: it
      returns the memory and the pointer [tempBuffer].  [sp] is the
      address of the block [alloca] returns. *)
Definition inverse_prepare (r : FFTReal) (m : mem T)
             (freqData : nat) (inPlace : bool) (sp : nat) : mem T * nat :=
    let size := size r in
    let tempBuffer := if inPlace then freqData else sp in
    let m :=
      if negb inPlace then
        let m := store m tempBuffer
                   (mkC (add (real (m freqData)) (real (m (freqData + size))))
                        (sub (real (m freqData)) (real (m (freqData + size))))) in
        memcpy m (tempBuffer + 1) (freqData + 1) (size - 1)
      else m in
    let m :=
      if is_integral then
        for_loop size (fun k m => cdiv_at m (tempBuffer + k) 2) m
      else m in
    let m :=
      for_loop (size / 2) (fun j m =>
        let k := j + 1 in
        let s0 := m (tempBuffer + k) in
        let s1 := conj (m (tempBuffer + (size - k))) in
        let fk := cadd s0 s1 in
        let fknc := csub s0 s1 in
        let tw := cmul fknc (conj (tw_at (twiddlesCplx r) (k - 1))) in
        let m := store m (tempBuffer + k) (cadd fk tw) in
        store m (tempBuffer + (size - k)) (conj (csub fk tw))) m in
    (m, tempBuffer).

Definition inverse (r : FFTReal) (m : mem T)
             (freqData timeData : nat) (inPlace : bool) (sp : nat) : mem T :=
    let '(m, tempBuffer) := inverse_prepare r m freqData inPlace sp in
    inverse (fft r) m tempBuffer timeData.
End Code.
End FFTReal.

(* ================================================================== *)
(** * FFTReal, the variant with scratch buffers and two twiddle tables *)
(* ================================================================== *)

Module FFTRealScratch.
Section Code.
Context {T : Type} `{Scalar T}.

Record FFTReal : Type := mkFFTReal {
    size : nat;
    fft : FFTComplex T;
    twiddlesFwd : list (complex T);
    twiddlesInv : list (complex T)
  }.

Definition initTwiddleTable (size : nat) (inverse : Z) : list (complex T) :=
    map (fun i =>
           cexp ((- PI * (INR (i + 1) / INR size + 0.5)) * IZR inverse)%R)
        (seq 0 size).

Definition size_check (fftSize : nat) : bool :=
    Nat.eqb (Nat.land (Nat.shiftr fftSize 1) 1) 0.

Definition new (fftSize : nat) : option FFTReal :=
    let size := Nat.shiftr fftSize 1 in
    if size_check fftSize then
      Some {| size := size;
              fft := new_FFTComplex size;
              twiddlesFwd := initTwiddleTable size 1;
              twiddlesInv := initTwiddleTable size (-1) |}
    else None.

Definition forward (r : FFTReal) (m : mem T)
             (timeData freqData : nat) (sp : nat) : mem T :=
    let size := size r in
    let tmpbuf := sp in
    let m := forward (fft r) m timeData tmpbuf in
    let m :=
      if is_integral then
        for_loop size (fun k m => cdiv_at m (tmpbuf + k) 2) m
      else m in
    let tdc := m tmpbuf in
    let m := store m freqData (mkC (add (real tdc) (imag tdc)) (cast 0)) in
    let m := store m (freqData + size)
                   (mkC (sub (real tdc) (imag tdc)) (cast 0)) in
    for_loop (size / 2) (fun j m =>
      let k := j + 1 in
      let s0 := m (tmpbuf + k) in
      let s1 := conj (m (tmpbuf + (size - k))) in
      let fk := cadd s0 s1 in
      let fknc := csub s0 s1 in
      let tw := cmul fknc (tw_at (twiddlesFwd r) (k - 1)) in
      let m := store m (freqData + k)
                 (mkC (halve (add (real fk) (real tw)))
                      (halve (add (imag fk) (imag tw)))) in
      store m (freqData + (size - k))
            (mkC (halve (sub (real fk) (real tw)))
                 (halve (sub (imag tw) (imag fk))))) m.

Definition inverse (r : FFTReal) (m : mem T)
             (freqData timeData : nat) (sp : nat) : mem T :=
    let size := size r in
    let tmpbuf := sp in
    let m := store m tmpbuf
               (mkC (add (real (m freqData)) (real (m (freqData + size))))
                    (sub (real (m freqData)) (real (m (freqData + size))))) in
    let m := memcpy m (tmpbuf + 1) (freqData + 1) (size - 1) in
    let m :=
      if is_integral then
        for_loop size (fun k m => cdiv_at m (tmpbuf + k) 2) m
      else m in
    let m :=
      for_loop (size / 2) (fun j m =>
        let k := j + 1 in
        let s0 := m (tmpbuf + k) in
        let s1 := conj (m (tmpbuf + (size - k))) in
        let fk := cadd s0 s1 in
        let fknc := csub s0 s1 in
        let tw := cmul fknc (tw_at (twiddlesInv r) (k - 1)) in
        let m := store m (tmpbuf + k) (cadd fk tw) in
        store m (tmpbuf + (size - k)) (conj (csub fk tw))) m in
    inverse (fft r) m tmpbuf timeData.
End Code.
End FFTRealScratch.

(* ================================================================== *)
(** * Vocabulary of the statements *)
(* ================================================================== *)

Definition product (l : list nat) : nat := fold_right Nat.mul 1 l.

(** [n] has no divisor [d] with [2 <= d < p]. *)
Definition nodiv (n p : nat) : Prop :=
  forall d, 2 <= d < p -> ~ Nat.divide d n.

Definition prime (p : nat) : Prop :=
  2 <= p /\ forall d, Nat.divide d p -> d = 1 \/ d = p.

(** The order in which the constructor tries its candidates:
    4, then 2, then the odd numbers upwards. *)
Definition rank (r : nat) : nat :=
  match r with
  | 4 => 0
  | 2 => 1
  | _ => r
  end.

(** What [perform] relies on at each level: the factor at the head
    splits the current block, [stride * radix * length] is the size of
    the whole transform, and the list goes on until a factor of length
    1. *)
Fixpoint stages (N stride : nat) (fs : list Factor) : Prop :=
  match fs with
  | [] => False
  | f :: rest =>
      1 <= radix f /\ 1 <= length f /\
      stride * (radix f * length f) = N /\
      (length f <> 1 -> stages N (stride * radix f) rest)
  end.

(** The states in which the constructor's outer loop is entered:
    still on radix 4; on radix 2, with no factor 4 left; or on an odd
    candidate below which nothing divides what remains. *)
Definition loop_state (root p n : nat) : Prop :=
  p = 4 \/
  (p = 2 /\ 2 <= root /\ ~ Nat.divide 4 n) \/
  (Nat.odd p = true /\ 3 <= p <= root /\ nodiv n p).

Definition rank_le (a b : nat) : Prop := rank a <= rank b.

(** What one run of the constructor's inner loop returns. *)
Definition radix_found (root p n p' : nat) : Prop :=
  Nat.divide p' n /\ rank p <= rank p' /\ (p' = 4 \/ prime p') /\
  (p' <= root \/ p' = 4 \/ p' = n) /\
  (p' = 2 -> ~ Nat.divide 4 n) /\
  (p' <> n -> loop_state root p' (n / p')).

(** What the constructor's outer loop writes when entered with
    candidate [p] and [n] still to be factored. *)
Definition factors_ok (root p n : nat) (fs : list Factor) : Prop :=
  product (radices fs) = n /\
  Forall (fun r => r = 4 \/ prime r) (radices fs) /\
  Forall (rank_le p) (radices fs) /\
  StronglySorted rank_le (radices fs) /\
  count_occ Nat.eq_dec (radices fs) 2 <= 1 /\
  Forall (fun r => r <= root \/ r = 4) (removelast (radices fs)) /\
  (forall N stride, stride * n = N -> stages N stride fs).

(** ** The transform the code is compared with *)

Definition cone : complex R := mkC 1%R 0%R.

Definition copp (a : complex R) : complex R :=
  mkC (- real a)%R (- imag a)%R.

Definition cscale (c : R) (a : complex R) : complex R :=
  mkC (c * real a)%R (c * imag a)%R.

Fixpoint csum (n : nat) (f : nat -> complex R) : complex R :=
  match n with
  | O => czero
  | S k => cadd (csum k f) (f k)
  end.

(** [exp (-+ 2 pi i j / N)]: minus forwards, plus for the inverse. *)
Definition unit_root (inverse : bool) (N j : nat) : complex R :=
  cexp ((if inverse then 2 else -2) * PI * INR j / INR N)%R.

(** The unnormalised discrete Fourier transform of [x 0 .. x (N-1)]. *)
Definition dft (inverse : bool) (N : nat) (x : nat -> complex R)
           (k : nat) : complex R :=
  csum N (fun n => cmul (x n) (unit_root inverse N (k * n))).

(** What a butterfly of the given radix writes at position [q1] of
    column [u], from the column [f] it finds there. *)
Definition combine (inverse : bool) (N stride radix length u q1 : nat)
           (f : nat -> complex R) : complex R :=
  csum radix (fun q =>
    cmul (f q) (unit_root inverse N (stride * (u + q1 * length) * q))).

(** The powers of the fourth root of unity the radix-4 butterfly
    hard-codes. *)
Definition quarter_power (inverse : bool) (k : nat) : complex R :=
  match k mod 4 with
  | 0 => mkC 1%R 0%R
  | 1 => mkC 0%R (if inverse then 1 else -1)%R
  | 2 => mkC (-1)%R 0%R
  | _ => mkC 0%R (if inverse then -1 else 1)%R
  end.

(** ** Inputs of the examples *)

Definition ones4 : list (complex R) :=
  [mkC 1%R 0%R; mkC 1%R 0%R; mkC 1%R 0%R; mkC 1%R 0%R].

Definition alternating4 : list (complex R) :=
  [mkC 1%R (-1)%R; mkC 1%R (-1)%R; mkC 1%R (-1)%R; mkC 1%R (-1)%R].

Definition dc_bins : list (complex R) :=
  [mkC 8%R 0%R; mkC 0%R 0%R; mkC 0%R 0%R; mkC 0%R 0%R; mkC 0%R 0%R].

(** ** The recombination of the real transform, bin by bin

    [X] is the complex transform of the packed input, [W] the table
    of the real transform, [N] its half-size. *)

(** What the loop writes to bin [k] and to bin [N - k] forwards. *)
Definition recombine_low (X : nat -> complex R) (W : list (complex R))
           (N k : nat) : complex R :=
  let s0 := X k in
  let s1 := conj (X (N - k)) in
  let fk := cadd s0 s1 in
  let tw := cmul (csub s0 s1) (tw_at W (k - 1)) in
  mkC (halve (add (real fk) (real tw))) (halve (add (imag fk) (imag tw))).

Definition recombine_high (X : nat -> complex R) (W : list (complex R))
           (N k : nat) : complex R :=
  let s0 := X k in
  let s1 := conj (X (N - k)) in
  let fk := cadd s0 s1 in
  let tw := cmul (csub s0 s1) (tw_at W (k - 1)) in
  mkC (halve (sub (real fk) (real tw))) (halve (sub (imag tw) (imag fk))).

(** The [N + 1] bins of the real transform: bin 0 and bin [N] from
    [X 0]; bin [k] below the middle from the first assignment of
    iteration [k]; the middle and the bins above it from the second
    assignment of iteration [N - k]. *)
Definition real_bin (X : nat -> complex R) (W : list (complex R))
           (N k : nat) : complex R :=
  if k =? 0 then mkC (real (X 0%nat) + imag (X 0%nat))%R 0%R
  else if k =? N then mkC (real (X 0%nat) - imag (X 0%nat))%R 0%R
  else if 2 * k <? N then recombine_low X W N k
  else recombine_high X W N (N - k).

(** The [2 N] real samples that a time buffer of [N] cells holds, each
    read as a complex number without imaginary part: cell [n] holds
    sample [2 n] in its real and sample [2 n + 1] in its imaginary
    part (the buffers of [FFTReal] are arrays of [T] reinterpreted as
    arrays of [std::complex<T>]). *)
Definition real_samples (z : nat -> complex R) (n : nat) : complex R :=
  mkC (if Nat.even n then real (z (n / 2)) else imag (z (n / 2))) 0%R.

(** A block of [n] cells at address [a] that holds only zeros. *)
Definition silent {T : Type} `{Scalar T} (m : mem T) (a n : nat) : Prop :=
  forall x, a <= x < a + n -> m x = czero.

(** ** The shape of the recombination loops

    Iteration [j] handles [k = j + 1]: it reads cells [k] and [N - k]
    of a source block and then writes cells [k] and [N - k] of a
    destination block. *)
Definition pair_body {T} (N src dst : nat)
           (fA fB : nat -> complex T -> complex T -> complex T)
           (j : nat) (m : mem T) : mem T :=
  let k := j + 1 in
  store (store m (dst + k) (fA k (m (src + k)) (m (src + (N - k)))))
        (dst + (N - k)) (fB k (m (src + k)) (m (src + (N - k)))).

Abbreviation C := (complex R).

(* ================================================================== *)
(** * Proofs *)
(* ================================================================== *)

Lemma mod0_divide (n p : nat) : p <> 0 -> (n mod p =? 0) = true <-> Nat.divide p n.
Proof.
  intros Hp. rewrite Nat.eqb_eq. split.
  - intros Hm. exists (n / p). pose proof (Nat.div_mod_eq n p). lia.
  - intros [z ->]. apply Nat.Div0.mod_mul.
Qed.

Lemma find_radix_step (f p n root : nat) :
  find_radix (S f) p n root =
  if n mod p =? 0 then p
  else if root <? next_candidate p then n
       else find_radix f (next_candidate p) n root.
Proof.
  simpl. destruct (n mod p =? 0); [reflexivity|].
  destruct (root <? next_candidate p); [|reflexivity].
  destruct f; simpl; [reflexivity|].
  now rewrite Nat.Div0.mod_same.
Qed.

Lemma nodiv_next_odd (n p : nat) :
  3 <= p -> Nat.odd p = true -> nodiv n p -> ~ Nat.divide p n -> nodiv n (p + 2).
Proof.
  intros Hp Hodd Hnd Hpn d Hd Hdn.
  destruct (Nat.lt_ge_cases d p) as [Hlt|Hge].
  - apply (Hnd d); [lia|assumption].
  - destruct (Nat.eq_dec d p) as [->|Hne]; [contradiction|].
    assert (d = p + 1) as -> by lia.
    apply (Hnd 2); [lia|].
    apply Nat.divide_trans with (p + 1); [|assumption].
    apply Nat.odd_spec in Hodd. destruct Hodd as [k ->].
    exists (k + 1). lia.
Qed.

Lemma nodiv_self_ge (n p : nat) : 2 <= n -> nodiv n p -> p <= n.
Proof.
  intros Hn Hnd. destruct (Nat.le_gt_cases p n) as [|Hlt]; [assumption|].
  exfalso. apply (Hnd n); [lia|]. apply Nat.divide_refl.
Qed.

Lemma nodiv_sqrt_prime (n root p : nat) :
  2 <= n -> n < (root + 1) * (root + 1) -> root < p -> nodiv n p -> prime n.
Proof.
  intros Hn Hsq Hp Hnd. split; [assumption|].
  intros d [z Hz].
  destruct (Nat.eq_dec d 1) as [|Hd1]; [now left|].
  destruct (Nat.eq_dec d n) as [|Hdn]; [now right|].
  exfalso.
  assert (d <> 0) by (intros ->; lia).
  assert (z <> 0) by (intros ->; lia).
  assert (z <> 1) by (intros ->; lia).
  assert (Hcase : d <= root \/ z <= root) by nia.
  destruct Hcase as [Hd|Hzr].
  - apply (Hnd d); [lia|]. now exists z.
  - apply (Hnd z); [lia|]. exists d. lia.
Qed.

Lemma nodiv_prime (p n : nat) :
  2 <= p -> Nat.divide p n -> nodiv n p -> prime p.
Proof.
  intros Hp Hpn Hnd. split; [assumption|].
  intros d Hd.
  destruct (Nat.eq_dec d 1) as [|Hd1]; [now left|].
  destruct (Nat.eq_dec d p) as [|Hdp]; [now right|].
  exfalso.
  assert (d <> 0) by (intros ->; destruct Hd as [z Hz]; lia).
  assert (d <= p) by (apply Nat.divide_pos_le; [lia|assumption]).
  apply (Hnd d); [lia|].
  now apply Nat.divide_trans with p.
Qed.

Lemma nodiv_weaken (n n' p : nat) :
  Nat.divide n' n -> nodiv n p -> nodiv n' p.
Proof.
  intros Hdiv Hnd d Hd Hdn. apply (Hnd d Hd).
  now apply Nat.divide_trans with n'.
Qed.

(** The odd phase of the inner loop. *)
Lemma find_radix_odd (n root : nat) :
  2 <= n -> n < (root + 1) * (root + 1) ->
  forall f p,
    root < f + p -> 3 <= p <= root -> Nat.odd p = true -> nodiv n p ->
    let p' := find_radix f p n root in
    Nat.divide p' n /\ p <= p' /\ Nat.odd p' = true /\ prime p' /\
    ((p' <= root /\ nodiv n p') \/ (p' = n /\ root < n)).
Proof.
  intros Hn Hsq. induction f as [|f IH]; intros p Hf Hp Hodd Hnd; [lia|].
  cbv zeta. rewrite find_radix_step.
  destruct (n mod p =? 0) eqn:Hm.
  - apply mod0_divide in Hm; [|lia].
    repeat split; try assumption; try lia.
    + now apply nodiv_prime with n; [lia| |].
    + left. split; [lia|assumption].
  - assert (Hpn : ~ Nat.divide p n).
    { intros Hd. apply mod0_divide in Hd; [congruence|lia]. }
    assert (Hnext : next_candidate p = p + 2).
    { unfold next_candidate.
      destruct p as [|[|[|[|[|p]]]]]; try reflexivity; try lia; discriminate. }
    rewrite Hnext.
    assert (Hnd' : nodiv n (p + 2)) by now apply nodiv_next_odd.
    assert (Hodd' : Nat.odd (p + 2) = true).
    { replace (p + 2) with (S (S p)) by lia. now rewrite Nat.odd_succ_succ. }
    destruct (root <? p + 2) eqn:Hr.
    + apply Nat.ltb_lt in Hr.
      assert (Hpr : prime n) by now apply nodiv_sqrt_prime with root (p + 2).
      assert (p + 2 <= n) by now apply nodiv_self_ge.
      split; [apply Nat.divide_refl|].
      split; [lia|].
      split.
      { destruct (Nat.odd n) eqn:Ho; [reflexivity|].
        exfalso. apply (Hnd' 2); [lia|].
        assert (He : Nat.even n = true) by now rewrite <- Nat.negb_odd, Ho.
        apply Nat.even_spec in He. destruct He as [k ->]. exists k. lia. }
      split; [assumption|]. right. split; [reflexivity|lia].
    + apply Nat.ltb_ge in Hr.
      destruct (IH (p + 2)) as (H1 & H2 & H3 & H4 & H5);
        try assumption; try lia.
      repeat split; try assumption; try lia; apply H4.
Qed.


Lemma rank_odd (p : nat) : Nat.odd p = true -> rank p = p.
Proof.
  destruct p as [|[|[|[|[|p]]]]]; try reflexivity; discriminate.
Qed.

Lemma next_candidate_odd (p : nat) :
  Nat.odd p = true -> next_candidate p = p + 2.
Proof.
  destruct p as [|[|[|[|[|p]]]]]; try reflexivity; discriminate.
Qed.

Lemma prime_2 : prime 2.
Proof.
  split; [lia|]. intros d Hd.
  assert (d <= 2) by (apply Nat.divide_pos_le; [lia|assumption]).
  destruct d as [|[|[|d]]]; try lia.
  destruct Hd as [z Hz]; lia.
Qed.

Lemma not_div4_half_odd (n : nat) :
  Nat.divide 2 n -> ~ Nat.divide 4 n -> Nat.odd (n / 2) = true.
Proof.
  intros [z ->] H4. rewrite Nat.div_mul by lia.
  destruct (Nat.odd z) eqn:Ho; [reflexivity|exfalso].
  assert (He : Nat.even z = true) by now rewrite <- Nat.negb_odd, Ho.
  apply Nat.even_spec in He. destruct He as [k ->].
  apply H4. exists k. lia.
Qed.

Lemma odd_not_div2 (n : nat) : Nat.odd n = true -> ~ Nat.divide 2 n.
Proof.
  intros Ho [z Hz]. apply Nat.odd_spec in Ho. destruct Ho as [k Hk]. lia.
Qed.

Lemma not_div2_odd (n : nat) : ~ Nat.divide 2 n -> Nat.odd n = true.
Proof.
  intros Hn. destruct (Nat.odd n) eqn:Ho; [reflexivity|exfalso].
  assert (He : Nat.even n = true) by now rewrite <- Nat.negb_odd, Ho.
  apply Nat.even_spec in He. destruct He as [k ->]. apply Hn. exists k. lia.
Qed.

Lemma nodiv_3 (n : nat) : ~ Nat.divide 2 n -> nodiv n 3.
Proof.
  intros Hn d Hd. now replace d with 2 by lia.
Qed.

Lemma loop_state_odd_next (root p n : nat) :
  Nat.odd p = true -> 3 <= p -> prime p -> Nat.divide p n ->
  (p <= root /\ nodiv n p) \/ (p = n /\ root < n) ->
  p <> n -> loop_state root p (n / p).
Proof.
  intros Ho Hp Hpr Hd [[Hr Hnd]|[He _]] Hne; [|contradiction].
  right; right. repeat split; try assumption; try lia.
  apply nodiv_weaken with n; [|assumption].
  destruct Hd as [z ->]. rewrite Nat.div_mul by lia. exists p. lia.
Qed.

Lemma find_radix_from_3 (n root f : nat) :
  2 <= n -> n < (root + 1) * (root + 1) ->
  root < f + 3 -> 3 <= root -> ~ Nat.divide 2 n ->
  forall p, rank p <= 3 -> radix_found root p n (find_radix f 3 n root).
Proof.
  intros Hn Hsq Hf Hr H2 p Hrk.
  destruct (find_radix_odd n root Hn Hsq f 3) as (H1 & H3 & H4 & H5 & H6);
    try assumption; try lia; try reflexivity.
  { now apply nodiv_3. }
  set (p' := find_radix f 3 n root) in *.
  unfold radix_found. split; [assumption|].
  split; [rewrite (rank_odd _ H4); lia|].
  split; [now right|].
  split; [destruct H6 as [[? _]|[? _]]; auto|].
  split; [intros ->; discriminate|].
  intros Hne. apply loop_state_odd_next; assumption.
Qed.

Lemma find_radix_from_2 (n root f : nat) :
  2 <= n -> n < (root + 1) * (root + 1) ->
  root < f + 1 -> 1 <= f -> 2 <= root -> ~ Nat.divide 4 n ->
  forall p, rank p <= 1 -> radix_found root p n (find_radix f 2 n root).
Proof.
  intros Hn Hsq Hf Hf1 Hr H4 p Hrk.
  destruct f as [|f]; [lia|]. rewrite find_radix_step.
  destruct (n mod 2 =? 0) eqn:Hm.
  - apply mod0_divide in Hm; [|lia].
    unfold radix_found. split; [assumption|]. split; [assumption|].
    split; [right; apply prime_2|]. split; [now left|].
    split; [auto|]. intros _. right; left.
    split; [reflexivity|]. split; [assumption|].
    assert (H4' : ~ Nat.divide 2 (n / 2))
      by now apply odd_not_div2, not_div4_half_odd.
    intros [z Hz]. apply H4'. exists (2 * z). lia.
  - assert (H2 : ~ Nat.divide 2 n).
    { intros Hd. apply mod0_divide in Hd; [congruence|lia]. }
    change (next_candidate 2) with 3.
    destruct (root <? 3) eqn:Hr3.
    + apply Nat.ltb_lt in Hr3.
      assert (Hpr : prime n).
      { apply nodiv_sqrt_prime with root 3; try assumption. now apply nodiv_3. }
      assert (Ho : Nat.odd n = true) by now apply not_div2_odd.
      unfold radix_found. split; [apply Nat.divide_refl|].
      split; [rewrite (rank_odd _ Ho); lia|].
      split; [now right|]. split; [auto|].
      split; [intros ->; discriminate|]. intros Hne. now elim Hne.
    + apply Nat.ltb_ge in Hr3.
      apply find_radix_from_3; try assumption; lia.
Qed.

Lemma find_radix_spec (n root p : nat) :
  2 <= n -> n < (root + 1) * (root + 1) -> loop_state root p n ->
  radix_found root p n (find_radix (3 + root) p n root).
Proof.
  intros Hn Hsq [->|[(-> & Hr & H4)|(Ho & Hp & Hnd)]].
  - change (3 + root) with (S (2 + root)). rewrite find_radix_step.
    destruct (n mod 4 =? 0) eqn:Hm.
    + apply mod0_divide in Hm; [|lia].
      unfold radix_found. split; [assumption|]. split; [lia|].
      split; [now left|]. split; [auto|]. split; [discriminate|].
      intros _. now left.
    + assert (H4 : ~ Nat.divide 4 n).
      { intros Hd. apply mod0_divide in Hd; [congruence|lia]. }
      change (next_candidate 4) with 2.
      destruct (root <? 2) eqn:Hr2.
      * apply Nat.ltb_lt in Hr2.
        assert (Hpr : prime n).
        { apply nodiv_sqrt_prime with root 2; try assumption.
          intros d Hd. lia. }
        unfold radix_found. split; [apply Nat.divide_refl|].
        split; [simpl; lia|]. split; [now right|]. split; [auto|].
        split; [auto|]. intros Hne. now elim Hne.
      * apply Nat.ltb_ge in Hr2.
        apply find_radix_from_2; try assumption; simpl; lia.
  - apply find_radix_from_2; try assumption; simpl; lia.
  - destruct (find_radix_odd n root Hn Hsq (3 + root) p)
      as (H1 & H3 & H4 & H5 & H6); try assumption; try lia.
    set (p' := find_radix (3 + root) p n root) in *.
    unfold radix_found. split; [assumption|].
    split; [rewrite (rank_odd _ Ho), (rank_odd _ H4); lia|].
    split; [now right|].
    split; [destruct H6 as [[? _]|[? _]]; auto|].
    split; [intros Hp'; rewrite Hp' in H4; discriminate|].
    intros Hne. apply loop_state_odd_next; try assumption; lia.
Qed.

Lemma in_divides_product (l : list nat) (r : nat) :
  In r l -> Nat.divide r (product l).
Proof.
  induction l as [|a l IH]; simpl; [tauto|].
  intros [->|Hin].
  - exists (product l). lia.
  - apply Nat.divide_trans with (product l); [auto|]. exists a. lia.
Qed.

Lemma count_occ_2_odd (l : list nat) :
  Nat.odd (product l) = true -> count_occ Nat.eq_dec l 2 = 0.
Proof.
  intros Ho. apply count_occ_not_In. intros Hin.
  apply in_divides_product in Hin. now apply odd_not_div2 in Ho.
Qed.

Lemma radix_ge_2 (r : nat) : r = 4 \/ prime r -> 2 <= r.
Proof. intros [->|[H _]]; lia. Qed.

Lemma product_cons (a : nat) (l : list nat) :
  product (a :: l) = a * product l.
Proof. reflexivity. Qed.

Lemma radices_cons (p n : nat) (fs : list Factor) :
  radices (mkFactor p n :: fs) = p :: radices fs.
Proof. reflexivity. Qed.

Lemma factor_loop_step (fuel p n root : nat) :
  factor_loop (S fuel) p n root =
  mkFactor (find_radix (3 + root) p n root)
           (n / find_radix (3 + root) p n root)
    :: (if 1 <? n / find_radix (3 + root) p n root
        then factor_loop fuel (find_radix (3 + root) p n root)
                         (n / find_radix (3 + root) p n root) root
        else []).
Proof. reflexivity. Qed.

Lemma factor_loop_spec (root : nat) :
  forall fuel p n,
    2 <= n -> n <= fuel -> n < (root + 1) * (root + 1) ->
    loop_state root p n ->
    factors_ok root p n (factor_loop fuel p n root).
Proof.
  induction fuel as [|fuel IH]; intros p n Hn Hfuel Hsq Hst; [lia|].
  rewrite factor_loop_step.
  destruct (find_radix_spec n root p Hn Hsq Hst)
    as (Hdiv & Hrk & Hpr & Hroot & H2 & Hnext).
  set (p' := find_radix (3 + root) p n root) in *.
  assert (Hp' : 2 <= p') by now apply radix_ge_2.
  destruct Hdiv as [n' Hn'].
  assert (Hq : n / p' = n')
    by (symmetry; apply Nat.div_unique_exact; lia).
  rewrite Hq in *.
  assert (Hn'1 : 1 <= n') by (destruct n'; lia).
  destruct (1 <? n') eqn:Hlt.
  - apply Nat.ltb_lt in Hlt.
    assert (Hne : p' <> n) by nia.
    destruct (IH p' n') as (I1 & I2 & I3 & I4 & I5 & I6 & I7);
      try lia; try nia; [now apply Hnext|].
    set (rest := factor_loop fuel p' n' root) in *.
    unfold factors_ok. rewrite radices_cons, product_cons.
    split; [rewrite I1; lia|].
    split; [now constructor|].
    split.
    { constructor; [exact Hrk|].
      eapply Forall_impl; [|exact I3]. unfold rank_le. intros; lia. }
    split; [now constructor|].
    split.
    { simpl. destruct (Nat.eq_dec p' 2) as [He|He]; [|assumption].
      rewrite count_occ_2_odd; [lia|]. rewrite I1.
      replace n' with (n / 2) by (rewrite <- Hq, He; reflexivity).
      apply not_div4_half_odd; [exists n'; lia|auto]. }
    split.
    { assert (Hnil : radices rest <> []).
      { intros Hnil. rewrite Hnil in I1. change (product []) with 1 in I1.
        lia. }
      destruct (radices rest) as [|r rs] eqn:Hr; [contradiction|].
      change (removelast (p' :: r :: rs)) with (p' :: removelast (r :: rs)).
      constructor; [|assumption].
      destruct Hroot as [?|[?|?]]; auto; contradiction. }
    intros N stride HN. simpl.
    split; [lia|]. split; [lia|]. split; [nia|].
    intros _. apply I7. nia.
  - apply Nat.ltb_ge in Hlt. assert (n' = 1) by lia. subst n'.
    unfold factors_ok. rewrite radices_cons, product_cons.
    change (radices []) with (@nil nat). change (product []) with 1.
    split; [lia|].
    split; [constructor; [exact Hpr|constructor]|].
    split; [constructor; [exact Hrk|constructor]|].
    split; [constructor; constructor|].
    split; [simpl; destruct (Nat.eq_dec p' 2); lia|].
    split; [constructor|].
    intros N stride HN. simpl.
    split; [lia|]. split; [lia|]. split; [nia|].
    intros Hc. now elim Hc.
Qed.

Lemma sqrt_bound (N : nat) : N < (Nat.sqrt N + 1) * (Nat.sqrt N + 1).
Proof.
  pose proof (Nat.sqrt_spec N (Nat.le_0_l N)) as [_ H].
  replace (Nat.sqrt N + 1) with (S (Nat.sqrt N)) by lia. exact H.
Qed.

Lemma factorize_ok (N : nat) :
  2 <= N -> factors_ok (Nat.sqrt N) 4 N (factorize N).
Proof.
  intros HN. unfold factorize. apply factor_loop_spec; try lia.
  - apply sqrt_bound.
  - now left.
Qed.

Lemma factorize_1 : factorize 1 = [mkFactor 1 1].
Proof. reflexivity. Qed.

Lemma factorize_stages (N : nat) : 1 <= N -> stages N 1 (factorize N).
Proof.
  intros HN. destruct (Nat.eq_dec N 1) as [->|Hne].
  - rewrite factorize_1. simpl.
    split; [lia|]. split; [lia|]. split; [lia|]. intros Hc. now elim Hc.
  - apply factorize_ok; lia.
Qed.

Lemma product_lower_bound (l : list nat) :
  Forall (fun r => r = 4 \/ prime r) l ->
  2 ^ count_occ Nat.eq_dec l 2 *
  3 ^ (List.length l - count_occ Nat.eq_dec l 2) <= product l.
Proof.
  induction 1 as [|r l Hr Hl IH]; [simpl; lia|].
  pose proof (count_occ_bound Nat.eq_dec 2 l) as Hc.
  cbn [count_occ List.length product fold_right].
  fold (product l).
  destruct (Nat.eq_dec r 2) as [->|Hne].
  - replace (S (List.length l) - S (count_occ Nat.eq_dec l 2))
      with (List.length l - count_occ Nat.eq_dec l 2) by lia.
    rewrite Nat.pow_succ_r'. nia.
  - replace (S (List.length l) - count_occ Nat.eq_dec l 2)
      with (S (List.length l - count_occ Nat.eq_dec l 2)) by lia.
    rewrite Nat.pow_succ_r'.
    assert (3 <= r) by (apply radix_ge_2 in Hr; lia). nia.
Qed.

Lemma many_factors_large (l : list nat) :
  Forall (fun r => r = 4 \/ prime r) l ->
  count_occ Nat.eq_dec l 2 <= 1 ->
  33 <= List.length l -> 2 * 3 ^ 32 <= product l.
Proof.
  intros Hl Hc Hlen. pose proof (product_lower_bound l Hl) as Hb.
  assert (Hpow : forall k, 32 <= k -> 3 ^ 32 <= 3 ^ k).
  { intros k Hk. apply Nat.pow_le_mono_r; lia. }
  destruct (count_occ Nat.eq_dec l 2) as [|[|c]]; [| |lia].
  - rewrite Nat.pow_0_r, Nat.sub_0_r in Hb.
    pose proof (Hpow (List.length l - 1) ltac:(lia)) as Hp.
    replace (List.length l) with (S (List.length l - 1)) in Hb by lia.
    rewrite Nat.pow_succ_r' in Hb. lia.
  - rewrite Nat.pow_1_r in Hb.
    pose proof (Hpow (List.length l - 1) ltac:(lia)) as Hp. lia.
Qed.

(* ================================================================== *)
(** * Integer multiplication *)
(* ================================================================== *)

Lemma wrap_in_range (B z : Z) :
  (0 < B)%Z -> in_range B z -> wrap B z = z.
Proof.
  intros HB [Hlo Hhi]. unfold wrap.
  assert (Hp : (2 ^ B = 2 * 2 ^ (B - 1))%Z).
  { replace B with (Z.succ (B - 1)) at 1 by lia. apply Z.pow_succ_r. lia. }
  rewrite Z.mod_small; lia.
Qed.

Lemma wrap_range (B z : Z) : (0 < B)%Z -> in_range B (wrap B z).
Proof.
  intros HB. unfold wrap, in_range.
  assert (Hp : (2 ^ B = 2 * 2 ^ (B - 1))%Z).
  { replace B with (Z.succ (B - 1)) at 1 by lia. apply Z.pow_succ_r. lia. }
  assert (0 < 2 ^ (B - 1))%Z by (apply Z.pow_pos_nonneg; lia).
  pose proof (Z.mod_pos_bound (z + 2 ^ (B - 1)) (2 ^ B) ltac:(lia)). lia.
Qed.

Lemma sround_spec (x : Z) :
  (- 2 ^ 62 <= x <= 2 ^ 62)%Z -> sround x = ((x + 2 ^ 30) / 2 ^ 31)%Z.
Proof.
  intros Hx. unfold sround, FRACBITS.
  change (Z.shiftl 1 (31 - 1)) with (2 ^ 30)%Z.
  rewrite wrap_in_range; [apply Z.shiftr_div_pow2; lia|lia|].
  unfold in_range. change (64 - 1)%Z with 63%Z. lia.
Qed.

Lemma product_bound_32 (a b : Z) :
  in_range 32 a -> in_range 32 b -> (- 2 ^ 62 <= a * b <= 2 ^ 62)%Z.
Proof.
  unfold in_range. change (32 - 1)%Z with 31%Z.
  change (2 ^ 31)%Z with 2147483648%Z.
  change (2 ^ 62)%Z with 4611686018427387904%Z. intros Ha Hb. nia.
Qed.

(** The 32-bit product, before it is read through the sample type. *)
Lemma int_smul_32_spec (a b : Z) :
  in_range 32 a -> in_range 32 b ->
  let r := ((a * b + 2 ^ 30) / 2 ^ 31)%Z in
  int_smul 32 a b = wrap 32 r /\
  (a * b - 2 ^ 30 < r * 2 ^ 31 <= a * b + 2 ^ 30)%Z /\
  (~ (a = (- 2 ^ 31)%Z /\ b = (- 2 ^ 31)%Z) -> int_smul 32 a b = r).
Proof.
  intros Ha Hb r.
  pose proof (product_bound_32 a b Ha Hb) as Hab.
  assert (Hs : int_smul 32 a b = wrap 32 r).
  { unfold int_smul.
    rewrite (wrap_in_range 64 (a * b)); [|lia|].
    - now rewrite sround_spec.
    - unfold in_range. change (64 - 1)%Z with 63%Z. lia. }
  assert (Hr : (a * b - 2 ^ 30 < r * 2 ^ 31 <= a * b + 2 ^ 30)%Z).
  { subst r. pose proof (Z.div_mod (a * b + 2 ^ 30) (2 ^ 31) ltac:(lia)).
    pose proof (Z.mod_pos_bound (a * b + 2 ^ 30) (2 ^ 31) ltac:(lia)).
    change (2 ^ 30)%Z with 1073741824%Z in *.
    change (2 ^ 31)%Z with 2147483648%Z in *. lia. }
  split; [exact Hs|]. split; [exact Hr|].
  intros Hne. rewrite Hs. apply wrap_in_range; [lia|].
  unfold in_range in *. change (32 - 1)%Z with 31%Z in *.
  change (2 ^ 30)%Z with 1073741824%Z in *.
  change (2 ^ 31)%Z with 2147483648%Z in *.
  change (2 ^ 62)%Z with 4611686018427387904%Z in *.
  assert (a * b < 4611686018427387904)%Z.
  { destruct (Z.eq_dec a (-2147483648)) as [->|Hna];
      destruct (Z.eq_dec b (-2147483648)) as [->|Hnb]; try nia.
    all: exfalso; apply Hne; split; reflexivity. }
  nia.
Qed.

(** The integer operations do not look at the platform's [double]
    arithmetic: what follows holds on every platform. *)
Section IntegerProduct.
Context `{Binary64}.

(** C6, as the code has it: on a 32-bit sample type, [smul] adds the
    bias [1 << 30] to the exact 64-bit product, shifts right
    arithmetically by 31 and narrows to 32 bits.  The quotient [r] is
    the product scaled by [2^-31] and rounded to nearest, a tie going
    to the larger neighbour; it fits in 32 bits unless both operands
    are the minimum value. *)
Theorem smul_32_round_half_up (a b : Z) :
  in_range 32 a -> in_range 32 b ->
  let r := ((a * b + 2 ^ 30) / 2 ^ 31)%Z in
  smul (T := int 32) a b = wrap 32 r /\
  (a * b - 2 ^ 30 < r * 2 ^ 31 <= a * b + 2 ^ 30)%Z /\
  (~ (a = (- 2 ^ 31)%Z /\ b = (- 2 ^ 31)%Z) -> smul (T := int 32) a b = r).
Proof.
  intros Ha Hb r. cbn [smul IntScalar].
  exact (int_smul_32_spec a b Ha Hb).
Qed.
End IntegerProduct.

Lemma smul_32_round_half_up_witness :
  in_range 32 3 /\ in_range 32 1073741824 /\
  smul (T := int 32) 3%Z 1073741824%Z = 2%Z.
Proof.
  assert (Ha : in_range 32 3) by (unfold in_range; simpl; lia).
  assert (Hb : in_range 32 1073741824) by (unfold in_range; simpl; lia).
  split; [exact Ha|]. split; [exact Hb|].
  destruct (smul_32_round_half_up 3 1073741824 Ha Hb) as (_ & _ & H).
  rewrite H; [reflexivity|]. intros [Hc _]. discriminate Hc.
Defined.

(** C6 as stated fails: a negative tie is rounded towards zero, not
    away from it, and a 16-bit sample type is shifted by 31, not 15. *)
Lemma smul_not_ties_away_nor_width_scaled :
  (in_range 32 (- 2 ^ 30) /\ in_range 32 1 /\
   smul (T := int 32) (- 2 ^ 30)%Z 1%Z = 0%Z /\
   spec_s_mul 32 (- 2 ^ 30) 1 = (-1)%Z /\
   smul (T := int 32) (- 2 ^ 30)%Z 1%Z <> spec_s_mul 32 (- 2 ^ 30) 1) /\
  (in_range 16 16384 /\
   smul (T := int 16) 16384%Z 16384%Z = 0%Z /\
   spec_s_mul 16 16384 16384 = 8192%Z /\
   smul (T := int 16) 16384%Z 16384%Z <> spec_s_mul 16 16384 16384).
Proof.
  unfold in_range.
  repeat split; try reflexivity; try (simpl; lia); discriminate.
Qed.

(* ================================================================== *)
(** * The size check of the real transform *)
(* ================================================================== *)

Lemma size_check_mod4 (fftSize : nat) :
  FFTReal.size_check fftSize = true <-> fftSize mod 4 < 2.
Proof.
  unfold FFTReal.size_check.
  rewrite Nat.shiftr_div_pow2. change (2 ^ 1) with 2.
  change (Nat.land (fftSize / 2) 1)
    with (Nat.land (fftSize / 2) (Nat.ones 1)).
  rewrite Nat.land_ones.
  change (2 ^ 1) with 2. rewrite Nat.eqb_eq.
  pose proof (Nat.div_mod_eq fftSize 4).
  pose proof (Nat.mod_upper_bound fftSize 4 ltac:(lia)).
  pose proof (Nat.div_mod_eq fftSize 2).
  pose proof (Nat.mod_upper_bound fftSize 2 ltac:(lia)).
  pose proof (Nat.div_mod_eq (fftSize / 2) 2).
  pose proof (Nat.mod_upper_bound (fftSize / 2) 2 ltac:(lia)).
  lia.
Qed.

(** C5, on the code: the construction-time assertion looks at
    [fftSize >> 1] only, so it passes exactly for the sizes that are 0
    or 1 modulo 4; the odd size 5 passes it and is constructed with
    half-size 2. *)
Theorem size_check_accepts_odd_size :
  (forall fftSize,
      FFTReal.size_check fftSize = true <->
      fftSize mod 4 = 0 \/ fftSize mod 4 = 1) /\
  Nat.odd 5 = true /\
  FFTReal.size_check 5 = true /\
  option_map FFTReal.size (FFTReal.new (T := R) 5) = Some 2.
Proof.
  split.
  - intros n. rewrite size_check_mod4. lia.
  - repeat split; reflexivity.
Qed.

(* ================================================================== *)
(** * The twiddle tables *)
(* ================================================================== *)

Lemma nth_map_seq {A : Type} (f : nat -> A) (d : A) (n i : nat) :
  i < n -> nth i (map f (seq 0 n)) d = f i.
Proof.
  intros Hi. rewrite (nth_indep _ d (f 0)) by now rewrite length_map, length_seq.
  rewrite (map_nth f (seq 0 n) 0 i), seq_nth by assumption. reflexivity.
Qed.

Lemma tw_at_fwd {T : Type} `{Scalar T} (N i : nat) :
  i < N ->
  tw_at (twiddlesFwd (new_FFTComplex N)) i
  = cexp (phase_factor N * INR i)%R.
Proof.
  intros Hi. unfold tw_at. cbn [twiddlesFwd new_FFTComplex].
  now apply (nth_map_seq (fun i => cexp (phase_factor N * INR i)%R)).
Qed.

Lemma tw_at_inv {T : Type} `{Scalar T} (N i : nat) :
  i < N ->
  tw_at (twiddlesInv (new_FFTComplex N)) i
  = cexp (phase_factor N * INR i * -1)%R.
Proof.
  intros Hi. unfold tw_at. cbn [twiddlesInv new_FFTComplex].
  now apply (nth_map_seq (fun i => cexp (phase_factor N * INR i * -1)%R)).
Qed.

Lemma twiddles_length {T : Type} `{Scalar T} (N : nat) :
  List.length (twiddlesFwd (new_FFTComplex N)) = N /\
  List.length (twiddlesInv (new_FFTComplex N)) = N.
Proof.
  cbn [twiddlesFwd twiddlesInv new_FFTComplex].
  now rewrite !length_map, !length_seq.
Qed.

Lemma Zfloor_half_neg (y : R) :
  (IZR (Zfloor (0.5 + y)) <> (0.5 + y)%R ->
   Zfloor (0.5 - y) = (- Zfloor (0.5 + y))%Z) /\
  (IZR (Zfloor (0.5 + y)) = (0.5 + y)%R ->
   Zfloor (0.5 - y) = (1 - Zfloor (0.5 + y))%Z).
Proof.
  pose proof (Zfloor_bound (0.5 + y)) as [Hlo Hhi].
  split; intros Hz; apply Zfloor_eq.
  - rewrite opp_IZR. lra.
  - rewrite minus_IZR. lra.
Qed.

Lemma wrap_congruent (B : positive) (z : Z) :
  exists k, wrap (Z.pos B) z = (z + k * 2 ^ Z.pos B)%Z.
Proof.
  unfold wrap.
  exists (- ((z + 2 ^ (Z.pos B - 1)) / 2 ^ Z.pos B))%Z.
  assert (Hp : (0 < 2 ^ Z.pos B)%Z) by (apply Z.pow_pos_nonneg; lia).
  pose proof (Z.div_mod (z + 2 ^ (Z.pos B - 1)) (2 ^ Z.pos B) ltac:(lia)).
  lia.
Qed.

(** Negation in the sample type never gives one more than the exact
    negation: the two differ by a multiple of [2^B]. *)
Lemma neg_not_successor (B : positive) (z : Z) :
  wrap (Z.pos B) (- z) <> (1 - z)%Z.
Proof.
  destruct (wrap_congruent B (- z)) as (k & Hk). rewrite Hk. intros Heq.
  assert (Hp : (2 <= 2 ^ Z.pos B)%Z).
  { change 2%Z with (2 ^ 1)%Z at 1. apply Z.pow_le_mono_r; lia. }
  assert (Hk1 : (k * 2 ^ Z.pos B = 1)%Z) by lia.
  destruct (Z_le_gt_dec k 0) as [Hle|Hgt].
  - assert (k * 2 ^ Z.pos B <= 0)%Z by (apply Z.mul_nonpos_nonneg; lia). lia.
  - assert (1 * 2 ^ Z.pos B <= k * 2 ^ Z.pos B)%Z
      by (apply Z.mul_le_mono_nonneg_r; lia).
    lia.
Qed.

(** One entry of the two tables of an integer sample type, on a
    platform whose [double] results at this entry are symmetric:
    [std::cos] even, [std::sin] odd, the product with [max] odd, and
    the two sums exact. *)
Lemma conj_int_table `{Binary64} (B : positive) (phase : R) :
  let M := b64_of_int (int_max (Z.pos B)) in
  let y := b64_mul M (b64_sin phase) in
  let wf : complex (int B) := cexp phase in
  let wb : complex (int B) := cexp (phase * -1)%R in
  b64_cos (phase * -1) = b64_cos phase ->
  b64_sin (phase * -1) = (- b64_sin phase)%R ->
  b64_mul M (- b64_sin phase) = (- y)%R ->
  b64_add 0.5 y = (0.5 + y)%R ->
  b64_add 0.5 (- y) = (0.5 - y)%R ->
  real wb = real wf /\
  (IZR (imag wf) <> (0.5 + y)%R -> in_range (Z.pos B) (- imag wf) ->
   wb = conj wf) /\
  (IZR (imag wf) = (0.5 + y)%R ->
   imag wb = (1 - imag wf)%Z /\ wb <> conj wf).
Proof.
  intros M y wf wb Hcos Hsin Hmul Haddf Haddb.
  assert (Hre : real wb = real wf).
  { unfold wb, wf, cexp. cbn [real scos IntScalar]. unfold int_scos.
    now rewrite Hcos. }
  assert (Hif : imag wf = Zfloor (0.5 + y)).
  { unfold wf, cexp. cbn [imag ssin IntScalar]. unfold int_ssin.
    fold M. fold y. now rewrite Haddf. }
  assert (Hib : imag wb = Zfloor (0.5 - y)).
  { unfold wb, cexp. cbn [imag ssin IntScalar]. unfold int_ssin.
    fold M. now rewrite Hsin, Hmul, Haddb. }
  destruct (Zfloor_half_neg y) as [Hn Ht].
  split; [exact Hre|]. split.
  - intros Hy Hrange. rewrite Hif in Hy. specialize (Hn Hy).
    destruct wb as [wr wi] eqn:Ewb. cbn [real imag] in Hre, Hib.
    unfold conj. cbn [neg IntScalar]. f_equal; [exact Hre|].
    rewrite wrap_in_range by (try lia; exact Hrange).
    rewrite Hib, Hn, Hif. reflexivity.
  - intros Hy. rewrite Hif in Hy. specialize (Ht Hy).
    assert (Him : imag wb = (1 - imag wf)%Z) by (rewrite Hib, Ht, Hif; reflexivity).
    split; [exact Him|].
    intros Heq. apply (f_equal imag) in Heq. rewrite Him in Heq.
    unfold conj in Heq. cbn [imag neg IntScalar] in Heq.
    symmetry in Heq. revert Heq. apply neg_not_successor.
Qed.

(** C8, on the code.  On exact samples the two tables are
    conjugate-equal element-wise.  On an integer sample type the stored
    entries go through the platform's [double] arithmetic and
    [std::floor]; at an entry where that arithmetic is symmetric
    ([std::cos] even, [std::sin] odd, the product with [max] odd, the
    sums [0.5 + y] and [0.5 - y] exact, [y] being the [double]
    [max * sin (phase)]) the real parts agree, the entries are
    conjugate when [0.5 + y] is not an integer, and when it is,
    [floor] rounds both signs upwards: the inverse entry's imaginary
    part is one more than the negated forward one, and the entries are
    not conjugate. *)
Theorem twiddle_tables_conjugate :
  (forall N i, i < N ->
     tw_at (twiddlesInv (new_FFTComplex (T := R) N)) i
     = conj (tw_at (twiddlesFwd (new_FFTComplex (T := R) N)) i)) /\
  (forall (P : Binary64) (B : positive) N i, i < N ->
     let phase := (phase_factor N * INR i)%R in
     let M := b64_of_int (int_max (Z.pos B)) in
     let y := b64_mul M (b64_sin phase) in
     let wf := tw_at (twiddlesFwd (new_FFTComplex (T := int B) N)) i in
     let wb := tw_at (twiddlesInv (new_FFTComplex (T := int B) N)) i in
     b64_cos (phase * -1) = b64_cos phase ->
     b64_sin (phase * -1) = (- b64_sin phase)%R ->
     b64_mul M (- b64_sin phase) = (- y)%R ->
     b64_add 0.5 y = (0.5 + y)%R ->
     b64_add 0.5 (- y) = (0.5 - y)%R ->
     real wb = real wf /\
     (IZR (imag wf) <> (0.5 + y)%R -> in_range (Z.pos B) (- imag wf) ->
      wb = conj wf) /\
     (IZR (imag wf) = (0.5 + y)%R ->
      imag wb = (1 - imag wf)%Z /\ wb <> conj wf)).
Proof.
  split.
  - intros N i Hi. rewrite tw_at_fwd, tw_at_inv by assumption.
    unfold cexp, conj. cbn [real imag scos ssin neg RealScalar].
    replace (phase_factor N * INR i * -1)%R
      with (- (phase_factor N * INR i))%R by ring.
    now rewrite cos_neg, sin_neg.
  - intros P B N i Hi phase M y wf wb. subst wf wb.
    rewrite tw_at_fwd, tw_at_inv by assumption.
    apply conj_int_table.
Qed.

Lemma phase_84_7 : (phase_factor 84 * INR 7 = - (PI / 6))%R.
Proof.
  unfold phase_factor. rewrite (INR_IZR_INZ 84), (INR_IZR_INZ 7).
  cbn [Z.of_nat Pos.of_succ_nat Pos.succ]. field.
Qed.

Lemma twiddle_tables_conjugate_witness :
  (1 < 4 /\
   tw_at (twiddlesInv (new_FFTComplex (T := R) 4)) 1
   = conj (tw_at (twiddlesFwd (new_FFTComplex (T := R) 4)) 1)) /\
  (7 < 84 /\
   imag (tw_at (twiddlesInv
                  (new_FFTComplex (T := int 32) 84)) 7)
   = (1 - imag (tw_at (twiddlesFwd
                         (new_FFTComplex (T := int 32)
                                         84)) 7))%Z).
Proof.
  split.
  - split; [lia|]. apply (proj1 twiddle_tables_conjugate). lia.
  - split; [lia|].
    assert (Hs : b64_sin (phase_factor 84 * INR 7) = (- (1 / 2))%R).
    { cbn [b64_sin exact_binary64]. now rewrite phase_84_7, sin_neg, sin_PI6. }
    refine (proj1 (proj2 (proj2 (proj2 twiddle_tables_conjugate
                     exact_binary64 32%positive 84 7 _ _ _ _ _ _)) _)).
    + lia.
    + cbn [b64_cos exact_binary64].
      replace (phase_factor 84 * INR 7 * -1)%R
        with (- (phase_factor 84 * INR 7))%R by ring.
      apply cos_neg.
    + cbn [b64_sin exact_binary64].
      replace (phase_factor 84 * INR 7 * -1)%R
        with (- (phase_factor 84 * INR 7))%R by ring.
      apply sin_neg.
    + cbn [b64_mul exact_binary64]. ring.
    + reflexivity.
    + cbn [b64_add exact_binary64]. ring.
    + rewrite tw_at_fwd by lia. unfold cexp.
      cbn [imag ssin IntScalar]. unfold int_ssin. rewrite Hs.
      cbn [b64_add b64_mul b64_of_int exact_binary64].
      change (int_max 32) with 2147483647%Z.
      replace (0.5 + 2147483647 * - (1 / 2))%R with (IZR (-1073741823)) by lra.
      now rewrite ZfloorZ.
Defined.

(** C8 as stated fails on a 32-bit integer table of size 84.  At
    entry 7 binary64 gives [std::sin] the values -0.5 and 0.5 exactly,
    the products with [max = 2147483647] and the sums with 0.5 are
    exact, and [std::floor] stores -1073741823 forwards and 1073741824
    backwards.  On a platform with these values at this entry the two
    entries are not conjugate. *)
Lemma twiddle_tables_int32_not_conjugate :
  exists P : Binary64,
    (b64_sin (phase_factor 84 * INR 7) = (-0.5)%R /\
     b64_sin (phase_factor 84 * INR 7 * -1) = 0.5%R /\
     b64_of_int 2147483647 = 2147483647%R /\
     b64_mul 2147483647 (-0.5) = (-1073741823.5)%R /\
     b64_mul 2147483647 0.5 = 1073741823.5%R /\
     b64_add 0.5 (-1073741823.5) = (-1073741823)%R /\
     b64_add 0.5 1073741823.5 = 1073741824%R) /\
    7 < 84 /\
    imag (tw_at (twiddlesFwd (new_FFTComplex (T := int 32) 84)) 7)
      = (-1073741823)%Z /\
    imag (tw_at (twiddlesInv (new_FFTComplex (T := int 32) 84)) 7)
      = 1073741824%Z /\
    tw_at (twiddlesInv (new_FFTComplex (T := int 32) 84)) 7
    <> conj (tw_at (twiddlesFwd (new_FFTComplex (T := int 32) 84)) 7).
Proof.
  exists exact_binary64.
  assert (Hsf : sin (phase_factor 84 * INR 7) = (-0.5)%R).
  { rewrite phase_84_7, sin_neg, sin_PI6. lra. }
  assert (Hsb : sin (phase_factor 84 * INR 7 * -1) = 0.5%R).
  { rewrite phase_84_7.
    replace (- (PI / 6) * -1)%R with (PI / 6)%R by ring.
    rewrite sin_PI6. lra. }
  assert (Hf : imag (tw_at (twiddlesFwd
                 (new_FFTComplex (T := int 32) 84)) 7)
               = (-1073741823)%Z).
  { rewrite tw_at_fwd by lia. unfold cexp. cbn [imag ssin IntScalar].
    unfold int_ssin. cbn [b64_add b64_mul b64_of_int b64_sin exact_binary64].
    rewrite Hsf. change (int_max 32) with 2147483647%Z.
    apply Zfloor_eq. lra. }
  assert (Hb : imag (tw_at (twiddlesInv
                 (new_FFTComplex (T := int 32) 84)) 7)
               = 1073741824%Z).
  { rewrite tw_at_inv by lia. unfold cexp. cbn [imag ssin IntScalar].
    unfold int_ssin. cbn [b64_add b64_mul b64_of_int b64_sin exact_binary64].
    rewrite Hsb. change (int_max 32) with 2147483647%Z.
    apply Zfloor_eq. lra. }
  cbn [b64_sin b64_mul b64_add b64_of_int exact_binary64].
  split; [repeat split; try assumption; lra|].
  split; [lia|]. split; [exact Hf|]. split; [exact Hb|].
  intros Heq. apply (f_equal imag) in Heq. rewrite Hb in Heq.
  unfold conj in Heq. cbn [imag neg IntScalar] in Heq.
  rewrite Hf in Heq. vm_compute in Heq. discriminate Heq.
Qed.

(* ================================================================== *)
(** * The twiddle index of the generic butterfly *)
(* ================================================================== *)

Lemma tw_step_mod (N s k t : nat) :
  s * k < N -> t < N ->
  tw_step N s k t = (t + s * k) mod N /\ tw_step N s k t < N.
Proof.
  intros Hk Ht. unfold tw_step.
  destruct (N <=? t + s * k) eqn:Hle.
  - apply Nat.leb_le in Hle.
    assert (Hm : (t + s * k) mod N = t + s * k - N).
    { symmetry. apply Nat.mod_unique with 1; lia. }
    rewrite Hm. lia.
  - apply Nat.leb_gt in Hle. rewrite Nat.mod_small by lia. lia.
Qed.

Lemma tw_index_mod (N s k : nat) :
  s * k < N -> forall q, tw_index N s k q = (s * k * q) mod N.
Proof.
  intros Hk. induction q as [|q IH].
  - cbn [tw_index]. rewrite Nat.mul_0_r. symmetry. apply Nat.mod_small. lia.
  - cbn [tw_index].
    assert (Ht : tw_index N s k q < N).
    { rewrite IH. apply Nat.mod_upper_bound. lia. }
    destruct (tw_step_mod N s k _ Hk Ht) as [-> _].
    rewrite IH, Nat.Div0.add_mod_idemp_l. f_equal. lia.
Qed.

Lemma generic_inner_state {T : Type} `{Scalar T}
      (size stride k output : nat) (scratch twiddles : list (complex T))
      (m : mem T) (j : nat) :
  snd (for_loop j (generic_inner_step size stride k output scratch twiddles)
                (m, 0))
  = tw_index size stride k j.
Proof.
  induction j as [|j IH]; [reflexivity|].
  cbn [for_loop generic_inner_step snd tw_index]. now rewrite IH.
Qed.

(** C10: in the generic butterfly, with [stride * radix * length]
    equal to the transform size, the twiddle index kept by the single
    conditional subtraction is, at every table access, below the size
    and equal to [(stride * k * q) mod size]; so the access is inside
    the table and reads that entry.  The state of the innermost loop
    carries exactly this index, and the factor list of the constructor
    gives the precondition at every level of [perform]. *)
Theorem generic_twiddle_index_in_bounds
        (N stride radix length u q1 q : nat) :
  1 <= N -> stride * (radix * length) = N -> u < length -> q1 < radix ->
  1 <= q < radix ->
  let k := u + q1 * length in
  tw_index N stride k q < N /\
  tw_index N stride k q = (stride * k * q) mod N /\
  (forall (twiddles : list (complex R)) m output scratch,
      List.length twiddles = N ->
      snd (for_loop q (generic_inner_step N stride k output scratch twiddles)
                    (m, 0)) = tw_index N stride k q /\
      tw_index N stride k q < List.length twiddles /\
      tw_at twiddles (tw_index N stride k q)
      = tw_at twiddles ((stride * k * q) mod N)) /\
  stages N 1 (factorize N).
Proof.
  intros HN1 HN Hu Hq1 Hq k.
  assert (Hk : stride * k < N).
  { subst k. assert (u + q1 * length < radix * length) by nia.
    assert (1 <= stride) by (destruct stride; lia).
    rewrite <- HN. apply Nat.mul_lt_mono_pos_l; lia. }
  assert (Hidx : tw_index N stride k q = (stride * k * q) mod N)
    by now apply tw_index_mod.
  assert (Hlt : tw_index N stride k q < N).
  { rewrite Hidx. apply Nat.mod_upper_bound. lia. }
  split; [exact Hlt|]. split; [exact Hidx|]. split.
  - intros tw m output scratch Hlen.
    split; [apply generic_inner_state|].
    split; [lia|]. now rewrite Hidx.
  - now apply factorize_stages.
Qed.

Lemma generic_twiddle_index_in_bounds_witness :
  tw_index 15 3 (0 + 4 * 1) 4 < 15 /\
  tw_index 15 3 (0 + 4 * 1) 4 = (3 * (0 + 4 * 1) * 4) mod 15.
Proof.
  destruct (generic_twiddle_index_in_bounds 15 3 5 1 0 4 4)
    as (H1 & H2 & _); [lia|reflexivity|lia|lia|lia|].
  split; [exact H1|exact H2].
Defined.

(* ================================================================== *)
(** * Memory: what a transform leaves alone *)
(* ================================================================== *)

Lemma store_same {T} (m : mem T) (a : nat) (v : complex T) :
  store m a v a = v.
Proof. unfold store. now rewrite Nat.eqb_refl. Qed.

Lemma store_other {T} (m : mem T) (a x : nat) (v : complex T) :
  x <> a -> store m a v x = m x.
Proof. intros Hx. unfold store. now apply Nat.eqb_neq in Hx as ->. Qed.

Lemma for_loop_frame {T} (n : nat) (body : nat -> mem T -> mem T)
      (m : mem T) (x : nat) :
  (forall i m', i < n -> body i m' x = m' x) ->
  for_loop n body m x = m x.
Proof.
  induction n as [|n IH]; intros Hb; [reflexivity|].
  cbn [for_loop]. rewrite Hb by lia. apply IH. intros i m' Hi. apply Hb. lia.
Qed.

Lemma memcpy_frame {T} (m : mem T) (dst src n x : nat) :
  x < dst \/ dst + n <= x -> memcpy m dst src n x = m x.
Proof.
  intros Hx. unfold memcpy. apply for_loop_frame.
  intros i m' Hi. apply store_other. lia.
Qed.

Lemma memcpy_copied {T} (m : mem T) (dst src n i : nat) :
  i < n -> memcpy m dst src n (dst + i) = m (src + i).
Proof.
  unfold memcpy. induction n as [|n IH]; intros Hi; [lia|].
  cbn [for_loop]. destruct (Nat.eq_dec i n) as [->|Hne].
  - apply store_same.
  - rewrite store_other by lia. apply IH. lia.
Qed.

Section Frames.
Context {T : Type} `{Scalar T}.

Lemma cdiv_at_frame (m : mem T) (a x : nat) (d : Z) :
    x <> a -> cdiv_at m a d x = m x.
  Proof. intros Hx. unfold cdiv_at. now apply store_other. Qed.

Lemma butterfly2_frame (m : mem T) (output stride length : nat)
        (twiddles : list (complex T)) (x : nat) :
    x < output \/ output + 2 * length <= x ->
    butterfly2 m output stride length twiddles x = m x.
  Proof.
    intros Hx. unfold butterfly2. apply for_loop_frame.
    intros i m' Hi. cbv zeta.
    rewrite !store_other by lia.
    destruct is_integral; [|reflexivity].
    rewrite !cdiv_at_frame by lia. reflexivity.
  Qed.

Lemma butterfly4_frame (m : mem T) (output stride length : nat)
        (twiddles : list (complex T)) (inverse : bool) (x : nat) :
    x < output \/ output + 4 * length <= x ->
    butterfly4 m output stride length twiddles inverse x = m x.
  Proof.
    intros Hx. unfold butterfly4. cbv zeta.
    match goal with
    | |- for_loop _ _ ?m0 x = _ => transitivity (m0 x)
    end.
    - apply for_loop_frame. intros i m' Hi.
      destruct inverse; rewrite !store_other by lia; reflexivity.
    - destruct is_integral; [|reflexivity].
      apply for_loop_frame. intros i m' Hi.
      rewrite !cdiv_at_frame by lia. reflexivity.
  Qed.

Lemma generic_inner_frame (size stride radix k output : nat)
        (scratch twiddles : list (complex T)) (m : mem T) (x : nat) :
    x <> output + k ->
    generic_inner size stride radix k output scratch twiddles m x = m x.
  Proof.
    intros Hx. unfold generic_inner.
    induction (radix - 1) as [|j IH]; [reflexivity|].
    cbn [for_loop generic_inner_step fst].
    now rewrite store_other.
  Qed.

Lemma butterflyGeneric_frame (size : nat) (m : mem T)
        (output stride radix length : nat)
        (twiddles : list (complex T)) (x : nat) :
    x < output \/ output + radix * length <= x ->
    butterflyGeneric size m output stride radix length twiddles x = m x.
  Proof.
    intros Hx. unfold butterflyGeneric. cbv zeta.
    assert (Hcell : forall u q1, u < length -> q1 < radix ->
                                 x <> output + (u + q1 * length)).
    { intros u q1 Hu Hq1. assert (u + q1 * length < radix * length) by nia.
      lia. }
    match goal with
    | |- for_loop _ _ ?m0 x = _ => transitivity (m0 x)
    end.
    - apply for_loop_frame. intros u m' Hu.
      apply for_loop_frame. intros q1 m'' Hq1.
      rewrite generic_inner_frame by now apply Hcell.
      apply store_other. now apply Hcell.
    - destruct is_integral; [|reflexivity].
      apply for_loop_frame. intros u m' Hu.
      apply for_loop_frame. intros q1 m'' Hq1.
      apply cdiv_at_frame. now apply Hcell.
  Qed.

  (** [perform] writes only the [radix * length] cells of its output
      block. *)
Lemma perform_frame (fft : FFTComplex T) (N inStride : nat) (inverse : bool) :
    1 <= N ->
    forall fs stride m input output x,
      stages N stride fs ->
      x < output \/
      output + (match fs with
                | f :: _ => radix f * length f
                | [] => 0
                end) <= x ->
      perform fft m input output stride inStride fs inverse x = m x.
  Proof.
    intros HN. induction fs as [|f fs IH]; intros stride m input output x Hst Hx;
      [reflexivity|].
    destruct Hst as (Hr & Hl & Hprod & Hrest).
    cbn [perform]. cbv zeta.
    set (m1 := if length f =? 1 then _ else _).
    assert (Hm1 : m1 x = m x).
    { subst m1. destruct (length f =? 1) eqn:Hlen.
      - apply for_loop_frame. intros i m' Hi. apply store_other. lia.
      - apply Nat.eqb_neq in Hlen. specialize (Hrest Hlen).
        apply for_loop_frame. intros q m' Hq. apply IH; [exact Hrest|].
        destruct fs as [|f' fs']; [contradiction|].
        destruct Hrest as (_ & _ & Hp' & _).
        assert (radix f' * length f' = length f) by nia.
        assert (q * length f + length f <= radix f * length f) by nia.
        lia. }
    rewrite <- Hm1.
    destruct (radix f) as [|[|[|[|[|r]]]]] eqn:Hrad.
    - lia.
    - apply butterflyGeneric_frame. lia.
    - apply butterfly2_frame. lia.
    - apply butterflyGeneric_frame. lia.
    - apply butterfly4_frame. lia.
    - apply butterflyGeneric_frame. lia.
  Qed.

Lemma forward_frame (N : nat) (m : mem T) (timeData freqData x : nat) :
    1 <= N -> x < freqData \/ freqData + N <= x ->
    forward (new_FFTComplex N) m timeData freqData x = m x.
  Proof.
    intros HN Hx. unfold forward. cbn [factors new_FFTComplex].
    pose proof (factorize_stages N HN) as Hst.
    apply (perform_frame _ N 1 false HN _ 1); [exact Hst|].
    destruct (factorize N) as [|f fs]; [contradiction|].
    destruct Hst as (_ & _ & Hp & _). lia.
  Qed.

Lemma inverse_frame (N : nat) (m : mem T) (freqData timeData x : nat) :
    1 <= N -> x < timeData \/ timeData + N <= x ->
    inverse (new_FFTComplex N) m freqData timeData x = m x.
  Proof.
    intros HN Hx. unfold inverse. cbn [factors new_FFTComplex].
    pose proof (factorize_stages N HN) as Hst.
    apply (perform_frame _ N 1 true HN _ 1); [exact Hst|].
    destruct (factorize N) as [|f fs]; [contradiction|].
    destruct Hst as (_ & _ & Hp & _). lia.
  Qed.
End Frames.

Section RealInverseFrame.
Context {T : Type} `{Scalar T}.

Lemma new_FFTReal_fields (fftSize : nat) (r : FFTReal.FFTReal) :
    FFTReal.new (T := T) fftSize = Some r ->
    FFTReal.size r = Nat.shiftr fftSize 1 /\
    FFTReal.fft r = new_FFTComplex (FFTReal.size r) /\
    Nat.Even (FFTReal.size r).
  Proof.
    unfold FFTReal.new, FFTReal.size_check.
    set (s := Nat.shiftr fftSize 1).
    destruct (Nat.land s 1 =? 0) eqn:Hc; [|discriminate].
    intros [= <-]. cbn [FFTReal.size FFTReal.fft].
    split; [reflexivity|]. split; [reflexivity|].
    apply Nat.eqb_eq in Hc.
    change (Nat.land s 1) with (Nat.land s (Nat.ones 1)) in Hc.
    rewrite Nat.land_ones in Hc. change (2 ^ 1) with 2 in Hc.
    exists (s / 2). pose proof (Nat.div_mod_eq s 2). lia.
  Qed.

Lemma inverse_prepare_scratch (r : FFTReal.FFTReal) (m : mem T)
        (freqData sp x : nat) :
    1 <= FFTReal.size r ->
    x < sp \/ sp + FFTReal.size r <= x ->
    snd (FFTReal.inverse_prepare r m freqData false sp) = sp /\
    fst (FFTReal.inverse_prepare r m freqData false sp) x = m x.
  Proof.
    intros Hs Hx. unfold FFTReal.inverse_prepare. cbv zeta.
    cbn [negb fst snd]. split; [reflexivity|].
    match goal with
    | |- for_loop _ _ ?m0 x = _ => transitivity (m0 x)
    end.
    { apply for_loop_frame. intros j m' Hj.
      assert (j + 1 <= FFTReal.size r / 2) by lia.
      pose proof (Nat.Div0.mul_div_le (FFTReal.size r) 2).
      rewrite !store_other by lia. reflexivity. }
    match goal with
    | |- (if is_integral then _ else ?m0) x = _ => transitivity (m0 x)
    end.
    { destruct is_integral; [|reflexivity].
      apply for_loop_frame. intros k m' Hk. apply cdiv_at_frame. lia. }
    rewrite memcpy_frame by lia. apply store_other. lia.
  Qed.
End RealInverseFrame.

(** C9: [FFTReal::inverse] called with [inPlace = false] leaves every
    one of the [size + 1] input bins as it found it, for any sample
    type, provided the output block and the block [alloca] returns do
    not overlap the input bins. *)
Theorem real_inverse_keeps_input {T : Type} `{Scalar T}
        (fftSize : nat) (r : FFTReal.FFTReal) (m : mem T)
        (freqData timeData sp : nat) :
  FFTReal.new fftSize = Some r ->
  1 <= FFTReal.size r ->
  freqData + FFTReal.size r + 1 <= sp \/ sp + FFTReal.size r <= freqData ->
  freqData + FFTReal.size r + 1 <= timeData \/
  timeData + FFTReal.size r <= freqData ->
  forall k, k <= FFTReal.size r ->
    FFTReal.inverse r m freqData timeData false sp (freqData + k)
    = m (freqData + k).
Proof.
  intros Hnew Hs Hsp Htime k Hk.
  destruct (new_FFTReal_fields fftSize r Hnew) as (_ & Hfft & _).
  unfold FFTReal.inverse.
  destruct (inverse_prepare_scratch r m freqData sp (freqData + k) Hs)
    as [Hptr Hmem]; [lia|].
  destruct (FFTReal.inverse_prepare r m freqData false sp) as [m1 tmp].
  cbn [fst snd] in Hptr, Hmem. subst tmp.
  rewrite Hfft, inverse_frame by lia. exact Hmem.
Qed.

Lemma real_inverse_keeps_input_witness :
  option_map
    (fun r => FFTReal.inverse r (fun a => mkC (INR a) 0%R) 0 10 false 20
                              (0 + 4))
    (FFTReal.new 8)
  = Some (mkC (INR (0 + 4)) 0%R).
Proof.
  destruct (FFTReal.new (T := R) 8) as [r|] eqn:Hnew; [|discriminate].
  pose proof (new_FFTReal_fields 8 r Hnew) as (Hsize & _).
  change (Nat.shiftr 8 1) with 4 in Hsize.
  cbn [option_map]. f_equal.
  apply (real_inverse_keeps_input 8 r (fun a => mkC (INR a) 0%R) 0 10 20 Hnew);
    rewrite Hsize; lia.
Defined.

(* ================================================================== *)
(** * Complex arithmetic on exact samples *)
(* ================================================================== *)

Lemma complex_eq (a b : C) : real a = real b -> imag a = imag b -> a = b.
Proof. destruct a, b. cbn. now intros -> ->. Qed.

Ltac csimpl :=
  cbn [real imag cadd csub cmul conj copp cone czero cscale
       add sub neg smul cast RealScalar].

Ltac cring := apply complex_eq; csimpl; ring.

Lemma complexR_ring :
  ring_theory (@czero R _) cone (@cadd R _) (@cmul R _) (@csub R _) copp eq.
Proof.
  constructor; intros; cring.
Qed.

Add Ring complexR : complexR_ring.

Lemma cmul_integral (a b : C) :
  cmul a b = czero -> a = czero \/ b = czero.
Proof.
  destruct a as [ar ai], b as [br bi]. unfold cmul, czero. csimpl.
  intros [= H1 H2].
  destruct (Req_dec (ar * ar + ai * ai) 0) as [Hz|Hnz].
  - left. destruct (Rplus_sqr_eq_0 ar ai Hz) as [-> ->]. reflexivity.
  - right.
    assert (Hr : ((ar * ar + ai * ai) * br = 0)%R).
    { replace ((ar * ar + ai * ai) * br)%R
        with (ar * (ar * br - ai * bi) + ai * (ar * bi + ai * br))%R by ring.
      rewrite H1, H2. ring. }
    assert (Hi : ((ar * ar + ai * ai) * bi = 0)%R).
    { replace ((ar * ar + ai * ai) * bi)%R
        with (ar * (ar * bi + ai * br) - ai * (ar * br - ai * bi))%R by ring.
      rewrite H1, H2. ring. }
    apply Rmult_integral in Hr, Hi.
    destruct Hr as [Hr|Hr]; [contradiction|].
    destruct Hi as [Hi|Hi]; [contradiction|]. now subst.
Qed.

(** ** Finite sums *)

Lemma csum_ext (n : nat) (f g : nat -> C) :
  (forall i, i < n -> f i = g i) -> csum n f = csum n g.
Proof.
  induction n as [|n IH]; intros Hfg; [reflexivity|].
  cbn [csum]. rewrite IH, Hfg by (intros; auto with arith). reflexivity.
Qed.

Lemma csum_zero (n : nat) : csum n (fun _ => czero) = czero.
Proof. induction n as [|n IH]; [reflexivity|]. cbn [csum]. rewrite IH. ring. Qed.

Lemma csum_add (n : nat) (f g : nat -> C) :
  csum n (fun i => cadd (f i) (g i)) = cadd (csum n f) (csum n g).
Proof.
  induction n as [|n IH]; cbn [csum]; [ring|]. rewrite IH. ring.
Qed.

Lemma csum_cmul_l (n : nat) (c : C) (f : nat -> C) :
  csum n (fun i => cmul c (f i)) = cmul c (csum n f).
Proof.
  induction n as [|n IH]; cbn [csum]; [ring|]. rewrite IH. ring.
Qed.

Lemma csum_app (a b : nat) (f : nat -> C) :
  csum (a + b) f = cadd (csum a f) (csum b (fun i => f (a + i))).
Proof.
  induction b as [|b IH].
  - rewrite Nat.add_0_r. cbn [csum]. ring.
  - rewrite Nat.add_succ_r. cbn [csum]. rewrite IH. ring.
Qed.

Lemma csum_shift (n : nat) (f : nat -> C) :
  csum (S n) f = cadd (f 0) (csum n (fun i => f (S i))).
Proof.
  change (S n) with (1 + n). rewrite csum_app. cbn [csum Nat.add]. ring.
Qed.

Lemma csum_swap (n m : nat) (f : nat -> nat -> C) :
  csum n (fun i => csum m (fun j => f i j))
  = csum m (fun j => csum n (fun i => f i j)).
Proof.
  induction n as [|n IH]; cbn [csum].
  - now rewrite csum_zero.
  - rewrite IH, <- csum_add. reflexivity.
Qed.

(** A sum over [r * l] indices, read as [l] rows of [r]. *)
Lemma csum_blocks (r l : nat) (f : nat -> C) :
  csum (r * l) f = csum l (fun n' => csum r (fun q => f (q + r * n'))).
Proof.
  induction l as [|l IH].
  - now rewrite Nat.mul_0_r.
  - rewrite Nat.mul_succ_r, csum_app, IH. cbn [csum]. f_equal.
    apply csum_ext. intros q _. f_equal. lia.
Qed.

Lemma csum_const (n : nat) (c : C) :
  csum n (fun _ => c) = cscale (INR n) c.
Proof.
  induction n as [|n IH]; [cbn; cring|].
  cbn [csum]. rewrite IH, S_INR. cring.
Qed.

(** ** Roots of unity *)

Ltac csimpl ::=
  cbn [real imag cadd csub cmul conj copp cone czero cscale cexp
       add sub neg smul cast scos ssin RealScalar].

Ltac ctrig :=
  apply complex_eq; csimpl;
  rewrite ?cos_neg, ?sin_neg, ?cos_plus, ?sin_plus, ?cos_0, ?sin_0,
    ?cos_2PI, ?sin_2PI, ?cos_PI, ?sin_PI, ?cos_PI2, ?sin_PI2;
  ring.

Lemma unit_root_0 (inv : bool) (N : nat) : unit_root inv N 0 = cone.
Proof.
  unfold unit_root.
  replace ((if inv then 2 else -2) * PI * INR 0 / INR N)%R with 0%R
    by (cbn [INR]; unfold Rdiv; ring).
  ctrig.
Qed.

Lemma unit_root_add (inv : bool) (N i j : nat) :
  unit_root inv N (i + j) = cmul (unit_root inv N i) (unit_root inv N j).
Proof.
  unfold unit_root. rewrite plus_INR.
  replace ((if inv then 2 else -2) * PI * (INR i + INR j) / INR N)%R
    with ((if inv then 2 else -2) * PI * INR i / INR N
          + (if inv then 2 else -2) * PI * INR j / INR N)%R
    by (unfold Rdiv; ring).
  ctrig.
Qed.

Lemma INR_pos_nonzero (N : nat) : 1 <= N -> INR N <> 0%R.
Proof. intros HN. apply not_0_INR. lia. Qed.

Lemma unit_root_N (inv : bool) (N : nat) :
  1 <= N -> unit_root inv N N = cone.
Proof.
  intros HN. pose proof (INR_pos_nonzero N HN). unfold unit_root.
  destruct inv.
  - replace (2 * PI * INR N / INR N)%R with (2 * PI)%R by (field; assumption).
    ctrig.
  - replace (-2 * PI * INR N / INR N)%R with (- (2 * PI))%R
      by (field; assumption).
    ctrig.
Qed.

Lemma unit_root_mul_N (inv : bool) (N k : nat) :
  1 <= N -> unit_root inv N (k * N) = cone.
Proof.
  intros HN. induction k as [|k IH].
  - apply unit_root_0.
  - cbn [Nat.mul]. rewrite unit_root_add, IH, unit_root_N by assumption. ring.
Qed.

Lemma unit_root_periodic (inv : bool) (N a b : nat) :
  1 <= N -> unit_root inv N (a * N + b) = unit_root inv N b.
Proof.
  intros HN. rewrite unit_root_add, unit_root_mul_N by assumption. ring.
Qed.

Lemma unit_root_mod (inv : bool) (N j : nat) :
  1 <= N -> unit_root inv N (j mod N) = unit_root inv N j.
Proof.
  intros HN. rewrite (Nat.div_mod_eq j N) at 2.
  rewrite (Nat.mul_comm N). symmetry. now apply unit_root_periodic.
Qed.

Lemma unit_root_half (inv : bool) (N h : nat) :
  1 <= N -> 2 * h = N -> unit_root inv N h = mkC (-1)%R 0%R.
Proof.
  intros HN Hh. assert (Hh0 : INR h <> 0%R) by (apply not_0_INR; lia).
  unfold unit_root. rewrite <- Hh, mult_INR. change (INR 2) with 2%R.
  destruct inv.
  - replace (2 * PI * INR h / (2 * INR h))%R with PI by (field; assumption).
    ctrig.
  - replace (-2 * PI * INR h / (2 * INR h))%R with (- PI)%R
      by (field; assumption).
    ctrig.
Qed.

Lemma unit_root_quarter (inv : bool) (N h : nat) :
  1 <= N -> 4 * h = N ->
  unit_root inv N h = mkC 0%R (if inv then 1 else -1)%R.
Proof.
  intros HN Hh. assert (Hh0 : INR h <> 0%R) by (apply not_0_INR; lia).
  unfold unit_root. rewrite <- Hh, mult_INR.
  replace (INR 4) with 4%R by (simpl; ring).
  destruct inv.
  - replace (2 * PI * INR h / (4 * INR h))%R with (PI / 2)%R
      by (field; assumption).
    ctrig.
  - replace (-2 * PI * INR h / (4 * INR h))%R with (- (PI / 2))%R
      by (field; assumption).
    ctrig.
Qed.

Lemma unit_root_conj (N a : nat) :
  cmul (unit_root true N a) (unit_root false N a) = cone.
Proof.
  unfold unit_root.
  replace (-2 * PI * INR a / INR N)%R with (- (2 * PI * INR a / INR N))%R
    by (unfold Rdiv; ring).
  pose proof (sin2_cos2 (2 * PI * INR a / INR N)) as Hsc.
  unfold Rsqr in Hsc. apply complex_eq; csimpl; rewrite cos_neg, sin_neg;
    [|ring].
  rewrite <- Hsc. ring.
Qed.

Lemma tw_at_fwd_root (N i : nat) :
  i < N ->
  tw_at (twiddlesFwd (new_FFTComplex (T := R) N)) i = unit_root false N i.
Proof.
  intros Hi. rewrite tw_at_fwd by assumption. unfold unit_root, phase_factor.
  f_equal. unfold Rdiv. ring.
Qed.

Lemma tw_at_inv_root (N i : nat) :
  i < N ->
  tw_at (twiddlesInv (new_FFTComplex (T := R) N)) i = unit_root true N i.
Proof.
  intros Hi. rewrite tw_at_inv by assumption. unfold unit_root, phase_factor.
  f_equal. unfold Rdiv. ring.
Qed.

Lemma tw_at_root (inv : bool) (N i : nat) :
  i < N ->
  tw_at (if inv then twiddlesInv (new_FFTComplex (T := R) N)
         else twiddlesFwd (new_FFTComplex (T := R) N)) i
  = unit_root inv N i.
Proof.
  destruct inv; [apply tw_at_inv_root|apply tw_at_fwd_root].
Qed.

(* ================================================================== *)
(** * The butterflies on exact samples *)
(* ================================================================== *)

Lemma store_at {T} (m : mem T) (a x : nat) (v : complex T) :
  x = a -> store m a v x = v.
Proof. intros ->. apply store_same. Qed.

Ltac mem_eval :=
  repeat first [rewrite store_at by lia | rewrite store_other by lia].

Lemma cell_inj (L u u' q q' : nat) :
  u < L -> u' < L -> u + q * L = u' + q' * L -> u = u' /\ q = q'.
Proof.
  intros Hu Hu' He.
  destruct (Nat.lt_trichotomy q q') as [Hlt|[->|Hgt]].
  - assert ((q + 1) * L <= q' * L) by (apply Nat.mul_le_mono_r; lia). lia.
  - lia.
  - assert ((q' + 1) * L <= q * L) by (apply Nat.mul_le_mono_r; lia). lia.
Qed.

(** A loop whose iteration [i] rewrites column [i] of a
    [radix x length] block from that column alone. *)
Lemma for_loop_columns {T} (radix length output : nat)
      (body : nat -> mem T -> mem T)
      (G : nat -> nat -> (nat -> complex T) -> complex T) :
  (forall i m q1, i < length -> q1 < radix ->
     body i m (output + (i + q1 * length))
     = G i q1 (fun q => m (output + (i + q * length)))) ->
  (forall i m x, i < length ->
     (forall q, q < radix -> x <> output + (i + q * length)) ->
     body i m x = m x) ->
  (forall i q1 f g, (forall q, q < radix -> f q = g q) ->
     G i q1 f = G i q1 g) ->
  forall m0 n, n <= length ->
    forall u q1, u < length -> q1 < radix ->
      for_loop n body m0 (output + (u + q1 * length))
      = if u <? n then G u q1 (fun q => m0 (output + (u + q * length)))
        else m0 (output + (u + q1 * length)).
Proof.
  intros Hval Hframe Gext m0. induction n as [|n IH]; intros Hn u q1 Hu Hq1.
  - reflexivity.
  - cbn [for_loop]. destruct (Nat.eq_dec u n) as [->|Hne].
    + rewrite Hval by lia.
      replace (n <? S n) with true by (symmetry; apply Nat.ltb_lt; lia).
      apply Gext. intros q Hq. rewrite IH by lia.
      now replace (n <? n) with false by (symmetry; apply Nat.ltb_ge; lia).
    + rewrite Hframe.
      * rewrite IH by lia.
        destruct (u <? n) eqn:E1, (u <? S n) eqn:E2; try reflexivity.
        -- apply Nat.ltb_lt in E1. apply Nat.ltb_ge in E2. lia.
        -- apply Nat.ltb_ge in E1. apply Nat.ltb_lt in E2. lia.
      * lia.
      * intros q Hq He.
        assert (u + q1 * length = n + q * length) by lia.
        destruct (cell_inj length u n q1 q) as [? _]; try lia.
Qed.

Lemma combine_ext (inv : bool) (N stride radix length u q1 : nat)
      (f g : nat -> C) :
  (forall q, q < radix -> f q = g q) ->
  combine inv N stride radix length u q1 f
  = combine inv N stride radix length u q1 g.
Proof.
  intros Hfg. unfold combine. apply csum_ext. intros q Hq. now rewrite Hfg.
Qed.

Lemma unit_root_eq (inv : bool) (N a b : nat) :
  a = b -> unit_root inv N a = unit_root inv N b.
Proof. now intros ->. Qed.

Lemma quarter_power_root (inv : bool) (N h k : nat) :
  1 <= N -> 4 * h = N -> unit_root inv N (k * h) = quarter_power inv k.
Proof.
  intros HN Hh.
  assert (H1 : unit_root inv N (1 * h) = mkC 0%R (if inv then 1 else -1)%R).
  { rewrite Nat.mul_1_l. now apply unit_root_quarter. }
  assert (H2 : unit_root inv N (2 * h) = mkC (-1)%R 0%R).
  { apply unit_root_half; lia. }
  assert (H3 : unit_root inv N (3 * h) = mkC 0%R (if inv then -1 else 1)%R).
  { replace (3 * h) with (1 * h + 2 * h) by lia.
    rewrite unit_root_add, H1, H2. destruct inv; apply complex_eq; csimpl; ring. }
  rewrite (unit_root_eq inv N (k * h) ((k / 4) * N + (k mod 4) * h)).
  2:{ pose proof (Nat.div_mod_eq k 4). nia. }
  rewrite unit_root_periodic by assumption.
  unfold quarter_power.
  pose proof (Nat.mod_upper_bound k 4 ltac:(lia)) as Hb.
  destruct (k mod 4) as [|[|[|[|r]]]]; try lia; try assumption.
  apply unit_root_0.
Qed.

Ltac calg m :=
  repeat match goal with
         | |- context [unit_root ?i ?n ?k] =>
             generalize (unit_root i n k); intros [? ?]
         end;
  repeat match goal with
         | |- context [m ?a] => generalize (m a); intros [? ?]
         end;
  apply complex_eq; csimpl; ring.

Section ButterflyValues.
Variables (inv : bool) (N : nat) (tw : list C).
Hypothesis HN : 1 <= N.
Hypothesis Htw : forall i, i < N -> tw_at tw i = unit_root inv N i.

Lemma butterfly2_value (m : mem R) (output stride length u q1 : nat) :
    stride * (2 * length) = N -> u < length -> q1 < 2 ->
    butterfly2 m output stride length tw (output + (u + q1 * length))
    = combine inv N stride 2 length u q1
              (fun q => m (output + (u + q * length))).
  Proof.
    intros Hs Hu Hq1. unfold butterfly2.
    match goal with |- for_loop _ ?b _ _ = _ => set (body := b) end.
    assert (Hval : forall i m q1, i < length -> q1 < 2 ->
              body i m (output + (i + q1 * length))
              = combine inv N stride 2 length i q1
                        (fun q => m (output + (i + q * length)))).
    { intros i m' q Hi Hq. subst body. cbv beta zeta.
      cbn [is_integral RealScalar]. unfold combine. cbn [csum].
      assert (Hh : unit_root inv N (stride * length) = mkC (-1)%R 0%R)
        by (apply unit_root_half; lia).
      destruct q as [|[|q]]; [| |lia].
      - replace (output + (i + 0 * length)) with (output + i) by lia.
        replace (output + (i + 1 * length)) with (output + length + i) by lia.
        mem_eval. rewrite Htw by nia.
        rewrite (unit_root_eq inv N (stride * (i + 0 * length) * 0) 0) by lia.
        rewrite (unit_root_eq inv N (stride * (i + 0 * length) * 1)
                              (i * stride)) by lia.
        rewrite unit_root_0. calg m'.
      - replace (output + (i + 0 * length)) with (output + i) by lia.
        replace (output + (i + 1 * length)) with (output + length + i) by lia.
        mem_eval. rewrite Htw by nia.
        rewrite (unit_root_eq inv N (stride * (i + 1 * length) * 0) 0) by lia.
        rewrite (unit_root_eq inv N (stride * (i + 1 * length) * 1)
                              (i * stride + stride * length)) by lia.
        rewrite unit_root_add, Hh, unit_root_0. calg m'. }
    assert (Hframe : forall i m x, i < length ->
              (forall q, q < 2 -> x <> output + (i + q * length)) ->
              body i m x = m x).
    { intros i m' x Hi Hx. subst body. cbv beta zeta.
      cbn [is_integral RealScalar].
      pose proof (Hx 0 ltac:(lia)). pose proof (Hx 1 ltac:(lia)).
      now rewrite !store_other by lia. }
    rewrite (for_loop_columns 2 length output body
               (combine inv N stride 2 length) Hval Hframe
               (combine_ext inv N stride 2 length) m length (le_n _)
               u q1 Hu Hq1).
    now replace (u <? length) with true by (symmetry; apply Nat.ltb_lt; lia).
  Qed.

Lemma unit_root_split4 (stride length i q1 q : nat) :
    stride * (4 * length) = N -> q < 4 ->
    unit_root inv N (stride * (i + q1 * length) * q)
    = cmul (match q with
            | 0 => cone
            | 1 => unit_root inv N (i * stride)
            | 2 => unit_root inv N (i * (stride * 2))
            | _ => unit_root inv N (i * (stride * 3))
            end) (quarter_power inv (q1 * q)).
  Proof.
    intros Hs Hq.
    rewrite (unit_root_eq inv N (stride * (i + q1 * length) * q)
               (i * (stride * q) + (q1 * q) * (stride * length))) by lia.
    rewrite unit_root_add, (quarter_power_root inv N (stride * length))
      by (assumption || lia).
    f_equal. destruct q as [|[|[|[|q]]]]; try lia.
    - rewrite <- (unit_root_0 inv N). apply unit_root_eq. lia.
    - apply unit_root_eq. lia.
    - reflexivity.
    - reflexivity.
  Qed.

Lemma butterfly4_value (m : mem R) (output stride length u q1 : nat) :
    stride * (4 * length) = N -> u < length -> q1 < 4 ->
    butterfly4 m output stride length tw inv (output + (u + q1 * length))
    = combine inv N stride 4 length u q1
              (fun q => m (output + (u + q * length))).
  Proof.
    intros Hs Hu Hq1. unfold butterfly4. cbv zeta.
    cbn [is_integral RealScalar].
    match goal with |- for_loop _ ?b _ _ = _ => set (body := b) end.
    assert (Hval : forall i m q1, i < length -> q1 < 4 ->
              body i m (output + (i + q1 * length))
              = combine inv N stride 4 length i q1
                        (fun q => m (output + (i + q * length)))).
    { intros i m' q Hi Hq. subst body. cbv beta.
      unfold combine. cbn [csum].
      rewrite !(unit_root_split4 stride length i q) by lia.
      replace (output + (i + 0 * length)) with (output + i) by lia.
      replace (output + (i + 1 * length)) with (output + i + length) by lia.
      replace (output + (i + 2 * length)) with (output + i + 2 * length) by lia.
      replace (output + (i + 3 * length)) with (output + i + 3 * length) by lia.
      assert (i * (stride * 3) < N) by nia.
      assert (i * (stride * 2) < N) by nia.
      assert (i * stride < N) by nia.
      destruct q as [|[|[|[|q]]]]; try lia;
        [ replace (output + (i + 0 * length)) with (output + i) by lia
        | replace (output + (i + 1 * length)) with (output + i + length) by lia
        | replace (output + (i + 2 * length))
            with (output + i + 2 * length) by lia
        | replace (output + (i + 3 * length))
            with (output + i + 3 * length) by lia ];
        unfold quarter_power;
        cbn [Nat.mul Nat.add Nat.modulo Nat.divmod snd fst Nat.sub];
        destruct inv; mem_eval; rewrite !Htw by assumption; calg m'. }
    assert (Hframe : forall i m x, i < length ->
              (forall q, q < 4 -> x <> output + (i + q * length)) ->
              body i m x = m x).
    { intros i m' x Hi Hx. subst body. cbv beta.
      pose proof (Hx 0 ltac:(lia)). pose proof (Hx 1 ltac:(lia)).
      pose proof (Hx 2 ltac:(lia)). pose proof (Hx 3 ltac:(lia)).
      destruct inv; now rewrite !store_other by lia. }
    pose proof (for_loop_columns 4 length output body
               (combine inv N stride 4 length) Hval Hframe
               (combine_ext inv N stride 4 length) m length (le_n _)
               u q1 Hu Hq1) as Hc.
    replace (u <? length) with true in Hc
      by (symmetry; apply Nat.ltb_lt; lia).
    exact Hc.
  Qed.

Lemma generic_inner_value (stride radix k output : nat)
        (scratch : list C) (m : mem R) :
    generic_inner N stride radix k output scratch tw m (output + k)
    = cadd (m (output + k))
           (csum (radix - 1) (fun j =>
              cmul (nth (j + 1) scratch czero)
                   (tw_at tw (tw_index N stride k (j + 1))))).
  Proof.
    unfold generic_inner. induction (radix - 1) as [|j IH].
    - cbn [for_loop fst csum]. ring.
    - cbn [for_loop csum]. unfold generic_inner_step at 1. cbn [fst].
      rewrite store_same, IH, generic_inner_state.
      replace (j + 1) with (S j) by lia. cbn [tw_index]. ring.
  Qed.

Lemma butterflyGeneric_value (m : mem R)
        (output stride radix length u q1 : nat) :
    stride * (radix * length) = N -> u < length -> q1 < radix ->
    butterflyGeneric N m output stride radix length tw
                     (output + (u + q1 * length))
    = combine inv N stride radix length u q1
              (fun q => m (output + (u + q * length))).
  Proof.
    intros Hs Hu Hq1. unfold butterflyGeneric. cbv zeta.
    cbn [is_integral RealScalar].
    match goal with |- for_loop _ ?b _ _ = _ => set (body := b) end.
    assert (Hframe : forall i m x, i < length ->
              (forall q, q < radix -> x <> output + (i + q * length)) ->
              body i m x = m x).
    { intros i m' x Hi Hx. subst body. cbv beta.
      apply for_loop_frame. intros q m'' Hq.
      rewrite generic_inner_frame by (apply Hx; lia).
      apply store_other. apply Hx. lia. }
    assert (Hval : forall i m q1, i < length -> q1 < radix ->
              body i m (output + (i + q1 * length))
              = combine inv N stride radix length i q1
                        (fun q => m (output + (i + q * length)))).
    { intros i m' q Hi Hq. subst body. cbv beta.
      set (scratch := map (fun q1 => m' (output + (i + q1 * length)))
                          (seq 0 radix)).
      set (value := fun q1 =>
             cadd (nth 0 scratch czero)
                  (csum (radix - 1) (fun j =>
                     cmul (nth (j + 1) scratch czero)
                          (tw_at tw (tw_index N stride (i + q1 * length)
                                              (j + 1)))))).
      assert (Hrows : forall n, n <= radix ->
                forall q1, q1 < radix ->
                  for_loop n (fun q1 m0 =>
                    generic_inner N stride radix (i + q1 * length) output
                      scratch tw
                      (store m0 (output + (i + q1 * length))
                             (nth 0 scratch czero))) m'
                    (output + (i + q1 * length))
                  = if q1 <? n then value q1
                    else m' (output + (i + q1 * length))).
      { induction n as [|n IH]; intros Hn q1' Hq1'; [reflexivity|].
        cbn [for_loop]. destruct (Nat.eq_dec q1' n) as [->|Hne].
        - rewrite generic_inner_value, store_same.
          now replace (n <? S n) with true
            by (symmetry; apply Nat.ltb_lt; lia).
        - assert (Hcell : output + (i + q1' * length)
                          <> output + (i + n * length)).
          { intros He. destruct (cell_inj length i i q1' n); lia. }
          rewrite generic_inner_frame, store_other, IH by (assumption || lia).
          destruct (q1' <? n) eqn:E1, (q1' <? S n) eqn:E2; try reflexivity.
          + apply Nat.ltb_lt in E1. apply Nat.ltb_ge in E2. lia.
          + apply Nat.ltb_ge in E1. apply Nat.ltb_lt in E2. lia. }
      rewrite (Hrows radix (le_n _) q Hq).
      replace (q <? radix) with true by (symmetry; apply Nat.ltb_lt; lia).
      unfold value, combine.
      assert (Hk : stride * (i + q * length) < N).
      { assert (i + q * length < radix * length) by nia.
        assert (1 <= stride) by (destruct stride; lia).
        rewrite <- Hs. apply Nat.mul_lt_mono_pos_l; lia. }
      destruct radix as [|r]; [lia|].
      rewrite csum_shift. replace (S r - 1) with r by lia.
      assert (Hnth : forall j, j < S r ->
                nth j scratch czero = m' (output + (i + j * length))).
      { intros j Hj. unfold scratch.
        now apply (nth_map_seq
                     (fun q1 => m' (output + (i + q1 * length)))). }
      rewrite Hnth by lia.
      rewrite (unit_root_eq inv N (stride * (i + q * length) * 0) 0) by lia.
      rewrite unit_root_0. f_equal; [ring|].
      apply csum_ext. intros j Hj.
      rewrite Hnth by lia. replace (j + 1) with (S j) by lia. f_equal.
      rewrite tw_index_mod by assumption.
      rewrite Htw by (apply Nat.mod_upper_bound; lia).
      now apply unit_root_mod. }
    pose proof (for_loop_columns radix length output body
               (combine inv N stride radix length) Hval Hframe
               (combine_ext inv N stride radix length) m length (le_n _)
               u q1 Hu Hq1) as Hc.
    replace (u <? length) with true in Hc
      by (symmetry; apply Nat.ltb_lt; lia).
    exact Hc.
  Qed.
End ButterflyValues.

(* ================================================================== *)
(** * The mixed-radix recursion computes the transform *)
(* ================================================================== *)

Lemma copy_loop_spec {T} (m : mem T) (input output st n : nat) :
  (forall i k, i < n -> k < n -> input + i * st <> output + k) ->
  forall i, i < n ->
    for_loop n (fun i m' => store m' (output + i) (m' (input + i * st))) m
             (output + i)
    = m (input + i * st).
Proof.
  induction n as [|n IH]; intros Hd i Hi; [lia|].
  cbn [for_loop]. destruct (Nat.eq_dec i n) as [->|Hne].
  - rewrite store_same. apply for_loop_frame.
    intros k m' Hk. apply store_other. apply Hd; lia.
  - rewrite store_other by lia. apply IH; [|lia].
    intros i' k Hi' Hk. apply Hd; lia.
Qed.

Section Recursion.
Variables (inv : bool) (N : nat).
Hypothesis HN : 1 <= N.

  (** Decimation in time: the [r] sub-transforms of length [l],
      combined by a butterfly, give the transform of length [r * l]. *)
Lemma dft_split (x : nat -> C) (s r l u q1 : nat) :
    s * (r * l) = N ->
    csum r (fun q =>
      cmul (csum l (fun n' =>
              cmul (x (q + r * n')) (unit_root inv N (s * r * (u * n')))))
           (unit_root inv N (s * (u + q1 * l) * q)))
    = csum (r * l) (fun n =>
        cmul (x n) (unit_root inv N (s * ((u + q1 * l) * n)))).
  Proof.
    intros Hs. rewrite csum_blocks, csum_swap.
    apply csum_ext. intros q Hq.
    transitivity
      (cmul (unit_root inv N (s * (u + q1 * l) * q))
            (csum l (fun n' =>
               cmul (x (q + r * n'))
                    (unit_root inv N (s * r * (u * n')))))); [ring|].
    rewrite <- csum_cmul_l.
    apply csum_ext. intros n' Hn'.
    rewrite (unit_root_eq inv N (s * ((u + q1 * l) * (q + r * n')))
               ((n' * q1) * N
                + (s * (u + q1 * l) * q + s * r * (u * n')))) by nia.
    rewrite unit_root_periodic, unit_root_add by assumption. ring.
  Qed.

Let fft : FFTComplex R := new_FFTComplex N.

Lemma butterfly_dispatch_value (m : mem R)
        (output stride radix length u q1 : nat) :
    stride * (radix * length) = N -> u < length -> q1 < radix ->
    match radix with
    | 2 => butterfly2 m output stride length
                      (if inv then twiddlesInv fft else twiddlesFwd fft)
    | 4 => butterfly4 m output stride length
                      (if inv then twiddlesInv fft else twiddlesFwd fft) inv
    | _ => butterflyGeneric (size fft) m output stride radix length
                            (if inv then twiddlesInv fft else twiddlesFwd fft)
    end (output + (u + q1 * length))
    = combine inv N stride radix length u q1
              (fun q => m (output + (u + q * length))).
  Proof.
    intros Hs Hu Hq1.
    assert (Htw : forall i, i < N ->
              tw_at (if inv then twiddlesInv fft else twiddlesFwd fft) i
              = unit_root inv N i) by (intros; now apply tw_at_root).
    change (size fft) with N.
    destruct radix as [|[|[|[|[|r]]]]].
    - lia.
    - now apply (butterflyGeneric_value inv N).
    - now apply (butterfly2_value inv N).
    - now apply (butterflyGeneric_value inv N).
    - now apply (butterfly4_value inv N).
    - now apply (butterflyGeneric_value inv N).
  Qed.

Lemma perform_dft (inStride : nat) :
    forall fs stride m input output,
      stages N stride fs ->
      let L := match fs with
               | f :: _ => radix f * length f
               | [] => 0
               end in
      (forall n k, n < L -> k < L ->
         input + n * (stride * inStride) <> output + k) ->
      forall k, k < L ->
        perform fft m input output stride inStride fs inv (output + k)
        = csum L (fun n =>
            cmul (m (input + n * (stride * inStride)))
                 (unit_root inv N (stride * (k * n)))).
  Proof.
    induction fs as [|f fs IH]; intros stride m input output Hst L Hd k Hk;
      [subst L; lia|].
    destruct Hst as (Hr & Hl & Hprod & Hrest).
    subst L. set (r := radix f) in *. set (l := length f) in *.
    set (st := stride * inStride) in *.
    cbn [perform]. cbv zeta. fold r l.
    set (m1 := if l =? 1 then _ else _).
    set (Y := fun q j =>
           csum l (fun n' =>
             cmul (m (input + (q + r * n') * st))
                  (unit_root inv N (stride * r * (j * n'))))).
    assert (Hm1 : forall q j, q < r -> j < l ->
              m1 (output + (j + q * l)) = Y q j).
    { intros q j Hq Hj. subst m1. destruct (l =? 1) eqn:Hlen.
      - apply Nat.eqb_eq in Hlen. assert (j = 0) by lia. subst j.
        replace (output + (0 + q * l)) with (output + q) by nia.
        rewrite copy_loop_spec; [| |nia].
        + unfold Y. rewrite Hlen. cbn [csum].
          rewrite (unit_root_eq inv N (stride * r * (0 * 0)) 0) by lia.
          rewrite unit_root_0.
          replace (input + (q + r * 0) * st) with (input + q * st) by nia.
          unfold st. ring.
        + intros i k' Hi Hk'. apply Hd; lia.
      - apply Nat.eqb_neq in Hlen. specialize (Hrest Hlen).
        destruct fs as [|f' fs']; [contradiction|].
        assert (Hl' : radix f' * length f' = l).
        { destruct Hrest as (_ & _ & Hp' & _). nia. }
        assert (Hloop : forall n, n <= r ->
                  (forall x, x < output \/ output + n * l <= x ->
                     for_loop n (fun q m0 =>
                       perform fft m0 (input + q * st) (output + q * l)
                               (stride * r) inStride (f' :: fs') inv) m x
                     = m x) /\
                  (forall q j, q < n -> j < l ->
                     for_loop n (fun q m0 =>
                       perform fft m0 (input + q * st) (output + q * l)
                               (stride * r) inStride (f' :: fs') inv) m
                       (output + (j + q * l)) = Y q j)).
        { induction n as [|n IHn]; intros Hn.
          - split; [reflexivity|]. intros; lia.
          - destruct (IHn ltac:(lia)) as [IHf IHv]. cbn [for_loop]. split.
            + intros x Hx.
              rewrite (perform_frame fft N inStride inv HN _ _ _ _ _ _ Hrest)
                by (rewrite Hl'; nia).
              apply IHf. nia.
            + intros q' j' Hq' Hj'.
              destruct (Nat.eq_dec q' n) as [->|Hne].
              * replace (output + (j' + n * l)) with (output + n * l + j')
                  by lia.
                rewrite (IH (stride * r) _ _ _ Hrest).
                -- rewrite Hl'. unfold Y. apply csum_ext. intros n' Hn'.
                   f_equal. rewrite IHf.
                   ++ f_equal. unfold st. nia.
                   ++ assert (n + r * n' < r * l) by nia.
                      assert (input + (n + r * n') * st <> output + 0
                              \/ True) by auto.
                      destruct (Nat.lt_ge_cases
                                  (input + n * st
                                   + n' * (stride * r * inStride)) output)
                        as [Hlt|Hge]; [now left|].
                      right.
                      destruct (Nat.lt_ge_cases
                                  (input + n * st
                                   + n' * (stride * r * inStride))
                                  (output + n * l)) as [Hlt2|]; [|assumption].
                      exfalso.
                      apply (Hd (n + r * n')
                                (input + n * st
                                 + n' * (stride * r * inStride) - output));
                        [assumption|nia|unfold st; nia].
                -- rewrite Hl'. intros n' k' Hn' Hk'.
                   replace (input + n * st + n' * (stride * r * inStride))
                     with (input + (n + r * n') * st) by (unfold st; nia).
                   replace (output + n * l + k') with (output + (k' + n * l))
                     by lia.
                   apply Hd; nia.
                -- rewrite Hl'. assumption.
              * rewrite (perform_frame fft N inStride inv HN _ _ _ _ _ _
                                       Hrest)
                  by (rewrite Hl'; nia).
                apply IHv; lia. }
        apply (proj2 (Hloop r (le_n _))); assumption. }
    set (u := k mod l). set (q1 := k / l).
    assert (Hu : u < l) by (apply Nat.mod_upper_bound; lia).
    assert (Hk' : k = u + q1 * l).
    { unfold u, q1. pose proof (Nat.div_mod_eq k l). lia. }
    assert (Hq1 : q1 < r).
    { unfold q1. apply Nat.Div0.div_lt_upper_bound. lia. }
    rewrite Hk' at 1.
    rewrite (butterfly_dispatch_value m1 output stride r l u q1)
      by assumption.
    unfold combine.
    rewrite (csum_ext r _
               (fun q => cmul (Y q u)
                              (unit_root inv N (stride * (u + q1 * l) * q)))).
    2:{ intros q Hq. now rewrite Hm1. }
    unfold Y.
    rewrite (dft_split (fun n => m (input + n * st)) stride r l u q1 Hprod).
    now rewrite <- Hk'.
  Qed.
End Recursion.

(* ================================================================== *)
(** * forward and inverse of the complex transform *)
(* ================================================================== *)

Lemma transform_dft (inv : bool) (N : nat) (m : mem R) (input output : nat) :
  1 <= N ->
  input + N <= output \/ output + N <= input ->
  forall k, k < N ->
    perform (new_FFTComplex N) m input output 1 1 (factorize N) inv
            (output + k)
    = dft inv N (fun n => m (input + n)) k.
Proof.
  intros HN Hd k Hk.
  pose proof (factorize_stages N HN) as Hst.
  pose proof (perform_dft inv N HN 1 (factorize N) 1 m input output Hst)
    as Hp.
  destruct (factorize N) as [|f fs]; [contradiction|].
  destruct Hst as (_ & _ & Hprod & _).
  assert (HL : radix f * length f = N) by lia.
  cbv zeta in Hp. rewrite HL in Hp.
  rewrite Hp by (intros; lia || assumption).
  unfold dft. apply csum_ext. intros n Hn.
  f_equal; [f_equal; lia|apply unit_root_eq; lia].
Qed.

Lemma forward_dft (N : nat) (m : mem R) (timeData freqData : nat) :
  1 <= N ->
  timeData + N <= freqData \/ freqData + N <= timeData ->
  forall k, k < N ->
    forward (new_FFTComplex N) m timeData freqData (freqData + k)
    = dft false N (fun n => m (timeData + n)) k.
Proof. intros. now apply transform_dft. Qed.

Lemma inverse_dft (N : nat) (m : mem R) (freqData timeData : nat) :
  1 <= N ->
  freqData + N <= timeData \/ timeData + N <= freqData ->
  forall k, k < N ->
    inverse (new_FFTComplex N) m freqData timeData (timeData + k)
    = dft true N (fun n => m (freqData + n)) k.
Proof. intros. now apply transform_dft. Qed.

(** ** Orthogonality of the roots of unity *)

Lemma unit_root_neq_1 (inv : bool) (N d : nat) :
  0 < d < N -> unit_root inv N d <> cone.
Proof.
  intros Hd Heq.
  assert (HN0 : INR N <> 0%R) by (apply not_0_INR; lia).
  unfold unit_root, cexp, cone in Heq. cbn [scos ssin RealScalar] in Heq.
  injection Heq as Hcos Hsin.
  destruct (sin_eq_0_0 _ Hsin) as [k Hk].
  assert (Hlin : ((if inv then 2 else -2) * INR d = IZR k * INR N)%R).
  { pose proof PI_neq0 as Hpi.
    apply (Rmult_eq_reg_l PI); [|assumption].
    apply (Rmult_eq_reg_r (/ INR N)); [|now apply Rinv_neq_0_compat].
    transitivity ((if inv then 2 else -2) * PI * INR d / INR N)%R;
      [unfold Rdiv; ring|].
    rewrite Hk. field. assumption. }
  rewrite !INR_IZR_INZ in Hlin.
  destruct inv.
  - rewrite <- mult_IZR, <- mult_IZR in Hlin. apply eq_IZR in Hlin.
    assert (k = 1%Z) by nia. subst k.
    rewrite Hk, Rmult_1_l, cos_PI in Hcos. lra.
  - rewrite <- mult_IZR, <- mult_IZR in Hlin. apply eq_IZR in Hlin.
    assert (k = (-1)%Z) by nia. subst k.
    rewrite Hk in Hcos.
    replace (-1 * PI)%R with (- PI)%R in Hcos by ring.
    rewrite cos_neg, cos_PI in Hcos. lra.
Qed.

Lemma geometric_telescope (inv : bool) (N d n : nat) :
  cmul (csub (unit_root inv N d) cone)
       (csum n (fun k => unit_root inv N (k * d)))
  = csub (unit_root inv N (n * d)) cone.
Proof.
  induction n as [|n IH].
  - cbn [csum Nat.mul]. rewrite unit_root_0. ring.
  - cbn [csum].
    replace (S n * d) with (d + n * d) by lia.
    rewrite unit_root_add.
    transitivity
      (cadd (cmul (csub (unit_root inv N d) cone)
                  (csum n (fun k => unit_root inv N (k * d))))
            (cmul (csub (unit_root inv N d) cone)
                  (unit_root inv N (n * d)))); [ring|].
    rewrite IH. ring.
Qed.

Lemma geometric_sum_zero (inv : bool) (N d : nat) :
  0 < d < N -> csum N (fun k => unit_root inv N (k * d)) = czero.
Proof.
  intros Hd.
  pose proof (geometric_telescope inv N d N) as Ht.
  rewrite (unit_root_eq inv N (N * d) (d * N)) in Ht by lia.
  rewrite unit_root_mul_N in Ht by lia.
  replace (csub cone cone) with (@czero R _) in Ht by ring.
  destruct (cmul_integral _ _ Ht) as [Hz|Hz]; [|assumption].
  exfalso. apply (unit_root_neq_1 inv N d Hd).
  transitivity (cadd (csub (unit_root inv N d) cone) cone); [ring|].
  rewrite Hz. ring.
Qed.

Lemma orthogonality (N j n : nat) :
  j < N -> n < N ->
  csum N (fun k =>
    cmul (unit_root false N (k * j)) (unit_root true N (n * k)))
  = if j =? n then cscale (INR N) cone else czero.
Proof.
  intros Hj Hn. destruct (Nat.lt_trichotomy j n) as [Hlt|[->|Hgt]].
  - replace (j =? n) with false by (symmetry; apply Nat.eqb_neq; lia).
    rewrite <- (geometric_sum_zero true N (n - j)) by lia.
    apply csum_ext. intros k Hk.
    rewrite (unit_root_eq true N (n * k) (k * (n - j) + k * j)) by nia.
    rewrite unit_root_add.
    transitivity
      (cmul (unit_root true N (k * (n - j)))
            (cmul (unit_root true N (k * j)) (unit_root false N (k * j))));
      [ring|].
    rewrite unit_root_conj. ring.
  - rewrite Nat.eqb_refl, <- csum_const.
    apply csum_ext. intros k Hk.
    rewrite (unit_root_eq true N (n * k) (k * n)) by lia.
    rewrite <- (unit_root_conj N (k * n)). ring.
  - replace (j =? n) with false by (symmetry; apply Nat.eqb_neq; lia).
    rewrite <- (geometric_sum_zero false N (j - n)) by lia.
    apply csum_ext. intros k Hk.
    rewrite (unit_root_eq false N (k * j) (k * (j - n) + n * k)) by nia.
    rewrite unit_root_add.
    transitivity
      (cmul (unit_root false N (k * (j - n)))
            (cmul (unit_root true N (n * k)) (unit_root false N (n * k))));
      [ring|].
    rewrite unit_root_conj. ring.
Qed.

Lemma csum_delta (N n : nat) (x : nat -> C) (c : C) :
  n < N ->
  csum N (fun j => cmul (x j) (if j =? n then c else czero)) = cmul (x n) c.
Proof.
  induction N as [|N IH]; intros Hn; [lia|].
  cbn [csum]. destruct (Nat.eq_dec n N) as [->|Hne].
  - rewrite Nat.eqb_refl.
    rewrite (csum_ext N _ (fun _ => czero)), csum_zero; [ring|].
    intros j Hj.
    replace (j =? N) with false by (symmetry; apply Nat.eqb_neq; lia). ring.
  - rewrite IH by lia.
    replace (N =? n) with false by (symmetry; apply Nat.eqb_neq; lia). ring.
Qed.

Lemma dft_inversion (N n : nat) (x : nat -> C) :
  n < N ->
  dft true N (dft false N x) n = cscale (INR N) (x n).
Proof.
  intros Hn. unfold dft.
  rewrite (csum_ext N _
             (fun k => csum N (fun j =>
                cmul (x j)
                     (cmul (unit_root false N (k * j))
                           (unit_root true N (n * k)))))).
  2:{ intros k Hk.
      transitivity
        (cmul (unit_root true N (n * k))
              (csum N (fun j => cmul (x j) (unit_root false N (k * j)))));
        [ring|].
      rewrite <- csum_cmul_l. apply csum_ext. intros j Hj. ring. }
  rewrite csum_swap.
  rewrite (csum_ext N _
             (fun j => cmul (x j)
                (if j =? n then cscale (INR N) cone else czero))).
  2:{ intros j Hj. rewrite csum_cmul_l. f_equal. now apply orthogonality. }
  rewrite csum_delta by assumption. apply complex_eq; csimpl; ring.
Qed.

Lemma dft_ext (inv : bool) (N : nat) (x y : nat -> C) (k : nat) :
  (forall n, n < N -> x n = y n) -> dft inv N x k = dft inv N y k.
Proof.
  intros Hxy. unfold dft. apply csum_ext. intros n Hn. now rewrite Hxy.
Qed.

Lemma unit_root_4 (k : nat) : unit_root false 4 k = quarter_power false k.
Proof.
  rewrite <- (quarter_power_root false 4 1 k) by lia.
  apply unit_root_eq. lia.
Qed.

(** C1: for every size [N >= 1], [forward] -- that is, [perform]
    called with stride 1, input stride 1 and the whole factor list --
    leaves in [freqData[k]] the sum over [n] of
    [timeData[n] * exp (-2 pi i k n / N)], for every [k < N], when the
    two buffers do not overlap; and for [N = 4] the input
    (1,0, 1,0, 1,0, 1,0) gives ((4,0),(0,0),(0,0),(0,0)). *)
Theorem forward_is_dft :
  (forall N (m : mem R) timeData freqData,
      1 <= N ->
      timeData + N <= freqData \/ freqData + N <= timeData ->
      forall k, k < N ->
        forward (new_FFTComplex N) m timeData freqData (freqData + k)
        = dft false N (fun n => m (timeData + n)) k) /\
  (forall m : mem R,
      load_list (forward (new_FFTComplex 4) (store_list m 0 ones4) 0 4) 4 4
      = [mkC 4%R 0%R; mkC 0%R 0%R; mkC 0%R 0%R; mkC 0%R 0%R]).
Proof.
  split; [intros; now apply forward_dft|].
  intros m. unfold load_list. cbn [map seq].
  rewrite !forward_dft by lia.
  unfold dft. cbn [csum]. rewrite !unit_root_4.
  unfold quarter_power, ones4.
  cbn [Nat.mul Nat.add Nat.modulo Nat.divmod snd fst Nat.sub
       store_list store Nat.eqb].
  repeat (apply (f_equal2 cons); [apply complex_eq; csimpl; ring|]).
  reflexivity.
Qed.

Lemma forward_is_dft_witness :
  1 <= 6 /\
  forward (new_FFTComplex 6) (fun a => mkC (INR a) 0%R) 0 6 (6 + 5)
  = dft false 6 (fun n => mkC (INR (0 + n)) 0%R) 5.
Proof.
  split; [lia|].
  apply (proj1 forward_is_dft 6 (fun a => mkC (INR a) 0%R) 0 6); lia.
Defined.

(** C2: on exact samples, [inverse] applied to the output of
    [forward] gives [N] times the signal, element by element: neither
    direction normalises. *)
Theorem inverse_forward_scales_by_size
        (N : nat) (m : mem R) (timeData freqData outData : nat) :
  1 <= N ->
  timeData + N <= freqData \/ freqData + N <= timeData ->
  freqData + N <= outData \/ outData + N <= freqData ->
  forall n, n < N ->
    inverse (new_FFTComplex N)
            (forward (new_FFTComplex N) m timeData freqData)
            freqData outData (outData + n)
    = cscale (INR N) (m (timeData + n)).
Proof.
  intros HN Hd1 Hd2 n Hn.
  rewrite inverse_dft by assumption.
  rewrite (dft_ext true N _ (dft false N (fun j => m (timeData + j)))).
  - now apply (dft_inversion N n (fun j => m (timeData + j))).
  - intros k Hk. now apply forward_dft.
Qed.

Lemma inverse_forward_scales_by_size_witness :
  1 <= 12 /\
  inverse (new_FFTComplex 12)
          (forward (new_FFTComplex 12) (fun a => mkC (INR a) 1%R) 0 12)
          12 0 (0 + 7)
  = cscale (INR 12) (mkC (INR (0 + 7)) 1%R).
Proof.
  split; [lia|].
  apply (inverse_forward_scales_by_size 12 (fun a => mkC (INR a) 1%R) 0 12 0);
    lia.
Defined.

(* ================================================================== *)
(** * The factor list of the constructor *)
(* ================================================================== *)

Lemma prime_divides_mul (q a b : nat) :
  prime q -> Nat.divide q (a * b) -> Nat.divide q a \/ Nat.divide q b.
Proof.
  intros [Hq2 Hq] Hd.
  destruct (Hq (Nat.gcd q a) (Nat.gcd_divide_l q a)) as [H1|Hg].
  - right. now apply Nat.gauss with a.
  - left. rewrite <- Hg. apply Nat.gcd_divide_r.
Qed.

Lemma prime_divides_product (q : nat) (l : list nat) :
  prime q -> Nat.divide q (product l) ->
  exists r, In r l /\ Nat.divide q r.
Proof.
  intros Hq. induction l as [|a l IH]; intros Hd.
  - exfalso. destruct Hq as [Hq2 _]. change (product []) with 1 in Hd.
    apply Nat.divide_1_r in Hd. lia.
  - rewrite product_cons in Hd.
    destruct (prime_divides_mul q a (product l) Hq Hd) as [Ha|Hl].
    + exists a. split; [now left|assumption].
    + destruct (IH Hl) as (r & Hin & Hr). exists r. split; [now right|assumption].
Qed.

(** C7, as the code has it: the radices multiply to [N]; each one is
    4 or a prime, so every prime factor of [N] divides a recorded radix
    (2 may be covered by a radix 4 only); they come in the order 4s,
    then at most one 2, then odd radices that never decrease; every
    radix before the last is 4 or at most the integer square root of
    [N]; and the list has at most 32 entries for every [N] below
    [2 * 3^32]. *)
Theorem factor_list_invariants (N : nat) :
  1 <= N ->
  let rs := radices (factorize N) in
  product rs = N /\
  Forall (fun r => r = 4 \/ prime r \/ N = 1) rs /\
  (forall q, prime q -> Nat.divide q N ->
             exists r, In r rs /\ Nat.divide q r) /\
  StronglySorted rank_le rs /\
  count_occ Nat.eq_dec rs 2 <= 1 /\
  Forall (fun r => r <= Nat.sqrt N \/ r = 4) (removelast rs) /\
  stages N 1 (factorize N) /\
  (N < 2 * 3 ^ 32 -> List.length (factorize N) <= 32).
Proof.
  intros HN rs. destruct (Nat.eq_dec N 1) as [->|Hne].
  - subst rs. rewrite factorize_1.
    change (radices [mkFactor 1 1]) with [1]. change (product [1]) with 1.
    split; [reflexivity|].
    split; [constructor; [auto|constructor]|].
    split.
    { intros q [Hq2 _] Hd. apply Nat.divide_1_r in Hd. lia. }
    split; [repeat constructor|].
    split; [cbn; lia|].
    split; [constructor|].
    split; [now apply factorize_stages|].
    intros _. cbn [List.length]. lia.
  - destruct (factorize_ok N ltac:(lia))
      as (H1 & H2 & _ & H4 & H5 & H6 & H7).
    fold rs in H1, H2, H4, H5, H6.
    split; [exact H1|].
    split; [eapply Forall_impl; [|exact H2]; intros r [?|?]; auto|].
    split.
    { intros q Hq Hd. apply prime_divides_product; [assumption|].
      now rewrite H1. }
    split; [exact H4|]. split; [exact H5|]. split; [exact H6|].
    split; [now apply H7; lia|].
    intros Hlt.
    destruct (Nat.le_gt_cases (List.length (factorize N)) 32) as [|Hgt];
      [assumption|exfalso].
    assert (Hlen : 33 <= List.length rs).
    { subst rs. unfold radices. rewrite length_map. lia. }
    pose proof (many_factors_large rs H2 H5 Hlen) as Hbig.
    rewrite H1 in Hbig. lia.
Qed.

Lemma factor_list_invariants_witness :
  product (radices (factorize 360)) = 360 /\
  List.length (factorize 360) <= 32.
Proof.
  assert (H1 : 1 <= 360) by lia.
  destruct (factor_list_invariants 360 H1) as (Hp & _ & _ & _ & _ & _ & _ & Hl).
  split; [exact Hp|]. apply Hl.
  apply Nat.lt_le_trans with (2 * 3 ^ 6); [vm_compute; lia|].
  apply Nat.mul_le_mono_l, Nat.pow_le_mono_r; lia.
Defined.

(** C7 as stated fails: the size 4 has the prime factor 2, and its
    factor list is the one radix 4. *)
Lemma factor_list_claim_fails :
  prime 2 /\ Nat.divide 2 4 /\ radices (factorize 4) = [4] /\
  ~ In 2 (radices (factorize 4)).
Proof.
  split; [exact prime_2|]. split; [exists 2; reflexivity|].
  split; [reflexivity|].
  intros Hin. vm_compute in Hin. destruct Hin as [Hin|[]]. discriminate Hin.
Qed.

(* ================================================================== *)
(** * FFTReal *)
(* ================================================================== *)

Lemma memset0_cleared {T} `{Scalar T} (m : mem T) (dst n i : nat) :
  i < n -> memset0 m dst n (dst + i) = czero.
Proof.
  unfold memset0. induction n as [|n IH]; intros Hi; [lia|].
  cbn [for_loop]. destruct (Nat.eq_dec i n) as [->|Hne].
  - apply store_same.
  - rewrite store_other by lia. apply IH. lia.
Qed.

Lemma memset0_cleared_at {T} `{Scalar T} (m : mem T) (dst n x : nat) :
  dst <= x < dst + n -> memset0 m dst n x = czero.
Proof.
  intros Hx. replace x with (dst + (x - dst)) by lia.
  apply memset0_cleared. lia.
Qed.

Lemma memset0_frame {T} `{Scalar T} (m : mem T) (dst n x : nat) :
  x < dst \/ dst + n <= x -> memset0 m dst n x = m x.
Proof.
  intros Hx. unfold memset0. apply for_loop_frame.
  intros i m' Hi. apply store_other. lia.
Qed.

Lemma forward_dft_at (N : nat) (m : mem R) (timeData freqData a : nat) :
  1 <= N ->
  timeData + N <= freqData \/ freqData + N <= timeData ->
  freqData <= a < freqData + N ->
  forward (new_FFTComplex N) m timeData freqData a
  = dft false N (fun n => m (timeData + n)) (a - freqData).
Proof.
  intros HN Hd Ha.
  replace a with (freqData + (a - freqData)) at 1 by lia.
  apply forward_dft; try assumption; lia.
Qed.

Lemma inverse_dft_at (N : nat) (m : mem R) (freqData timeData a : nat) :
  1 <= N ->
  freqData + N <= timeData \/ timeData + N <= freqData ->
  timeData <= a < timeData + N ->
  inverse (new_FFTComplex N) m freqData timeData a
  = dft true N (fun n => m (freqData + n)) (a - timeData).
Proof.
  intros HN Hd Ha.
  replace a with (timeData + (a - timeData)) at 1 by lia.
  apply inverse_dft; try assumption; lia.
Qed.

Lemma unit_root_4_inv (k : nat) : unit_root true 4 k = quarter_power true k.
Proof.
  rewrite <- (quarter_power_root true 4 1 k) by lia.
  apply unit_root_eq. lia.
Qed.

Ltac csimpl ::=
  cbn [real imag cadd csub cmul conj copp cone czero cscale cexp
       add sub neg smul cast scos ssin halve RealScalar].

(** The complex transform of the four pairs (1,-1). *)
Lemma forward_alternating4 (m : mem R) :
  load_list (forward (new_FFTComplex 4) (store_list m 0 alternating4) 0 8)
            8 4
  = [mkC 4%R (-4)%R; mkC 0%R 0%R; mkC 0%R 0%R; mkC 0%R 0%R].
Proof.
  unfold load_list. cbn [map seq].
  rewrite !forward_dft by lia.
  unfold dft. cbn [csum]. rewrite !unit_root_4.
  unfold quarter_power, alternating4.
  cbn [Nat.mul Nat.add Nat.modulo Nat.divmod snd fst Nat.sub
       store_list store Nat.eqb].
  repeat (apply (f_equal2 cons); [apply complex_eq; csimpl; ring|]).
  reflexivity.
Qed.

(** C3, on the code: the final [memset] starts at bin [size], so
    [forward] returns with that bin cleared, for every sample type and
    input.  For the eight samples 1,-1,1,-1,... the complex transform
    has [X[0] = (4,-4)], bin 4 should be [(8,0)], and all five bins
    come out zero.  The variant with a scratch buffer, which has no
    [memset], leaves [(X[0].re - X[0].im, 0)] in bin [size]. *)
Theorem real_forward_clears_last_bin :
  (forall (r : FFTReal.FFTReal (T := R)) (m : mem R) timeData freqData,
      1 <= FFTReal.size r ->
      FFTReal.forward r m timeData freqData (freqData + FFTReal.size r)
      = czero) /\
  (forall (r : FFTReal.FFTReal (T := R)) (m : mem R),
      FFTReal.new 8 = Some r ->
      load_list (FFTReal.forward r (store_list m 0 alternating4) 0 8) 8 5
      = [mkC 0%R 0%R; mkC 0%R 0%R; mkC 0%R 0%R; mkC 0%R 0%R; mkC 0%R 0%R]) /\
  (forall (r : FFTRealScratch.FFTReal (T := R)) (m : mem R)
          timeData freqData sp,
      1 <= FFTRealScratch.size r ->
      let X0 := forward (FFTRealScratch.fft r) m timeData sp sp in
      FFTRealScratch.forward r m timeData freqData sp
                             (freqData + FFTRealScratch.size r)
      = mkC (real X0 - imag X0)%R 0%R).
Proof.
  split; [|split].
  - intros r m timeData freqData Hs. unfold FFTReal.forward. cbv zeta.
    apply memset0_cleared_at. lia.
  - intros r m Hnew.
    destruct (new_FFTReal_fields 8 r Hnew) as (Hsize & Hfft & _).
    change (Nat.shiftr 8 1) with 4 in Hsize.
    pose proof (forward_alternating4 m) as HX.
    unfold load_list in HX. cbn [map seq Nat.add] in HX.
    pose proof (f_equal (fun l => nth 0 l czero) HX) as HX0.
    pose proof (f_equal (fun l => nth 1 l czero) HX) as HX1.
    pose proof (f_equal (fun l => nth 2 l czero) HX) as HX2.
    pose proof (f_equal (fun l => nth 3 l czero) HX) as HX3.
    cbv beta in HX0, HX1, HX2, HX3. cbn [nth] in HX0, HX1, HX2, HX3.
    unfold load_list. cbn [map seq].
    unfold FFTReal.forward. cbv zeta. rewrite Hfft, Hsize.
    cbn [is_integral RealScalar Nat.div Nat.divmod fst for_loop Nat.add
         Nat.sub].
    rewrite !memset0_frame by lia.
    rewrite memset0_cleared_at by lia.
    mem_eval. rewrite HX0, HX1, HX2, HX3.
    repeat match goal with
           | |- context [tw_at ?t ?i] => generalize (tw_at t i); intros [? ?]
           end.
    repeat (apply (f_equal2 cons); [apply complex_eq; csimpl; lra|]).
    reflexivity.
  - intros r m timeData freqData sp Hs X0. unfold FFTRealScratch.forward.
    cbv zeta. cbn [is_integral RealScalar].
    etransitivity.
    + apply for_loop_frame. intros j m' Hj.
      pose proof (Nat.Div0.mul_div_le (FFTRealScratch.size r) 2).
      rewrite !store_other by lia. reflexivity.
    + rewrite store_same. reflexivity.
Qed.

Lemma real_forward_clears_last_bin_witness :
  option_map
    (fun r => FFTReal.forward r (fun a => mkC (INR a) 0%R) 0 8
                              (8 + FFTReal.size r))
    (FFTReal.new 8)
  = Some czero.
Proof.
  destruct (FFTReal.new (T := R) 8) as [r|] eqn:Hnew; [|discriminate].
  pose proof (new_FFTReal_fields 8 r Hnew) as (Hsize & _).
  change (Nat.shiftr 8 1) with 4 in Hsize.
  cbn [option_map]. f_equal.
  apply (proj1 real_forward_clears_last_bin). rewrite Hsize. lia.
Defined.

Lemma inverse_prepare_in_place_first (r : FFTReal.FFTReal (T := R))
      (m : mem R) (freqData sp : nat) :
  1 <= FFTReal.size r ->
  snd (FFTReal.inverse_prepare r m freqData true sp) = freqData /\
  fst (FFTReal.inverse_prepare r m freqData true sp) freqData = m freqData.
Proof.
  intros Hs. unfold FFTReal.inverse_prepare. cbv zeta.
  cbn [negb fst snd is_integral RealScalar]. split; [reflexivity|].
  apply for_loop_frame. intros j m' Hj.
  pose proof (Nat.Div0.mul_div_le (FFTReal.size r) 2).
  rewrite !store_other by lia. reflexivity.
Qed.

Lemma inverse_prepare_scratch_first (r : FFTReal.FFTReal (T := R))
      (m : mem R) (freqData sp : nat) :
  1 <= FFTReal.size r ->
  snd (FFTReal.inverse_prepare r m freqData false sp) = sp /\
  fst (FFTReal.inverse_prepare r m freqData false sp) sp
  = mkC (real (m freqData) + real (m (freqData + FFTReal.size r)%nat))%R
        (real (m freqData) - real (m (freqData + FFTReal.size r)%nat))%R.
Proof.
  intros Hs. unfold FFTReal.inverse_prepare. cbv zeta.
  cbn [negb fst snd is_integral RealScalar]. split; [reflexivity|].
  etransitivity.
  - apply for_loop_frame. intros j m' Hj.
    pose proof (Nat.Div0.mul_div_le (FFTReal.size r) 2).
    rewrite !store_other by lia. reflexivity.
  - rewrite memcpy_frame by lia. apply store_same.
Qed.

(** C4, on the code: with [inPlace = false] the scratch cell 0 is
    built as [(in[0].re + in[N].re, in[0].re - in[N].re)]; with
    [inPlace = true] that step is skipped and cell 0 is [in[0]] as it
    stands.  For the five bins ((8,0),0,0,0,0) of size 8, the scratch
    path returns the eight samples 8,8,...,8 and the in-place path
    8,0,8,0,8,0,8,0. *)
Theorem real_inverse_in_place_skips_first_bin :
  (forall (r : FFTReal.FFTReal (T := R)) (m : mem R) freqData sp,
      1 <= FFTReal.size r ->
      fst (FFTReal.inverse_prepare r m freqData false sp) sp
      = mkC (real (m freqData) + real (m (freqData + FFTReal.size r)%nat))%R
            (real (m freqData) - real (m (freqData + FFTReal.size r)%nat))%R /\
      fst (FFTReal.inverse_prepare r m freqData true sp) freqData
      = m freqData) /\
  (forall (r : FFTReal.FFTReal (T := R)) (m : mem R),
      FFTReal.new 8 = Some r ->
      load_list (FFTReal.inverse r (store_list m 0 dc_bins) 0 8 false 20) 8 4
      = [mkC 8%R 8%R; mkC 8%R 8%R; mkC 8%R 8%R; mkC 8%R 8%R] /\
      load_list (FFTReal.inverse r (store_list m 0 dc_bins) 0 8 true 20) 8 4
      = [mkC 8%R 0%R; mkC 8%R 0%R; mkC 8%R 0%R; mkC 8%R 0%R]).
Proof.
  split.
  - intros r m freqData sp Hs. split.
    + now apply inverse_prepare_scratch_first.
    + now apply inverse_prepare_in_place_first.
  - intros r m Hnew.
    destruct (new_FFTReal_fields 8 r Hnew) as (Hsize & Hfft & _).
    change (Nat.shiftr 8 1) with 4 in Hsize.
    split.
    + unfold load_list. cbn [map seq Nat.add].
      unfold FFTReal.inverse, FFTReal.inverse_prepare. cbv zeta.
      rewrite Hfft, Hsize.
      cbn [negb is_integral RealScalar Nat.div Nat.divmod fst for_loop
           Nat.add Nat.sub].
      rewrite !inverse_dft_at by lia.
      unfold dft. cbn [csum Nat.sub]. rewrite !unit_root_4_inv.
      unfold quarter_power, memcpy, dc_bins.
      cbn [Nat.mul Nat.add Nat.modulo Nat.divmod snd fst Nat.sub for_loop
           store_list].
      mem_eval.
      repeat match goal with
             | |- context [tw_at ?t ?i] =>
                 generalize (tw_at t i); intros [? ?]
             end.
      repeat (apply (f_equal2 cons); [apply complex_eq; csimpl; lra|]).
      reflexivity.
    + unfold load_list. cbn [map seq Nat.add].
      unfold FFTReal.inverse, FFTReal.inverse_prepare. cbv zeta.
      rewrite Hfft, Hsize.
      cbn [negb is_integral RealScalar Nat.div Nat.divmod fst for_loop
           Nat.add Nat.sub].
      rewrite !inverse_dft_at by lia.
      unfold dft. cbn [csum Nat.sub]. rewrite !unit_root_4_inv.
      unfold quarter_power, dc_bins.
      cbn [Nat.mul Nat.add Nat.modulo Nat.divmod snd fst Nat.sub for_loop
           store_list].
      mem_eval.
      repeat match goal with
             | |- context [tw_at ?t ?i] =>
                 generalize (tw_at t i); intros [? ?]
             end.
      repeat (apply (f_equal2 cons); [apply complex_eq; csimpl; lra|]).
      reflexivity.
Qed.

Lemma real_inverse_in_place_skips_first_bin_witness :
  option_map
    (fun r => fst (FFTReal.inverse_prepare r (fun a => mkC (INR a) 1%R)
                                           0 true 20) 0)
    (FFTReal.new 8)
  = Some (mkC (INR 0) 1%R).
Proof.
  destruct (FFTReal.new (T := R) 8) as [r|] eqn:Hnew; [|discriminate].
  pose proof (new_FFTReal_fields 8 r Hnew) as (Hsize & _).
  change (Nat.shiftr 8 1) with 4 in Hsize.
  cbn [option_map]. f_equal.
  apply (proj1 real_inverse_in_place_skips_first_bin r
               (fun a => mkC (INR a) 1%R) 0 20).
  rewrite Hsize. lia.
Defined.

(* ================================================================== *)
(** * Further properties of the complex transform *)
(* ================================================================== *)

(** X1: for every sample type, [forward] and [inverse] write only the
    [N] cells of their output buffer; every other cell of the memory,
    the input buffer included when it does not overlap, is left as it
    was. *)
Theorem transform_writes_only_output {T : Type} `{Scalar T}
        (N : nat) (m : mem T) (input output x : nat) :
  1 <= N -> x < output \/ output + N <= x ->
  forward (new_FFTComplex N) m input output x = m x /\
  inverse (new_FFTComplex N) m input output x = m x.
Proof.
  intros HN Hx. split; [now apply forward_frame|now apply inverse_frame].
Qed.

Lemma transform_writes_only_output_witness :
  1 <= 6 /\
  forward (new_FFTComplex 6) (fun a => mkC (INR a) 0%R) 0 6 3
  = mkC (INR 3) 0%R.
Proof.
  split; [lia|].
  exact (proj1 (transform_writes_only_output
                  6 (fun a => mkC (INR a) 0%R) 0 6 3
                  ltac:(lia) ltac:(lia))).
Defined.

(** X2: on exact samples, [inverse] leaves in [timeData[n]] the sum
    over [k] of [freqData[k] * exp (+2 pi i k n / N)]: the transform
    with the conjugate twiddles and no scaling. *)
Theorem inverse_is_conjugate_dft
        (N : nat) (m : mem R) (freqData timeData : nat) :
  1 <= N ->
  freqData + N <= timeData \/ timeData + N <= freqData ->
  forall n, n < N ->
    inverse (new_FFTComplex N) m freqData timeData (timeData + n)
    = dft true N (fun k => m (freqData + k)) n.
Proof. intros. now apply inverse_dft. Qed.

Lemma inverse_is_conjugate_dft_witness :
  1 <= 10 /\
  inverse (new_FFTComplex 10) (fun a => mkC (INR a) 0%R) 0 10 (10 + 3)
  = dft true 10 (fun k => mkC (INR (0 + k)) 0%R) 3.
Proof.
  split; [lia|].
  apply (inverse_is_conjugate_dft 10 (fun a => mkC (INR a) 0%R) 0 10); lia.
Defined.

(** X3: the transform of the unit impulse (1, 0, 0, ...) is 1 in
    every bin, for every size. *)
Theorem forward_of_impulse
        (N : nat) (m : mem R) (timeData freqData : nat) :
  1 <= N ->
  timeData + N <= freqData \/ freqData + N <= timeData ->
  m timeData = cone ->
  (forall n, 1 <= n < N -> m (timeData + n) = czero) ->
  forall k, k < N ->
    forward (new_FFTComplex N) m timeData freqData (freqData + k) = cone.
Proof.
  intros HN Hd H0 Hrest k Hk.
  rewrite forward_dft by assumption. unfold dft.
  rewrite (csum_ext N _
             (fun n => cmul (unit_root false N (k * n))
                            (if n =? 0 then cone else czero))).
  - rewrite csum_delta by lia. rewrite Nat.mul_0_r, unit_root_0. ring.
  - intros n Hn. destruct n as [|n].
    + rewrite Nat.add_0_r, H0. cbn [Nat.eqb]. ring.
    + rewrite Hrest by lia. cbn [Nat.eqb]. ring.
Qed.

Lemma forward_of_impulse_witness :
  1 <= 5 /\
  forward (new_FFTComplex 5) (store (fun _ => czero) 0 cone) 0 5 (5 + 2)
  = cone.
Proof.
  split; [lia|].
  apply (forward_of_impulse 5 (store (fun _ => czero) 0 cone) 0 5); try lia.
  - apply store_same.
  - intros n Hn. rewrite store_other by lia. reflexivity.
Defined.

(** X4: [forward] is linear: if a third input is [a * x + b * y]
    sample by sample, its transform is [a * X + b * Y] bin by bin. *)
Theorem forward_is_linear
        (N : nat) (mx my mz : mem R) (a b : C) (timeData freqData : nat) :
  1 <= N ->
  timeData + N <= freqData \/ freqData + N <= timeData ->
  (forall n, n < N ->
     mz (timeData + n)
     = cadd (cmul a (mx (timeData + n))) (cmul b (my (timeData + n)))) ->
  forall k, k < N ->
    forward (new_FFTComplex N) mz timeData freqData (freqData + k)
    = cadd (cmul a (forward (new_FFTComplex N) mx timeData freqData
                            (freqData + k)))
           (cmul b (forward (new_FFTComplex N) my timeData freqData
                            (freqData + k))).
Proof.
  intros HN Hd Hz k Hk. rewrite !forward_dft by assumption. unfold dft.
  rewrite <- !csum_cmul_l, <- csum_add.
  apply csum_ext. intros n Hn. rewrite Hz by assumption. ring.
Qed.

Lemma forward_is_linear_witness :
  1 <= 3 /\
  forward (new_FFTComplex 3)
          (fun n => cadd (cmul cone (mkC (INR n) 0%R))
                         (cmul cone (mkC 0%R (INR n)))) 0 3 (3 + 1)
  = cadd (cmul cone (forward (new_FFTComplex 3) (fun n => mkC (INR n) 0%R)
                             0 3 (3 + 1)))
         (cmul cone (forward (new_FFTComplex 3) (fun n => mkC 0%R (INR n))
                             0 3 (3 + 1))).
Proof.
  split; [lia|].
  apply (forward_is_linear 3 (fun n => mkC (INR n) 0%R)
            (fun n => mkC 0%R (INR n))
            (fun n => cadd (cmul cone (mkC (INR n) 0%R))
                           (cmul cone (mkC 0%R (INR n))))
            cone cone 0 3); try lia.
  intros n Hn. reflexivity.
Defined.

(* ================================================================== *)
(** * Further properties of the constructor *)
(* ================================================================== *)

Lemma factor_loop_lengths (root : nat) :
  forall fuel p n,
    2 <= n -> n <= fuel -> n < (root + 1) * (root + 1) ->
    loop_state root p n ->
    forall l1 f l2,
      factor_loop fuel p n root = l1 ++ f :: l2 ->
      length f = product (radices l2) /\
      product (radices l1) * (radix f * length f) = n.
Proof.
  induction fuel as [|fuel IH]; intros p n Hn Hfuel Hsq Hst l1 f l2 Heq;
    [lia|].
  rewrite factor_loop_step in Heq.
  destruct (find_radix_spec n root p Hn Hsq Hst)
    as (Hdiv & _ & Hpr & _ & _ & Hnext).
  set (p' := find_radix (3 + root) p n root) in *.
  assert (Hp' : 2 <= p') by now apply radix_ge_2.
  destruct Hdiv as [z Hz].
  assert (Hq : n / p' = z) by (symmetry; apply Nat.div_unique_exact; lia).
  set (n' := n / p') in *.
  assert (Hn' : n = p' * n') by lia.
  assert (Hn'1 : 1 <= n') by (destruct n'; lia).
  destruct (1 <? n') eqn:Hlt.
  - apply Nat.ltb_lt in Hlt.
    assert (Hne : p' <> n) by nia.
    assert (Hst' : loop_state root p' n') by now apply Hnext.
    destruct l1 as [|a l1].
    + cbn [app] in Heq. injection Heq as <- <-.
      destruct (factor_loop_spec root fuel p' n') as (Hprod & _);
        try assumption; try nia.
      cbn [radix length]. rewrite Hprod.
      change (product (radices [])) with 1. split; [reflexivity|nia].
    + cbn [app] in Heq. injection Heq as <- Hrest.
      destruct (IH p' n' ltac:(lia) ltac:(nia) ltac:(nia) Hst' l1 f l2 Hrest)
        as [H1 H2].
      split; [exact H1|]. rewrite radices_cons, product_cons. nia.
  - apply Nat.ltb_ge in Hlt. assert (Hone : n' = 1) by lia.
    destruct l1 as [|a l1].
    + cbn [app] in Heq. injection Heq as <- <-.
      cbn [radix length]. change (product (radices [])) with 1.
      split; [exact Hone|lia].
    + cbn [app] in Heq. injection Heq as _ Hrest.
      destruct l1; discriminate Hrest.
Qed.

(** X5: in the factor list of every size [N >= 1], each record's
    [length] is the product of the radices recorded after it (so the
    last one has length 1), and the radices before it times its own
    [radix * length] give [N]. *)
Theorem factor_lengths_are_remaining_products
        (N : nat) (l1 l2 : list Factor) (f : Factor) :
  1 <= N -> factorize N = l1 ++ f :: l2 ->
  length f = product (radices l2) /\
  product (radices l1) * (radix f * length f) = N.
Proof.
  intros HN Heq. destruct (Nat.eq_dec N 1) as [->|Hne].
  - rewrite factorize_1 in Heq.
    destruct l1 as [|a l1].
    + injection Heq as <- <-. split; reflexivity.
    + injection Heq as _ Hrest. destruct l1; discriminate Hrest.
  - apply (factor_loop_lengths (Nat.sqrt N) N 4 N); try lia.
    + apply sqrt_bound.
    + now left.
    + exact Heq.
Qed.

Lemma factor_lengths_are_remaining_products_witness :
  length (mkFactor 3 5) = product (radices [mkFactor 5 1]) /\
  product (radices [mkFactor 4 15]) * (radix (mkFactor 3 5)
                                       * length (mkFactor 3 5)) = 60.
Proof.
  apply (factor_lengths_are_remaining_products
           60 [mkFactor 4 15] [mkFactor 5 1] (mkFactor 3 5)).
  - lia.
  - reflexivity.
Defined.

Lemma find_radix_more_fuel (n root : nat) :
  forall f e p,
    Nat.divide (find_radix f p n root) n -> find_radix f p n root <> 0 ->
    find_radix (f + e) p n root = find_radix f p n root.
Proof.
  induction f as [|f IH]; intros e p Hd Hnz.
  - cbn [find_radix] in *. cbn [Nat.add]. destruct e as [|e]; [reflexivity|].
    rewrite find_radix_step.
    replace (n mod p =? 0) with true; [reflexivity|].
    symmetry. apply mod0_divide; assumption.
  - cbn [Nat.add]. rewrite !find_radix_step in *.
    destruct (n mod p =? 0); [reflexivity|].
    destruct (root <? next_candidate p); [reflexivity|].
    now apply IH.
Qed.

Lemma factor_loop_more_fuel (root : nat) :
  forall fuel e p n,
    2 <= n -> n <= fuel -> n < (root + 1) * (root + 1) ->
    loop_state root p n ->
    factor_loop (fuel + e) p n root = factor_loop fuel p n root.
Proof.
  induction fuel as [|fuel IH]; intros e p n Hn Hfuel Hsq Hst; [lia|].
  cbn [Nat.add]. rewrite !factor_loop_step.
  destruct (find_radix_spec n root p Hn Hsq Hst)
    as (Hdiv & _ & Hpr & _ & _ & Hnext).
  set (p' := find_radix (3 + root) p n root) in *.
  assert (Hp' : 2 <= p') by now apply radix_ge_2.
  destruct Hdiv as [n' Hn'].
  assert (Hq : n / p' = n') by (symmetry; apply Nat.div_unique_exact; lia).
  rewrite Hq in *. f_equal.
  destruct (1 <? n') eqn:Hlt; [|reflexivity].
  apply Nat.ltb_lt in Hlt.
  apply IH; try lia; try nia. apply Hnext. nia.
Qed.

(** X6: the constructor's loops leave by their own conditions, not by
    the bound the model puts on them: from every state the outer loop
    passes through, the inner [while] returns a radix that divides
    what remains, and neither more inner nor more outer iterations
    change the factor list. *)
Theorem factor_loops_exit (N e : nat) :
  2 <= N ->
  factor_loop (N + e) 4 N (Nat.sqrt N) = factorize N /\
  (forall p n,
      2 <= n -> n < (Nat.sqrt N + 1) * (Nat.sqrt N + 1) ->
      loop_state (Nat.sqrt N) p n ->
      n mod find_radix (3 + Nat.sqrt N) p n (Nat.sqrt N) = 0 /\
      find_radix (3 + Nat.sqrt N + e) p n (Nat.sqrt N)
      = find_radix (3 + Nat.sqrt N) p n (Nat.sqrt N)).
Proof.
  intros HN. split.
  - unfold factorize. apply factor_loop_more_fuel; try lia.
    + apply sqrt_bound.
    + now left.
  - intros p n Hn Hsq Hst.
    destruct (find_radix_spec n (Nat.sqrt N) p Hn Hsq Hst)
      as (Hdiv & _ & Hpr & _).
    assert (Hp' : 2 <= find_radix (3 + Nat.sqrt N) p n (Nat.sqrt N))
      by now apply radix_ge_2.
    split.
    + apply Nat.eqb_eq. apply mod0_divide; [lia|assumption].
    + apply find_radix_more_fuel; [assumption|lia].
Qed.

Lemma factor_loops_exit_witness :
  factor_loop (30 + 7) 4 30 (Nat.sqrt 30) = factorize 30.
Proof.
  exact (proj1 (factor_loops_exit 30 7 ltac:(lia))).
Defined.

Lemma prime_divides_pow2 (q k : nat) :
  prime q -> Nat.divide q (2 ^ k) -> q = 2.
Proof.
  intros Hq. induction k as [|k IH]; intros Hd.
  - destruct Hq as [Hq2 _]. cbn in Hd. apply Nat.divide_1_r in Hd. lia.
  - rewrite Nat.pow_succ_r' in Hd.
    destruct (prime_divides_mul q 2 (2 ^ k) Hq Hd) as [H2|Hk]; [|auto].
    destruct prime_2 as [_ Hp2]. destruct (Hp2 q H2) as [H1|H1]; [|exact H1].
    destruct Hq as [Hq2 _]. lia.
Qed.

(** X7: for a power of two the factor list holds only radices 4 and
    2, the 4s first and at most one 2 at the end: the generic
    butterfly is never used for such a size. *)
Theorem power_of_two_uses_radix_4_and_2 (k : nat) :
  1 <= k ->
  exists a b,
    radices (factorize (2 ^ k)) = repeat 4 a ++ repeat 2 b /\
    b <= 1 /\ 2 * a + b = k.
Proof.
  intros Hk.
  assert (HN : 2 <= 2 ^ k).
  { change 2 with (2 ^ 1) at 1. apply Nat.pow_le_mono_r; lia. }
  destruct (factor_list_invariants (2 ^ k) ltac:(lia))
    as (Hprod & Hall & _ & Hsort & Hcount & _).
  set (rs := radices (factorize (2 ^ k))) in *.
  assert (H42 : Forall (fun r => r = 4 \/ r = 2) rs).
  { apply Forall_forall. intros r Hr.
    pose proof (proj1 (Forall_forall _ _) Hall r Hr) as [H4|[Hp|H1]].
    - now left.
    - right. apply (prime_divides_pow2 r k Hp).
      rewrite <- Hprod. now apply in_divides_product.
    - lia. }
  clear Hall.
  assert (Hshape : forall l, Forall (fun r => r = 4 \/ r = 2) l ->
            StronglySorted rank_le l ->
            exists a b, l = repeat 4 a ++ repeat 2 b /\
                        count_occ Nat.eq_dec l 2 = b /\
                        product l = 2 ^ (2 * a + b)).
  { induction l as [|r l IHl]; intros Hf Hs.
    - exists 0, 0. repeat split.
    - inversion Hf as [|? ? Hr Hf']; subst.
      inversion Hs as [|? ? Hs' Hle]; subst.
      destruct (IHl Hf' Hs') as (a & b & Hl & Hc & Hp).
      destruct Hr as [Hr|Hr]; subst r.
      + exists (S a), b. rewrite Hl at 1. split; [reflexivity|].
        split; [cbn [count_occ]; destruct (Nat.eq_dec 4 2); [lia|exact Hc]|].
        rewrite product_cons, Hp.
        replace (2 * S a + b) with (2 + (2 * a + b)) by lia.
        rewrite (Nat.pow_add_r 2 2 (2 * a + b)). reflexivity.
      + destruct a as [|a].
        * exists 0, (S b). rewrite Hl at 1. split; [reflexivity|].
          split; [cbn [count_occ]; destruct (Nat.eq_dec 2 2); [lia|lia]|].
          rewrite product_cons, Hp.
          replace (2 * 0 + S b) with (S (2 * 0 + b)) by lia.
          now rewrite Nat.pow_succ_r'.
        * exfalso. rewrite Hl in Hle. cbn [repeat app] in Hle.
          inversion Hle as [|? ? H24 _]; subst.
          unfold rank_le in H24. cbn in H24. lia. }
  destruct (Hshape rs H42 Hsort) as (a & b & Hl & Hc & Hp).
  exists a, b. split; [exact Hl|]. split; [lia|].
  rewrite Hprod in Hp. apply Nat.pow_inj_r in Hp; lia.
Qed.

Lemma power_of_two_uses_radix_4_and_2_witness :
  exists a b,
    radices (factorize (2 ^ 5)) = repeat 4 a ++ repeat 2 b /\
    b <= 1 /\ 2 * a + b = 5.
Proof.
  apply (power_of_two_uses_radix_4_and_2 5). lia.
Defined.

(* ================================================================== *)
(** * Further properties of the integer path *)
(* ================================================================== *)

Lemma sround_small (x : Z) :
  (- 2 ^ 30 <= x < 2 ^ 30)%Z -> sround x = 0%Z.
Proof.
  intros Hx. rewrite sround_spec by lia.
  apply Z.div_small. lia.
Qed.

Section IntegerScaling.
Context `{Binary64}.

(** X9: on a 16-bit sample type the product is still shifted by 31
    bits, so [smul] returns 0 for all operands, except 1 for the square
    of the minimum value. *)
Theorem smul_16_is_zero (a b : Z) :
  in_range 16 a -> in_range 16 b ->
  smul (T := int 16) a b
  = if ((a =? -32768) && (b =? -32768))%Z%bool then 1%Z else 0%Z.
Proof.
  unfold in_range. change (16 - 1)%Z with 15%Z.
  change (2 ^ 15)%Z with 32768%Z. intros Ha Hb.
  cbn [smul IntScalar]. unfold int_smul.
  assert (Hab : (- 1073741824 < a * b <= 1073741824)%Z) by nia.
  rewrite (wrap_in_range 64 (a * b));
    [|lia|unfold in_range; change (2 ^ (64 - 1))%Z
                             with 9223372036854775808%Z; lia].
  destruct ((a =? -32768) && (b =? -32768))%Z%bool eqn:Hmin.
  - apply andb_prop in Hmin as [H1 H2].
    apply Z.eqb_eq in H1, H2. subst. reflexivity.
  - rewrite sround_small; [reflexivity|].
    change (2 ^ 30)%Z with 1073741824%Z.
    assert (a * b <> 1073741824)%Z; [|lia].
    intros Heq. apply andb_false_iff in Hmin as [H1|H1];
      apply Z.eqb_neq in H1; nia.
Qed.

(** X10: on a 32-bit sample type the stage scaling is accurate to
    about one unit: the result of dividing by 2 or by 4 through
    [sdiv], which multiplies by the truncated reciprocal [max / d],
    differs from the exact quotient by less than 2. *)
Theorem sdiv_32_by_2_and_4 (a : Z) :
  in_range 32 a ->
  let r2 := sdiv (T := int 32) a (cast 2) in
  let r4 := sdiv (T := int 32) a (cast 4) in
  (-3 < 2 * r2 - a <= 3)%Z /\ (-6 < 4 * r4 - a <= 6)%Z.
Proof.
  intros Ha r2 r4. subst r2 r4. cbn [sdiv cast IntScalar].
  unfold int_sdiv.
  change (Z.quot (int_max 32) (wrap 32 2)) with 1073741823%Z.
  change (Z.quot (int_max 32) (wrap 32 4)) with 536870911%Z.
  assert (H2 : in_range 32 1073741823) by (unfold in_range; simpl; lia).
  assert (H4 : in_range 32 536870911) by (unfold in_range; simpl; lia).
  assert (Hne : forall c : Z, in_range 32 c -> (0 < c)%Z ->
                  ~ (a = (- 2 ^ 31)%Z /\ c = (- 2 ^ 31)%Z)).
  { intros c _ Hc [_ Hcc]. subst c. lia. }
  destruct (int_smul_32_spec a 1073741823 Ha H2) as (_ & Hb2 & He2).
  destruct (int_smul_32_spec a 536870911 Ha H4) as (_ & Hb4 & He4).
  rewrite (He2 (Hne _ H2 ltac:(lia))), (He4 (Hne _ H4 ltac:(lia))).
  unfold in_range in Ha. change (2 ^ (32 - 1))%Z with 2147483648%Z in Ha.
  change (2 ^ 30)%Z with 1073741824%Z in *.
  change (2 ^ 31)%Z with 2147483648%Z in *.
  split; lia.
Qed.

End IntegerScaling.

Lemma smul_16_is_zero_witness :
  smul (T := int 16) 20000%Z 30000%Z = 0%Z.
Proof.
  rewrite (smul_16_is_zero 20000 30000);
    [reflexivity|unfold in_range; simpl; lia|unfold in_range; simpl; lia].
Defined.

Lemma sdiv_32_by_2_and_4_witness :
  (-3 < 2 * sdiv (T := int 32) 1000001%Z (cast 2) - 1000001 <= 3)%Z.
Proof.
  exact (proj1 (sdiv_32_by_2_and_4 1000001
                  ltac:(unfold in_range; simpl; lia))).
Defined.

(* ================================================================== *)
(** * Further properties of the butterflies and of FFTReal *)
(* ================================================================== *)

Lemma for_loop_ext {S : Type} (n : nat) (f g : nat -> S -> S) (s : S) :
  (forall i s', i < n -> f i s' = g i s') ->
  for_loop n f s = for_loop n g s.
Proof.
  induction n as [|n IH]; intros Hfg; [reflexivity|].
  cbn [for_loop]. rewrite IH by (intros; apply Hfg; lia).
  apply Hfg. lia.
Qed.

(** X11: in the radix-2 and radix-4 butterflies every twiddle read is
    inside the table of [N] entries.  With [stride * radix * length]
    equal to the transform size [N], what [butterfly2] and [butterfly4]
    leave in memory is the same for any two tables that agree on the
    entries [0 .. N - 1]: the pointers [tw1], [tw2], [tw3], advanced by
    [stride], [2 * stride] and [3 * stride], never reach entry [N]. *)
Theorem butterfly_twiddle_reads_in_bounds {T : Type} `{Scalar T}
        (N stride length output : nat) (m : mem T) (inverse : bool)
        (tw tw' : list (complex T)) :
  1 <= N ->
  (forall i, i < N -> tw_at tw i = tw_at tw' i) ->
  (stride * (2 * length) = N ->
   butterfly2 m output stride length tw
   = butterfly2 m output stride length tw') /\
  (stride * (4 * length) = N ->
   butterfly4 m output stride length tw inverse
   = butterfly4 m output stride length tw' inverse).
Proof.
  intros HN Htw.
  assert (Hlt : forall i, i < length -> 1 <= stride ->
                  i * stride + stride <= length * stride).
  { intros i Hi Hst.
    assert ((i + 1) * stride <= length * stride)
      by (apply Nat.mul_le_mono_r; lia).
    lia. }
  split; intros Hs.
  - assert (Hst : 1 <= stride) by (destruct stride; lia).
    unfold butterfly2. apply for_loop_ext. intros i m' Hi.
    specialize (Hlt i Hi Hst).
    cbv zeta. rewrite (Htw (i * stride)) by lia. reflexivity.
  - assert (Hst : 1 <= stride) by (destruct stride; lia).
    unfold butterfly4. cbv zeta. apply for_loop_ext. intros i m' Hi.
    specialize (Hlt i Hi Hst).
    rewrite (Htw (i * stride)), (Htw (i * (stride * 2))),
      (Htw (i * (stride * 3))) by lia.
    reflexivity.
Qed.

Lemma butterfly_twiddle_reads_in_bounds_witness :
  butterfly2 (fun a => mkC (INR a) 0%R) 0 1 2
             [mkC 1%R 0%R; mkC 0%R (-1)%R; mkC (-1)%R 0%R; mkC 0%R 1%R]
  = butterfly2 (fun a => mkC (INR a) 0%R) 0 1 2
               [mkC 1%R 0%R; mkC 0%R (-1)%R; mkC (-1)%R 0%R; mkC 0%R 1%R;
                mkC 7%R 7%R].
Proof.
  refine (proj1 (butterfly_twiddle_reads_in_bounds
                   (T := R) 4 1 2 0 (fun a => mkC (INR a) 0%R) false
                   [mkC 1%R 0%R; mkC 0%R (-1)%R; mkC (-1)%R 0%R; mkC 0%R 1%R]
                   [mkC 1%R 0%R; mkC 0%R (-1)%R; mkC (-1)%R 0%R; mkC 0%R 1%R;
                    mkC 7%R 7%R] _ _) _).
  - lia.
  - intros i Hi. unfold tw_at.
    destruct i as [|[|[|[|i]]]]; try reflexivity; lia.
  - reflexivity.
Defined.


Section RealFootprints.
Context {T : Type} `{Scalar T}.

Lemma real_forward_frame (r : FFTReal.FFTReal) (m : mem T)
        (timeData freqData x : nat) :
    1 <= FFTReal.size r ->
    FFTReal.fft r = new_FFTComplex (FFTReal.size r) ->
    x < freqData \/ freqData + 2 * FFTReal.size r <= x ->
    FFTReal.forward r m timeData freqData x = m x.
  Proof.
    intros Hs Hfft Hx. unfold FFTReal.forward. cbv zeta.
    rewrite memset0_frame by lia.
    etransitivity.
    { apply for_loop_frame. intros j m' Hj.
      pose proof (Nat.Div0.mul_div_le (FFTReal.size r) 2).
      rewrite !store_other by lia. reflexivity. }
    rewrite !store_other by lia.
    etransitivity.
    { instantiate (1 := forward (FFTReal.fft r) m timeData freqData x).
      destruct is_integral; [|reflexivity].
      apply for_loop_frame. intros k m' Hk. apply cdiv_at_frame. lia. }
    rewrite Hfft. apply forward_frame; lia.
  Qed.
End RealFootprints.

(** X12: [FFTReal::forward] writes [2 * size] cells of [freqData],
    not [size + 1]: on return the cells [size .. 2 * size - 1] are all
    zero, and nothing outside [freqData[0 .. 2 * size)] has changed. *)
Theorem real_forward_footprint {T : Type} `{Scalar T}
        (fftSize : nat) (r : FFTReal.FFTReal) (m : mem T)
        (timeData freqData x : nat) :
  FFTReal.new fftSize = Some r ->
  1 <= FFTReal.size r ->
  (freqData + FFTReal.size r <= x < freqData + 2 * FFTReal.size r ->
   FFTReal.forward r m timeData freqData x = czero) /\
  (x < freqData \/ freqData + 2 * FFTReal.size r <= x ->
   FFTReal.forward r m timeData freqData x = m x).
Proof.
  intros Hnew Hs.
  destruct (new_FFTReal_fields fftSize r Hnew) as (_ & Hfft & _).
  split.
  - intros Hx. unfold FFTReal.forward. cbv zeta.
    apply memset0_cleared_at. lia.
  - intros Hx. now apply real_forward_frame.
Qed.

Lemma real_forward_footprint_witness :
  option_map
    (fun r => FFTReal.forward r (fun a => mkC (INR a) 0%R) 0 8 15)
    (FFTReal.new 8)
  = Some czero.
Proof.
  destruct (FFTReal.new (T := R) 8) as [r|] eqn:Hnew; [|discriminate].
  pose proof (new_FFTReal_fields 8 r Hnew) as (Hsize & _).
  change (Nat.shiftr 8 1) with 4 in Hsize.
  cbn [option_map]. f_equal.
  apply (proj1 (real_forward_footprint 8 r (fun a => mkC (INR a) 0%R)
                  0 8 15 Hnew ltac:(lia))).
  rewrite Hsize. lia.
Defined.

(* ================================================================== *)
(** * The recombination loops of FFTReal *)
(* ================================================================== *)

(** A loop over [k = 1 .. N/2] that reads cells [k] and [N - k] of a
    source block and then writes cells [k] and [N - k] of a destination
    block, which is the source block itself or apart from it. *)
Section PairLoop.
Context {T : Type}.
Variables (N src dst : nat).
Variables (fA fB : nat -> complex T -> complex T -> complex T).
Hypothesis Hsep :
    forall a b, 1 <= a < N -> 1 <= b < N -> src + a = dst + b -> a = b.

Lemma pair_body_eq (j : nat) (m : mem T) :
    pair_body N src dst fA fB j m
    = store (store m (dst + (j + 1))
                   (fA (j + 1) (m (src + (j + 1))) (m (src + (N - (j + 1))))))
            (dst + (N - (j + 1)))
            (fB (j + 1) (m (src + (j + 1))) (m (src + (N - (j + 1))))).
  Proof. reflexivity. Qed.

Lemma pair_loop_spec (m0 : mem T) :
    forall n, n <= N / 2 ->
      (forall k, 1 <= k <= n ->
         for_loop n (pair_body N src dst fA fB) m0 (dst + (N - k))
         = fB k (m0 (src + k)) (m0 (src + (N - k)))) /\
      (forall k, 1 <= k <= n -> 2 * k < N ->
         for_loop n (pair_body N src dst fA fB) m0 (dst + k)
         = fA k (m0 (src + k)) (m0 (src + (N - k)))) /\
      (forall x, (forall k, 1 <= k <= n ->
                    x <> dst + k /\ x <> dst + (N - k)) ->
         for_loop n (pair_body N src dst fA fB) m0 x = m0 x).
  Proof.
    induction n as [|n IH]; intros Hn.
    - split; [intros; lia|]. split; [intros; lia|]. reflexivity.
    - pose proof (Nat.Div0.mul_div_le N 2) as Hhalf.
      destruct (IH ltac:(lia)) as (IHB & IHA & IHF).
      assert (Hr1 : for_loop n (pair_body N src dst fA fB) m0 (src + (n + 1))
                    = m0 (src + (n + 1))).
      { apply IHF. intros k Hk. split; intros He.
        - apply Hsep in He; lia.
        - apply Hsep in He; lia. }
      assert (Hr2 : for_loop n (pair_body N src dst fA fB) m0 (src + (N - (n + 1)))
                    = m0 (src + (N - (n + 1)))).
      { apply IHF. intros k Hk. split; intros He.
        - apply Hsep in He; lia.
        - apply Hsep in He; lia. }
      cbn [for_loop]. rewrite pair_body_eq, Hr1, Hr2.
      split; [|split].
      + intros k Hk. destruct (Nat.eq_dec k (n + 1)) as [->|Hne].
        * apply store_same.
        * rewrite !store_other by lia. apply IHB. lia.
      + intros k Hk H2k. destruct (Nat.eq_dec k (n + 1)) as [->|Hne].
        * rewrite store_other by lia. apply store_same.
        * rewrite !store_other by lia. apply IHA; lia.
      + intros x Hx.
        destruct (Hx (n + 1) ltac:(lia)) as [Hx1 Hx2].
        rewrite !store_other by assumption.
        apply IHF. intros k Hk. apply Hx. lia.
  Qed.
End PairLoop.

Lemma scratch_forward_bins (r : FFTRealScratch.FFTReal (T := R)) (m : mem R)
      (timeData freqData sp : nat) :
  1 <= FFTRealScratch.size r ->
  freqData + FFTRealScratch.size r + 1 <= sp \/
  sp + FFTRealScratch.size r <= freqData ->
  let N := FFTRealScratch.size r in
  let X := fun j => forward (FFTRealScratch.fft r) m timeData sp (sp + j) in
  (forall k, k <= N ->
     FFTRealScratch.forward r m timeData freqData sp (freqData + k)
     = real_bin X (FFTRealScratch.twiddlesFwd r) N k) /\
  (forall x, x < freqData \/ freqData + N + 1 <= x ->
     FFTRealScratch.forward r m timeData freqData sp x
     = forward (FFTRealScratch.fft r) m timeData sp x).
Proof.
  intros Hs Hd N X.
  set (W := FFTRealScratch.twiddlesFwd r).
  set (m1 := forward (FFTRealScratch.fft r) m timeData sp).
  set (fA := fun (k : nat) (s0 t0 : C) =>
               mkC (halve (add (real (cadd s0 (conj t0)))
                               (real (cmul (csub s0 (conj t0))
                                           (tw_at W (k - 1))))))
                   (halve (add (imag (cadd s0 (conj t0)))
                               (imag (cmul (csub s0 (conj t0))
                                           (tw_at W (k - 1))))))).
  set (fB := fun (k : nat) (s0 t0 : C) =>
               mkC (halve (sub (real (cadd s0 (conj t0)))
                               (real (cmul (csub s0 (conj t0))
                                           (tw_at W (k - 1))))))
                   (halve (sub (imag (cmul (csub s0 (conj t0))
                                           (tw_at W (k - 1))))
                               (imag (cadd s0 (conj t0)))))).
  set (m2 := store (store m1 freqData
                          (mkC (add (real (m1 sp)) (imag (m1 sp))) (cast 0)))
                   (freqData + N)
                   (mkC (sub (real (m1 sp)) (imag (m1 sp))) (cast 0))).
  assert (Hcode : forall x,
            FFTRealScratch.forward r m timeData freqData sp x
            = for_loop (N / 2) (pair_body N sp freqData fA fB) m2 x).
  { intros x. reflexivity. }
  assert (Hsep : forall a b, 1 <= a < N -> 1 <= b < N ->
                             sp + a = freqData + b -> a = b) by (intros; lia).
  pose proof (Nat.Div0.mul_div_le N 2) as Hhalf.
  pose proof (Nat.div_mod_eq N 2) as Hdm.
  pose proof (Nat.mod_upper_bound N 2 ltac:(lia)) as Hmb.
  destruct (pair_loop_spec N sp freqData fA fB Hsep m2 (N / 2) (le_n _))
    as (HB & HA & HF).
  assert (Hm2 : forall j, j < N -> m2 (sp + j) = X j).
  { intros j Hj. unfold m2, X. now rewrite !store_other by lia. }
  split.
  - intros k Hk. rewrite Hcode. unfold real_bin.
    destruct (k =? 0) eqn:E0.
    { apply Nat.eqb_eq in E0. subst k.
      rewrite HF by (intros; lia). unfold m2.
      rewrite store_other, Nat.add_0_r, store_same by lia.
      unfold X. now rewrite Nat.add_0_r. }
    apply Nat.eqb_neq in E0.
    destruct (k =? N) eqn:EN.
    { apply Nat.eqb_eq in EN. subst k.
      rewrite HF by (intros; lia). unfold m2. rewrite store_same.
      unfold X. now rewrite Nat.add_0_r. }
    apply Nat.eqb_neq in EN.
    destruct (2 * k <? N) eqn:E2.
    + apply Nat.ltb_lt in E2. rewrite HA by lia.
      rewrite !Hm2 by lia. reflexivity.
    + apply Nat.ltb_ge in E2.
      replace (freqData + k) with (freqData + (N - (N - k))) by lia.
      rewrite HB by lia. rewrite !Hm2 by lia. reflexivity.
  - intros x Hx. rewrite Hcode. rewrite HF by (intros; lia).
    unfold m2. now rewrite !store_other by lia.
Qed.

Lemma fftpp_forward_bins (r : FFTReal.FFTReal (T := R)) (m : mem R)
      (timeData freqData : nat) :
  1 <= FFTReal.size r ->
  let N := FFTReal.size r in
  let X := fun j =>
             forward (FFTReal.fft r) m timeData freqData (freqData + j) in
  forall k, k < N ->
    FFTReal.forward r m timeData freqData (freqData + k)
    = real_bin X (FFTReal.twiddlesCplx r) N k.
Proof.
  intros Hs N X k Hk.
  set (W := FFTReal.twiddlesCplx r).
  set (m1 := forward (FFTReal.fft r) m timeData freqData).
  set (fA := fun (k : nat) (s0 t0 : C) =>
               mkC (halve (add (real (cadd s0 (conj t0)))
                               (real (cmul (csub s0 (conj t0))
                                           (tw_at W (k - 1))))))
                   (halve (add (imag (cadd s0 (conj t0)))
                               (imag (cmul (csub s0 (conj t0))
                                           (tw_at W (k - 1))))))).
  set (fB := fun (k : nat) (s0 t0 : C) =>
               mkC (halve (sub (real (cadd s0 (conj t0)))
                               (real (cmul (csub s0 (conj t0))
                                           (tw_at W (k - 1))))))
                   (halve (sub (imag (cmul (csub s0 (conj t0))
                                           (tw_at W (k - 1))))
                               (imag (cadd s0 (conj t0)))))).
  set (m2 := store (store m1 freqData
                          (mkC (add (real (m1 freqData))
                                    (imag (m1 freqData))) (cast 0)))
                   (freqData + N)
                   (mkC (sub (real (m1 freqData))
                             (imag (m1 freqData))) (cast 0))).
  assert (Hcode : forall x,
            FFTReal.forward r m timeData freqData x
            = memset0 (for_loop (N / 2)
                         (pair_body N freqData freqData fA fB) m2)
                      (freqData + N) N x).
  { intros x. reflexivity. }
  assert (Hsep : forall a b, 1 <= a < N -> 1 <= b < N ->
                   freqData + a = freqData + b -> a = b) by (intros; lia).
  pose proof (Nat.Div0.mul_div_le N 2) as Hhalf.
  pose proof (Nat.div_mod_eq N 2) as Hdm.
  pose proof (Nat.mod_upper_bound N 2 ltac:(lia)) as Hmb.
  destruct (pair_loop_spec N freqData freqData fA fB Hsep m2 (N / 2)
                           (le_n _)) as (HB & HA & HF).
  assert (Hm2 : forall j, 1 <= j < N -> m2 (freqData + j) = X j).
  { intros j Hj. unfold m2, X. now rewrite !store_other by lia. }
  rewrite Hcode, memset0_frame by lia. unfold real_bin.
  destruct (k =? 0) eqn:E0.
  { apply Nat.eqb_eq in E0. subst k.
    rewrite HF by (intros; lia). unfold m2.
    rewrite store_other, Nat.add_0_r, store_same by lia.
    unfold X. now rewrite Nat.add_0_r. }
  apply Nat.eqb_neq in E0.
  replace (k =? N) with false by (symmetry; apply Nat.eqb_neq; lia).
  destruct (2 * k <? N) eqn:E2.
  - apply Nat.ltb_lt in E2. rewrite HA by lia.
    rewrite !Hm2 by lia. reflexivity.
  - apply Nat.ltb_ge in E2.
    replace (freqData + k) with (freqData + (N - (N - k))) by lia.
    rewrite HB by lia. rewrite !Hm2 by lia. reflexivity.
Qed.
Lemma pair_algebra (a b w v : C) :
  cmul w v = cone ->
  let fk := cadd a (conj b) in
  let tw := cmul (csub a (conj b)) w in
  let lo := mkC (halve (add (real fk) (real tw)))
                (halve (add (imag fk) (imag tw))) in
  let hi := mkC (halve (sub (real fk) (real tw)))
                (halve (sub (imag tw) (imag fk))) in
  let fk' := cadd lo (conj hi) in
  let tw' := cmul (csub lo (conj hi)) v in
  cadd fk' tw' = cscale 2 a /\ conj (csub fk' tw') = cscale 2 b.
Proof.
  intros Hwv fk tw lo hi fk' tw'.
  assert (Hf : fk' = fk).
  { subst fk' lo hi. destruct fk as [fr fi], tw as [tr ti].
    apply complex_eq; csimpl; lra. }
  assert (Hg : csub lo (conj hi) = tw).
  { subst lo hi. destruct fk as [fr fi], tw as [tr ti].
    apply complex_eq; csimpl; lra. }
  assert (Ht : tw' = csub a (conj b)).
  { subst tw'. rewrite Hg. subst tw.
    transitivity (cmul (csub a (conj b)) (cmul w v)); [ring|].
    rewrite Hwv. ring. }
  rewrite Hf, Ht. subst fk. destruct a as [ar ai], b as [br bi].
  split; apply complex_eq; csimpl; lra.
Qed.

Lemma middle_algebra (a : C) :
  let w : C := mkC (-1)%R 0%R in
  let fk := cadd a (conj a) in
  let tw := cmul (csub a (conj a)) w in
  let hi := mkC (halve (sub (real fk) (real tw)))
                (halve (sub (imag tw) (imag fk))) in
  let fk' := cadd hi (conj hi) in
  let tw' := cmul (csub hi (conj hi)) w in
  conj (csub fk' tw') = cscale 2 a.
Proof.
  intros w fk tw hi fk' tw'. subst w fk tw hi fk' tw'.
  destruct a as [ar ai]. apply complex_eq; csimpl; lra.
Qed.

Lemma new_FFTRealScratch_fields (fftSize : nat)
      (r : FFTRealScratch.FFTReal (T := R)) :
  FFTRealScratch.new fftSize = Some r ->
  FFTRealScratch.size r = Nat.shiftr fftSize 1 /\
  FFTRealScratch.fft r = new_FFTComplex (FFTRealScratch.size r) /\
  FFTRealScratch.twiddlesFwd r
  = FFTRealScratch.initTwiddleTable (FFTRealScratch.size r) 1 /\
  FFTRealScratch.twiddlesInv r
  = FFTRealScratch.initTwiddleTable (FFTRealScratch.size r) (-1).
Proof.
  unfold FFTRealScratch.new.
  destruct (FFTRealScratch.size_check fftSize); [|discriminate].
  intros [= <-]. repeat split.
Qed.

Lemma scratch_twiddles_inverse (N k : nat) :
  1 <= k <= N ->
  cmul (tw_at (FFTRealScratch.initTwiddleTable (T := R) N 1) (k - 1))
       (tw_at (FFTRealScratch.initTwiddleTable (T := R) N (-1)) (k - 1))
  = cone.
Proof.
  intros Hk. unfold tw_at, FFTRealScratch.initTwiddleTable.
  rewrite !(nth_map_seq _ czero N (k - 1)) by lia.
  set (t := (- PI * (INR (k - 1 + 1) / INR N + 0.5))%R).
  replace (t * IZR 1)%R with t by ring.
  replace (t * IZR (-1))%R with (- t)%R by ring.
  pose proof (sin2_cos2 t) as Hsc. unfold Rsqr in Hsc.
  apply complex_eq; csimpl; rewrite cos_neg, sin_neg; [|ring].
  rewrite <- Hsc. ring.
Qed.

Lemma scratch_twiddles_middle (N k : nat) (s : Z) :
  1 <= k -> 2 * k = N -> s = 1%Z \/ s = (-1)%Z ->
  tw_at (FFTRealScratch.initTwiddleTable (T := R) N s) (k - 1)
  = mkC (-1)%R 0%R.
Proof.
  intros Hk HN Hs. unfold tw_at, FFTRealScratch.initTwiddleTable.
  rewrite (nth_map_seq _ czero N (k - 1)) by lia.
  replace (k - 1 + 1) with k by lia.
  assert (Hk0 : INR k <> 0%R) by (apply not_0_INR; lia).
  rewrite <- HN, mult_INR. change (INR 2) with 2%R.
  assert (Hang : (- PI * (INR k / (2 * INR k) + 0.5) = - PI)%R).
  { replace (INR k / (2 * INR k))%R with (/ 2)%R by (field; assumption).
    lra. }
  rewrite Hang.
  destruct Hs as [-> | ->].
  - replace (- PI * 1)%R with (- PI)%R by ring. ctrig.
  - replace (- PI * -1)%R with PI by ring. ctrig.
Qed.

(* ================================================================== *)
(** * The real transform with scratch buffers: there and back *)
(* ================================================================== *)

Lemma real_bin_low (X : nat -> C) (W : list C) (N k : nat) :
  1 <= k -> 2 * k < N -> real_bin X W N k = recombine_low X W N k.
Proof.
  intros H1 H2. unfold real_bin.
  replace (k =? 0) with false by (symmetry; apply Nat.eqb_neq; lia).
  replace (k =? N) with false by (symmetry; apply Nat.eqb_neq; lia).
  now replace (2 * k <? N) with true by (symmetry; apply Nat.ltb_lt; lia).
Qed.

Lemma real_bin_high (X : nat -> C) (W : list C) (N k : nat) :
  1 <= k < N -> N <= 2 * k ->
  real_bin X W N k = recombine_high X W N (N - k).
Proof.
  intros H1 H2. unfold real_bin.
  replace (k =? 0) with false by (symmetry; apply Nat.eqb_neq; lia).
  replace (k =? N) with false by (symmetry; apply Nat.eqb_neq; lia).
  now replace (2 * k <? N) with false by (symmetry; apply Nat.ltb_ge; lia).
Qed.

Lemma recombine_round (X : nat -> C) (Wf : list C) (v : nat -> C)
      (N j : nat) :
  1 <= j < N ->
  (forall k, 1 <= k < N -> cmul (tw_at Wf (k - 1)) (v k) = cone) ->
  (forall k, 1 <= k -> 2 * k = N ->
     tw_at Wf (k - 1) = mkC (-1)%R 0%R /\ v k = mkC (-1)%R 0%R) ->
  (2 * j < N ->
   cadd (cadd (real_bin X Wf N j) (conj (real_bin X Wf N (N - j))))
        (cmul (csub (real_bin X Wf N j) (conj (real_bin X Wf N (N - j))))
              (v j))
   = cscale 2 (X j)) /\
  (N <= 2 * j ->
   conj (csub (cadd (real_bin X Wf N (N - j)) (conj (real_bin X Wf N j)))
              (cmul (csub (real_bin X Wf N (N - j))
                          (conj (real_bin X Wf N j)))
                    (v (N - j))))
   = cscale 2 (X j)).
Proof.
  intros Hj Hinv Hmid. split; intros H2.
  - rewrite (real_bin_low X Wf N j) by lia.
    rewrite (real_bin_high X Wf N (N - j)) by lia.
    replace (N - (N - j)) with j by lia.
    unfold recombine_low, recombine_high. cbv zeta.
    apply (pair_algebra (X j) (X (N - j)) (tw_at Wf (j - 1)) (v j)).
    apply Hinv. lia.
  - destruct (Nat.eq_dec (2 * j) N) as [Heq|Hne].
    + assert (Hnj : N - j = j) by lia.
      rewrite !Hnj.
      rewrite (real_bin_high X Wf N j) by lia.
      rewrite !Hnj.
      destruct (Hmid j ltac:(lia) Heq) as [Hwf Hwi].
      unfold recombine_high. cbv zeta. rewrite !Hnj, Hwf, Hwi.
      apply (middle_algebra (X j)).
    + rewrite (real_bin_low X Wf N (N - j)) by lia.
      rewrite (real_bin_high X Wf N j) by lia.
      unfold recombine_low, recombine_high. cbv zeta.
      pose proof (pair_algebra (X (N - j)) (X (N - (N - j)))
                    (tw_at Wf (N - j - 1)) (v (N - j))
                    (Hinv (N - j) ltac:(lia))) as [_ Hb].
      cbv zeta in Hb. rewrite Hb. f_equal. f_equal. lia.
Qed.

Lemma dft_scale (inv : bool) (N : nat) (c : R) (x : nat -> C) (n : nat) :
  dft inv N (fun k => cscale c (x k)) n = cscale c (dft inv N x n).
Proof.
  unfold dft.
  transitivity (cmul (mkC c 0%R)
                     (csum N (fun k => cmul (x k) (unit_root inv N (n * k)))));
    [|apply complex_eq; csimpl; ring].
  rewrite <- csum_cmul_l. apply csum_ext. intros k Hk.
  apply complex_eq; csimpl; ring.
Qed.

(** The second half of [inverse]: when the scratch block holds twice
    bin 0 of a complex spectrum [X] in cell 0 and the recombined bins
    of [X] in the other cells, the loop over the pairs rebuilds twice
    [X], and the complex transform follows. *)
Lemma real_inverse_core (N : nat) (X : nat -> C) (W : list C)
      (v : nat -> C) (m2 : mem R) (sp outData : nat) :
  1 <= N ->
  sp + N <= outData \/ outData + N <= sp ->
  (forall k, 1 <= k < N -> cmul (tw_at W (k - 1)) (v k) = cone) ->
  (forall k, 1 <= k -> 2 * k = N ->
     tw_at W (k - 1) = mkC (-1)%R 0%R /\ v k = mkC (-1)%R 0%R) ->
  m2 (sp + 0) = cscale 2 (X 0) ->
  (forall j, 1 <= j < N -> m2 (sp + j) = real_bin X W N j) ->
  forall n, n < N ->
    inverse (new_FFTComplex N)
      (for_loop (N / 2)
         (pair_body N sp sp
            (fun k s0 t0 =>
               cadd (cadd s0 (conj t0)) (cmul (csub s0 (conj t0)) (v k)))
            (fun k s0 t0 =>
               conj (csub (cadd s0 (conj t0))
                          (cmul (csub s0 (conj t0)) (v k)))))
         m2)
      sp outData (outData + n)
    = cscale 2 (dft true N X n).
Proof.
  intros HN Hd Hinv Hmid Hm2_0 Hm2 n Hn.
  set (fA := fun (k : nat) (s0 t0 : C) =>
               cadd (cadd s0 (conj t0)) (cmul (csub s0 (conj t0)) (v k))).
  set (fB := fun (k : nat) (s0 t0 : C) =>
               conj (csub (cadd s0 (conj t0))
                          (cmul (csub s0 (conj t0)) (v k)))).
  set (m3 := for_loop (N / 2) (pair_body N sp sp fA fB) m2).
  rewrite inverse_dft by lia.
  assert (Hsep : forall a b, 1 <= a < N -> 1 <= b < N ->
                   sp + a = sp + b -> a = b) by (intros; lia).
  pose proof (Nat.Div0.mul_div_le N 2) as Hhalf.
  pose proof (Nat.div_mod_eq N 2) as Hdm.
  pose proof (Nat.mod_upper_bound N 2 ltac:(lia)) as Hmb.
  destruct (pair_loop_spec N sp sp fA fB Hsep m2 (N / 2) (le_n _))
    as (HB & HA & HF).
  fold m3 in HB, HA, HF.
  assert (Hm3 : forall j, j < N -> m3 (sp + j) = cscale 2 (X j)).
  { intros j Hj. destruct (Nat.eq_dec j 0) as [->|Hj0].
    - rewrite HF by (intros; lia). exact Hm2_0.
    - destruct (recombine_round X W v N j ltac:(lia) Hinv Hmid)
        as [Hlow Hhigh].
      destruct (Nat.lt_ge_cases (2 * j) N) as [H2|H2].
      + rewrite HA by lia. rewrite !Hm2 by lia. now apply Hlow.
      + replace (sp + j) with (sp + (N - (N - j))) by lia.
        rewrite HB by lia. rewrite !Hm2 by lia.
        replace (N - (N - j)) with j by lia. now apply Hhigh. }
  rewrite (dft_ext true N _ (fun k => cscale 2 (X k))) by exact Hm3.
  apply dft_scale.
Qed.

(** X13: for the variant of [FFTReal] that works in scratch buffers,
    on exact samples, [inverse] applied to the [N + 1] bins written by
    [forward] returns every one of the [2 N] real samples multiplied by
    [2 N]: the round trip scales by the transform size and nothing
    else.  (Cell [n] of a time buffer holds samples [2n] and [2n+1].) *)
Theorem scratch_real_round_trip
        (fftSize : nat) (r : FFTRealScratch.FFTReal (T := R)) (m : mem R)
        (timeData freqData sp outData sp2 : nat) :
  FFTRealScratch.new fftSize = Some r ->
  let N := FFTRealScratch.size r in
  1 <= N ->
  timeData + N <= sp \/ sp + N <= timeData ->
  freqData + N + 1 <= sp \/ sp + N <= freqData ->
  freqData + N + 1 <= sp2 \/ sp2 + N <= freqData ->
  sp2 + N <= outData \/ outData + N <= sp2 ->
  forall n, n < N ->
    FFTRealScratch.inverse r
      (FFTRealScratch.forward r m timeData freqData sp)
      freqData outData sp2 (outData + n)
    = cscale (INR (2 * N)) (m (timeData + n)).
Proof.
  intros Hnew N HN Hd1 Hd2 Hd3 Hd4 n Hn.
  destruct (new_FFTRealScratch_fields fftSize r Hnew)
    as (_ & Hfft & HWf & HWi).
  fold N in Hfft, HWf, HWi.
  set (Wf := FFTRealScratch.twiddlesFwd r) in *.
  set (Wi := FFTRealScratch.twiddlesInv r) in *.
  set (mF := FFTRealScratch.forward r m timeData freqData sp).
  set (X := fun j => forward (FFTRealScratch.fft r) m timeData sp (sp + j)).
  destruct (scratch_forward_bins r m timeData freqData sp HN Hd2)
    as [Hbins _].
  fold N mF X Wf in Hbins.
  assert (HX : forall j, j < N ->
                 X j = dft false N (fun i => m (timeData + i)) j).
  { intros j Hj. unfold X. rewrite Hfft. now apply forward_dft. }
  set (m1 := store mF sp2
               (mkC (add (real (mF freqData)) (real (mF (freqData + N))))
                    (sub (real (mF freqData)) (real (mF (freqData + N)))))).
  set (m2 := memcpy m1 (sp2 + 1) (freqData + 1) (N - 1)).
  assert (Hcode :
            FFTRealScratch.inverse r mF freqData outData sp2 (outData + n)
            = inverse (FFTRealScratch.fft r)
                (for_loop (N / 2)
                   (pair_body N sp2 sp2
                      (fun k s0 t0 =>
                         cadd (cadd s0 (conj t0))
                              (cmul (csub s0 (conj t0))
                                    ((fun k => tw_at Wi (k - 1)) k)))
                      (fun k s0 t0 =>
                         conj (csub (cadd s0 (conj t0))
                                    (cmul (csub s0 (conj t0))
                                          ((fun k => tw_at Wi (k - 1)) k)))))
                   m2)
                sp2 outData (outData + n)) by reflexivity.
  rewrite Hcode, Hfft.
  rewrite (real_inverse_core N X Wf (fun k => tw_at Wi (k - 1)) m2
                             sp2 outData HN Hd4).
  - rewrite (dft_ext true N X (dft false N (fun i => m (timeData + i))))
      by exact HX.
    rewrite (dft_inversion N n (fun i => m (timeData + i))) by assumption.
    rewrite mult_INR. change (INR 2) with 2%R.
    apply complex_eq; csimpl; ring.
  - intros k Hk. rewrite HWf, HWi. apply scratch_twiddles_inverse. lia.
  - intros k Hk H2. rewrite HWf, HWi.
    split; apply scratch_twiddles_middle; auto.
  - unfold m2. rewrite memcpy_frame by lia. unfold m1.
    rewrite Nat.add_0_r, store_same.
    pose proof (Hbins 0 ltac:(lia)) as H0.
    pose proof (Hbins N ltac:(lia)) as HNb.
    rewrite Nat.add_0_r in H0. rewrite H0, HNb. unfold real_bin.
    cbn [Nat.eqb].
    replace (N =? 0) with false by (symmetry; apply Nat.eqb_neq; lia).
    rewrite Nat.eqb_refl. destruct (X 0) as [xr xi].
    apply complex_eq; csimpl; lra.
  - intros j Hj. unfold m2.
    replace (sp2 + j) with (sp2 + 1 + (j - 1)) by lia.
    rewrite memcpy_copied by lia. unfold m1.
    rewrite store_other by lia.
    replace (freqData + 1 + (j - 1)) with (freqData + j) by lia.
    apply Hbins. lia.
  - assumption.
Qed.

Lemma scratch_real_round_trip_witness :
  option_map
    (fun r =>
       FFTRealScratch.inverse r
         (FFTRealScratch.forward r (fun a => mkC (INR a) 1%R) 0 10 20)
         10 0 20 (0 + 5))
    (FFTRealScratch.new 12)
  = Some (cscale (INR (2 * 6)) (mkC (INR (0 + 5)) 1%R)).
Proof.
  destruct (FFTRealScratch.new (T := R) 12) as [r|] eqn:Hnew; [|discriminate].
  pose proof (new_FFTRealScratch_fields 12 r Hnew) as (Hsize & _).
  change (Nat.shiftr 12 1) with 6 in Hsize.
  cbn [option_map]. f_equal.
  replace (2 * 6) with (2 * FFTRealScratch.size r)
    by (rewrite Hsize; reflexivity).
  apply (scratch_real_round_trip 12 r (fun a => mkC (INR a) 1%R)
                                 0 10 20 0 20 Hnew); rewrite Hsize; lia.
Defined.

(* ================================================================== *)
(** * The real transform is the transform of the real samples *)
(* ================================================================== *)

Lemma csum_even_odd (N : nat) (f : nat -> C) :
  csum (2 * N) f = csum N (fun n => cadd (f (2 * n)) (f (2 * n + 1))).
Proof.
  induction N as [|N IH]; [reflexivity|].
  replace (2 * S N) with (S (S (2 * N))) by lia.
  cbn [csum]. rewrite IH.
  replace (S (2 * N)) with (2 * N + 1) by lia. ring.
Qed.

Lemma unit_root_double (inv : bool) (N j : nat) :
  1 <= N -> unit_root inv (2 * N) (2 * j) = unit_root inv N j.
Proof.
  intros HN. pose proof (INR_pos_nonzero N HN). unfold unit_root.
  f_equal. rewrite !mult_INR. change (INR 2) with 2%R. now field.
Qed.

Lemma real_samples_even (z : nat -> C) (n : nat) :
  real_samples z (2 * n) = mkC (real (z n)) 0%R.
Proof.
  unfold real_samples.
  replace (Nat.even (2 * n)) with true
    by (symmetry; apply Nat.even_spec; now exists n).
  now rewrite (Nat.mul_comm 2 n), Nat.div_mul by lia.
Qed.

Lemma real_samples_odd (z : nat -> C) (n : nat) :
  real_samples z (2 * n + 1) = mkC (imag (z n)) 0%R.
Proof.
  unfold real_samples.
  replace (Nat.even (2 * n + 1)) with false
    by (symmetry; rewrite <- Nat.negb_odd; apply Bool.negb_false_iff,
        Nat.odd_spec; now exists n).
  replace ((2 * n + 1) / 2) with n; [reflexivity|].
  apply (Nat.div_unique (2 * n + 1) 2 n 1); lia.
Qed.

(** The transform of [2 N] real samples from the transforms of the
    even and of the odd samples. *)
Lemma real_dft_split (N k : nat) (z : nat -> C) :
  1 <= N ->
  dft false (2 * N) (real_samples z) k
  = cadd (dft false N (fun n => mkC (real (z n)) 0%R) k)
         (cmul (unit_root false (2 * N) k)
               (dft false N (fun n => mkC (imag (z n)) 0%R) k)).
Proof.
  intros HN. unfold dft. rewrite csum_even_odd, <- csum_cmul_l, <- csum_add.
  apply csum_ext. intros n _.
  rewrite real_samples_even, real_samples_odd.
  replace (k * (2 * n)) with (2 * (k * n)) by lia.
  replace (k * (2 * n + 1)) with (2 * (k * n) + k) by lia.
  rewrite unit_root_add, unit_root_double by assumption. ring.
Qed.

Lemma dft_parts (N k : nat) (z : nat -> C) :
  dft false N z k
  = cadd (dft false N (fun n => mkC (real (z n)) 0%R) k)
         (cmul (mkC 0%R 1%R)
               (dft false N (fun n => mkC (imag (z n)) 0%R) k)).
Proof.
  unfold dft. rewrite <- csum_cmul_l, <- csum_add.
  apply csum_ext. intros n _. destruct (z n) as [a b].
  apply complex_eq; csimpl; ring.
Qed.

Lemma conj_cadd (a b : C) : conj (cadd a b) = cadd (conj a) (conj b).
Proof. apply complex_eq; csimpl; ring. Qed.

Lemma conj_cmul (a b : C) : conj (cmul a b) = cmul (conj a) (conj b).
Proof. apply complex_eq; csimpl; ring. Qed.

Lemma conj_csum (n : nat) (f : nat -> C) :
  conj (csum n f) = csum n (fun i => conj (f i)).
Proof.
  induction n as [|n IH]; cbn [csum].
  - apply complex_eq; csimpl; ring.
  - now rewrite conj_cadd, IH.
Qed.

Lemma conj_unit_root (N j : nat) :
  conj (unit_root false N j) = unit_root true N j.
Proof.
  unfold unit_root.
  replace (-2 * PI * INR j / INR N)%R with (- (2 * PI * INR j / INR N))%R
    by (unfold Rdiv; ring).
  apply complex_eq; csimpl; rewrite ?cos_neg, ?sin_neg; ring.
Qed.

Lemma unit_root_mirror (N k n : nat) :
  1 <= N -> k <= N ->
  unit_root true N ((N - k) * n) = unit_root false N (k * n).
Proof.
  intros HN Hk.
  transitivity (cmul (unit_root true N ((N - k) * n))
                     (unit_root false N (n * N))).
  { rewrite unit_root_mul_N by assumption. ring. }
  replace (n * N) with ((N - k) * n + k * n) by nia.
  rewrite unit_root_add.
  transitivity (cmul (cmul (unit_root true N ((N - k) * n))
                           (unit_root false N ((N - k) * n)))
                     (unit_root false N (k * n))); [ring|].
  rewrite unit_root_conj. ring.
Qed.

(** The mirrored bin of a complex transform, conjugated, is the bin of
    the conjugated input. *)
Lemma conj_dft_mirror (N k : nat) (z : nat -> C) :
  1 <= N -> k <= N ->
  conj (dft false N z (N - k)) = dft false N (fun n => conj (z n)) k.
Proof.
  intros HN Hk. unfold dft. rewrite conj_csum. apply csum_ext. intros n _.
  now rewrite conj_cmul, conj_unit_root, unit_root_mirror.
Qed.

Lemma conj_dft_mirror_parts (N k : nat) (z : nat -> C) :
  1 <= N -> k <= N ->
  conj (dft false N z (N - k))
  = csub (dft false N (fun n => mkC (real (z n)) 0%R) k)
         (cmul (mkC 0%R 1%R)
               (dft false N (fun n => mkC (imag (z n)) 0%R) k)).
Proof.
  intros HN Hk. rewrite conj_dft_mirror by assumption.
  rewrite (dft_parts N k (fun n => conj (z n))).
  transitivity
    (cadd (dft false N (fun n => mkC (real (z n)) 0%R) k)
          (cmul (mkC 0%R 1%R)
                (cmul (mkC (-1)%R 0%R)
                      (dft false N (fun n => mkC (imag (z n)) 0%R) k))));
    [|ring_simplify; apply complex_eq; csimpl; ring].
  f_equal. f_equal. unfold dft. rewrite <- csum_cmul_l.
  apply csum_ext. intros n _. apply complex_eq; csimpl; ring.
Qed.

Lemma unit_root_mirror_half (N k : nat) :
  1 <= N -> k <= N ->
  unit_root true (2 * N) (N - k)
  = cmul (mkC (-1)%R 0%R) (unit_root false (2 * N) k).
Proof.
  intros HN Hk.
  assert (Hhalf : cmul (unit_root false (2 * N) (N - k))
                       (unit_root false (2 * N) k) = mkC (-1)%R 0%R).
  { rewrite <- unit_root_add. replace (N - k + k) with N by lia.
    apply unit_root_half; lia. }
  transitivity (cmul (cmul (mkC (-1)%R 0%R) (unit_root true (2 * N) (N - k)))
                     (cmul (unit_root false (2 * N) (N - k))
                           (unit_root false (2 * N) k)));
    [rewrite Hhalf; apply complex_eq; csimpl; ring|].
  transitivity (cmul (cmul (mkC (-1)%R 0%R)
                           (cmul (unit_root true (2 * N) (N - k))
                                 (unit_root false (2 * N) (N - k))))
                     (unit_root false (2 * N) k)); [ring|].
  rewrite unit_root_conj. ring.
Qed.

(** The table of [FFTReal]: entry [k - 1] is [- i] times the [k]-th
    power of the root of unity of order [2 N]. *)
Lemma real_twiddle_angle (N k : nat) :
  1 <= N ->
  cexp (- PI * (INR (k - 1 + 1) / INR N + 0.5))%R
  = cmul (mkC 0%R (-1)%R) (unit_root false (2 * N) (k - 1 + 1)).
Proof.
  intros HN. pose proof (INR_pos_nonzero N HN) as HN0.
  unfold unit_root. rewrite mult_INR. change (INR 2) with 2%R.
  set (j := INR (k - 1 + 1)).
  replace (- PI * (j / INR N + 0.5))%R
    with (-2 * PI * j / (2 * INR N) + - (PI / 2))%R.
  2:{ replace 0.5%R with (/ 2)%R by lra. now field. }
  apply complex_eq; csimpl;
    rewrite ?cos_plus, ?sin_plus, ?cos_neg, ?sin_neg, ?cos_PI2, ?sin_PI2;
    ring.
Qed.

Lemma fftpp_twiddle_root (fftSize : nat) (r : FFTReal.FFTReal (T := R))
      (k : nat) :
  FFTReal.new fftSize = Some r ->
  1 <= k <= FFTReal.size r ->
  tw_at (FFTReal.twiddlesCplx r) (k - 1)
  = cmul (mkC 0%R (-1)%R) (unit_root false (2 * FFTReal.size r) k).
Proof.
  unfold FFTReal.new.
  destruct (FFTReal.size_check fftSize); [|discriminate].
  intros [= <-]. cbn [FFTReal.size FFTReal.twiddlesCplx]. intros Hk.
  unfold tw_at. rewrite (nth_map_seq _ czero _ (k - 1)) by lia.
  rewrite real_twiddle_angle by lia. now replace (k - 1 + 1) with k by lia.
Qed.

Lemma scratch_twiddle_root (N k : nat) :
  1 <= k <= N ->
  tw_at (FFTRealScratch.initTwiddleTable (T := R) N 1) (k - 1)
  = cmul (mkC 0%R (-1)%R) (unit_root false (2 * N) k).
Proof.
  intros Hk. unfold tw_at, FFTRealScratch.initTwiddleTable.
  rewrite (nth_map_seq _ czero _ (k - 1)) by lia.
  rewrite Rmult_1_r, real_twiddle_angle by lia.
  now replace (k - 1 + 1) with k by lia.
Qed.

(** What the first assignment of iteration [k] computes is bin [k] of
    the transform of the real samples. *)
Lemma recombine_low_dft (N k : nat) (z : nat -> C) (W : list C) :
  1 <= k < N ->
  tw_at W (k - 1) = cmul (mkC 0%R (-1)%R) (unit_root false (2 * N) k) ->
  recombine_low (dft false N z) W N k
  = dft false (2 * N) (real_samples z) k.
Proof.
  intros Hk HW. unfold recombine_low. cbv zeta.
  rewrite HW, conj_dft_mirror_parts, real_dft_split by lia.
  rewrite (dft_parts N k z).
  set (E := dft false N (fun n => mkC (real (z n)) 0%R) k).
  set (O := dft false N (fun n => mkC (imag (z n)) 0%R) k).
  set (u := unit_root false (2 * N) k).
  destruct E as [er ei], O as [or oi], u as [ur ui].
  apply complex_eq; csimpl; lra.
Qed.

(** The second assignment of iteration [N - k] computes the same
    value as the first assignment of iteration [k] would. *)
Lemma recombine_high_low (N k : nat) (X : nat -> C) (W : list C) :
  1 <= k < N ->
  conj (tw_at W (N - k - 1)) = tw_at W (k - 1) ->
  recombine_high X W N (N - k) = recombine_low X W N k.
Proof.
  intros Hk HW. unfold recombine_high, recombine_low. cbv zeta.
  replace (N - (N - k)) with k by lia. rewrite <- HW.
  destruct (X k) as [a b], (X (N - k)) as [c d],
           (tw_at W (N - k - 1)) as [wr wi].
  apply complex_eq; csimpl; lra.
Qed.

Lemma csum_real_valued (n : nat) (g : nat -> R) :
  imag (csum n (fun i => mkC (g i) 0%R)) = 0%R.
Proof.
  induction n as [|n IH]; cbn [csum]; csimpl; [reflexivity|].
  rewrite IH. ring.
Qed.

Lemma dft_bin_0 (inv : bool) (N : nat) (x : nat -> C) :
  dft inv N x 0 = csum N x.
Proof.
  unfold dft. apply csum_ext. intros n _. cbn [Nat.mul].
  rewrite unit_root_0. ring.
Qed.

Lemma dft_bin_N (inv : bool) (N : nat) (x : nat -> C) :
  1 <= N -> dft inv N x N = csum N x.
Proof.
  intros HN. unfold dft. apply csum_ext. intros n _.
  rewrite (Nat.mul_comm N n), unit_root_mul_N by assumption. ring.
Qed.

(** The [N + 1] bins the loops of [forward] compute from the complex
    transform of the buffer are the first [N + 1] bins of the
    transform of its [2 N] real samples. *)
Lemma real_bin_dft (N k : nat) (z : nat -> C) (W : list C) :
  1 <= N -> k <= N ->
  (forall j, 1 <= j < N ->
     tw_at W (j - 1) = cmul (mkC 0%R (-1)%R) (unit_root false (2 * N) j)) ->
  real_bin (dft false N z) W N k = dft false (2 * N) (real_samples z) k.
Proof.
  intros HN Hk HW. unfold real_bin.
  pose proof (csum_real_valued N (fun n => real (z n))) as HE.
  pose proof (csum_real_valued N (fun n => imag (z n))) as HO.
  destruct (Nat.eqb_spec k 0) as [->|Hk0].
  { rewrite real_dft_split, (dft_parts N 0 z), !dft_bin_0, unit_root_0
      by assumption.
    set (E := csum N (fun n => mkC (real (z n)) 0%R)) in *.
    set (O := csum N (fun n => mkC (imag (z n)) 0%R)) in *.
    destruct E as [er ei], O as [or oi]. cbn [imag] in HE, HO. subst ei oi.
    apply complex_eq; csimpl; lra. }
  destruct (Nat.eqb_spec k N) as [->|HkN].
  { rewrite real_dft_split, (dft_parts N 0 z), !dft_bin_0, !dft_bin_N
      by assumption.
    rewrite (unit_root_half false (2 * N) N) by lia.
    set (E := csum N (fun n => mkC (real (z n)) 0%R)) in *.
    set (O := csum N (fun n => mkC (imag (z n)) 0%R)) in *.
    destruct E as [er ei], O as [or oi]. cbn [imag] in HE, HO. subst ei oi.
    apply complex_eq; csimpl; lra. }
  destruct (Nat.ltb_spec (2 * k) N) as [H2|H2].
  - apply recombine_low_dft; [lia|]. apply HW. lia.
  - rewrite recombine_high_low by
      (try lia; rewrite !HW by lia; rewrite conj_cmul, conj_unit_root,
         unit_root_mirror_half by lia; apply complex_eq; csimpl; ring).
    apply recombine_low_dft; [lia|]. apply HW. lia.
Qed.

Lemma real_bin_ext (X Y : nat -> C) (W : list C) (N k : nat) :
  1 <= N -> k <= N -> (forall j, j < N -> X j = Y j) ->
  real_bin X W N k = real_bin Y W N k.
Proof.
  intros HN Hk HXY. unfold real_bin, recombine_low, recombine_high. cbv zeta.
  rewrite (HXY 0) by lia.
  destruct (Nat.eqb_spec k 0); [reflexivity|].
  destruct (Nat.eqb_spec k N); [reflexivity|].
  replace (N - (N - k)) with k by lia.
  rewrite (HXY k), (HXY (N - k)) by lia. reflexivity.
Qed.

(** X14: on exact samples, [forward] of the variant of [FFTReal] with
    scratch buffers leaves in [freqData[k]], for every [k] from 0 to
    [N] included, bin [k] of the discrete Fourier transform of the
    [2 N] real samples of [timeData]: the sum over [n < 2 N] of
    [x n * exp (- 2 pi i k n / (2 N))]. *)
Theorem scratch_real_forward_is_dft
        (fftSize : nat) (r : FFTRealScratch.FFTReal (T := R)) (m : mem R)
        (timeData freqData sp : nat) :
  FFTRealScratch.new fftSize = Some r ->
  let N := FFTRealScratch.size r in
  1 <= N ->
  timeData + N <= sp \/ sp + N <= timeData ->
  freqData + N + 1 <= sp \/ sp + N <= freqData ->
  forall k, k <= N ->
    FFTRealScratch.forward r m timeData freqData sp (freqData + k)
    = dft false (2 * N) (real_samples (fun n => m (timeData + n))) k.
Proof.
  intros Hnew N HN Hd1 Hd2 k Hk.
  destruct (new_FFTRealScratch_fields fftSize r Hnew)
    as (_ & Hfft & HWf & _).
  fold N in Hfft, HWf.
  destruct (scratch_forward_bins r m timeData freqData sp HN Hd2)
    as [Hbins _].
  fold N in Hbins. rewrite Hbins by assumption.
  rewrite (real_bin_ext _ (dft false N (fun n => m (timeData + n))))
    by (try assumption; intros j Hj; rewrite Hfft; now apply forward_dft).
  apply real_bin_dft; try assumption.
  intros j Hj. rewrite HWf. apply scratch_twiddle_root. lia.
Qed.

Lemma scratch_real_forward_is_dft_witness :
  option_map
    (fun r =>
       FFTRealScratch.forward r (fun a => mkC (INR a) 1%R) 0 10 20 (10 + 6))
    (FFTRealScratch.new 12)
  = Some (dft false (2 * 6)
              (real_samples (fun n => mkC (INR (0 + n)) 1%R)) 6).
Proof.
  destruct (FFTRealScratch.new (T := R) 12) as [r|] eqn:Hnew; [|discriminate].
  pose proof (new_FFTRealScratch_fields 12 r Hnew) as (Hsize & _).
  change (Nat.shiftr 12 1) with 6 in Hsize.
  cbn [option_map]. f_equal.
  replace (2 * 6) with (2 * FFTRealScratch.size r)
    by (rewrite Hsize; reflexivity).
  apply (scratch_real_forward_is_dft 12 r (fun a => mkC (INR a) 1%R)
                                     0 10 20 Hnew); rewrite Hsize; lia.
Defined.

Lemma fftpp_forward_bins_dft
      (fftSize : nat) (r : FFTReal.FFTReal (T := R)) (m : mem R)
      (timeData freqData : nat) :
  FFTReal.new fftSize = Some r ->
  1 <= FFTReal.size r ->
  timeData + FFTReal.size r <= freqData \/
  freqData + FFTReal.size r <= timeData ->
  forall k, k < FFTReal.size r ->
    FFTReal.forward r m timeData freqData (freqData + k)
    = real_bin (dft false (FFTReal.size r) (fun n => m (timeData + n)))
               (FFTReal.twiddlesCplx r) (FFTReal.size r) k.
Proof.
  intros Hnew HN Hd k Hk.
  destruct (new_FFTReal_fields fftSize r Hnew) as (_ & Hfft & _).
  rewrite (fftpp_forward_bins r m timeData freqData HN k Hk).
  apply real_bin_ext; try lia.
  intros j Hj. rewrite Hfft. now apply forward_dft.
Qed.

(** X15: on exact samples, [fftpp::FFTReal::forward] leaves in
    [freqData[k]], for every [k] below [N], bin [k] of the discrete
    Fourier transform of the [2 N] real samples of [timeData]. *)
Theorem real_forward_is_dft
        (fftSize : nat) (r : FFTReal.FFTReal (T := R)) (m : mem R)
        (timeData freqData : nat) :
  FFTReal.new fftSize = Some r ->
  let N := FFTReal.size r in
  1 <= N ->
  timeData + N <= freqData \/ freqData + N <= timeData ->
  forall k, k < N ->
    FFTReal.forward r m timeData freqData (freqData + k)
    = dft false (2 * N) (real_samples (fun n => m (timeData + n))) k.
Proof.
  intros Hnew N HN Hd k Hk.
  rewrite (fftpp_forward_bins_dft fftSize r m timeData freqData Hnew HN Hd
                                  k Hk).
  apply real_bin_dft; try lia.
  intros j Hj. apply (fftpp_twiddle_root fftSize r j Hnew). fold N. lia.
Qed.

Lemma real_forward_is_dft_witness :
  option_map
    (fun r => FFTReal.forward r (fun a => mkC (INR a) 1%R) 0 10 (10 + 3))
    (FFTReal.new 8)
  = Some (dft false (2 * 4)
              (real_samples (fun n => mkC (INR (0 + n)) 1%R)) 3).
Proof.
  destruct (FFTReal.new (T := R) 8) as [r|] eqn:Hnew; [|discriminate].
  pose proof (new_FFTReal_fields 8 r Hnew) as (Hsize & _).
  change (Nat.shiftr 8 1) with 4 in Hsize.
  cbn [option_map]. f_equal.
  replace (2 * 4) with (2 * FFTReal.size r) by (rewrite Hsize; reflexivity).
  apply (real_forward_is_dft 8 r (fun a => mkC (INR a) 1%R) 0 10 Hnew);
    rewrite Hsize; lia.
Defined.

Lemma fftpp_twiddles_inverse (fftSize : nat) (r : FFTReal.FFTReal (T := R))
      (k : nat) :
  FFTReal.new fftSize = Some r ->
  1 <= k <= FFTReal.size r ->
  cmul (tw_at (FFTReal.twiddlesCplx r) (k - 1))
       (conj (tw_at (FFTReal.twiddlesCplx r) (k - 1))) = cone.
Proof.
  intros Hnew Hk. rewrite (fftpp_twiddle_root fftSize r k Hnew Hk).
  rewrite conj_cmul, conj_unit_root.
  transitivity (cmul (cmul (mkC 0%R (-1)%R) (conj (mkC 0%R (-1)%R)))
                     (cmul (unit_root true (2 * FFTReal.size r) k)
                           (unit_root false (2 * FFTReal.size r) k)));
    [ring|].
  rewrite unit_root_conj. apply complex_eq; csimpl; ring.
Qed.

Lemma fftpp_twiddles_middle (fftSize : nat) (r : FFTReal.FFTReal (T := R))
      (k : nat) :
  FFTReal.new fftSize = Some r ->
  1 <= k -> 2 * k = FFTReal.size r ->
  tw_at (FFTReal.twiddlesCplx r) (k - 1) = mkC (-1)%R 0%R.
Proof.
  intros Hnew Hk H2. rewrite (fftpp_twiddle_root fftSize r k Hnew) by lia.
  rewrite (unit_root_quarter false (2 * FFTReal.size r) k) by lia.
  apply complex_eq; csimpl; ring.
Qed.

(** X16: on exact samples, [fftpp::FFTReal::inverse] called with
    [inPlace = false] on the [N + 1] bins of the discrete Fourier
    transform of [2 N] real samples writes those samples, each
    multiplied by [2 N], to [timeData]. *)
Theorem real_inverse_of_dft
        (fftSize : nat) (r : FFTReal.FFTReal (T := R)) (m : mem R)
        (z : nat -> C) (freqData timeData sp : nat) :
  FFTReal.new fftSize = Some r ->
  let N := FFTReal.size r in
  1 <= N ->
  freqData + N + 1 <= sp \/ sp + N <= freqData ->
  sp + N <= timeData \/ timeData + N <= sp ->
  (forall k, k <= N ->
     m (freqData + k) = dft false (2 * N) (real_samples z) k) ->
  forall n, n < N ->
    FFTReal.inverse r m freqData timeData false sp (timeData + n)
    = cscale (INR (2 * N)) (z n).
Proof.
  intros Hnew N HN Hd1 Hd2 Hm n Hn.
  destruct (new_FFTReal_fields fftSize r Hnew) as (_ & Hfft & _).
  fold N in Hfft.
  set (W := FFTReal.twiddlesCplx r).
  set (X := dft false N z).
  assert (Hbins : forall k, k <= N -> m (freqData + k) = real_bin X W N k).
  { intros k Hk. rewrite Hm by assumption. symmetry.
    apply real_bin_dft; try assumption.
    intros j Hj. apply (fftpp_twiddle_root fftSize r j Hnew). fold N. lia. }
  set (m1 := store m sp
               (mkC (add (real (m freqData)) (real (m (freqData + N))))
                    (sub (real (m freqData)) (real (m (freqData + N)))))).
  set (m2 := memcpy m1 (sp + 1) (freqData + 1) (N - 1)).
  assert (Hcode :
            FFTReal.inverse r m freqData timeData false sp (timeData + n)
            = inverse (FFTReal.fft r)
                (for_loop (N / 2)
                   (pair_body N sp sp
                      (fun k s0 t0 =>
                         cadd (cadd s0 (conj t0))
                              (cmul (csub s0 (conj t0))
                                    ((fun k => conj (tw_at W (k - 1))) k)))
                      (fun k s0 t0 =>
                         conj (csub (cadd s0 (conj t0))
                                    (cmul (csub s0 (conj t0))
                                          ((fun k => conj (tw_at W (k - 1)))
                                             k)))))
                   m2)
                sp timeData (timeData + n)) by reflexivity.
  rewrite Hcode, Hfft.
  rewrite (real_inverse_core N X W (fun k => conj (tw_at W (k - 1))) m2
                             sp timeData HN Hd2).
  - unfold X. rewrite (dft_inversion N n z) by assumption.
    rewrite mult_INR. change (INR 2) with 2%R.
    apply complex_eq; csimpl; ring.
  - intros k Hk. apply (fftpp_twiddles_inverse fftSize r k Hnew). fold N. lia.
  - intros k Hk H2.
    pose proof (fftpp_twiddles_middle fftSize r k Hnew Hk H2) as Hmd.
    fold W in Hmd. rewrite Hmd.
    split; [reflexivity|]. apply complex_eq; csimpl; ring.
  - unfold m2. rewrite memcpy_frame by lia. unfold m1.
    rewrite Nat.add_0_r, store_same.
    pose proof (Hbins 0 ltac:(lia)) as H0.
    pose proof (Hbins N ltac:(lia)) as HNb.
    rewrite Nat.add_0_r in H0. rewrite H0, HNb. unfold real_bin.
    cbn [Nat.eqb].
    replace (N =? 0) with false by (symmetry; apply Nat.eqb_neq; lia).
    rewrite Nat.eqb_refl. destruct (X 0) as [xr xi].
    apply complex_eq; csimpl; lra.
  - intros j Hj. unfold m2.
    replace (sp + j) with (sp + 1 + (j - 1)) by lia.
    rewrite memcpy_copied by lia. unfold m1.
    rewrite store_other by lia.
    replace (freqData + 1 + (j - 1)) with (freqData + j) by lia.
    apply Hbins. lia.
  - assumption.
Qed.

Lemma real_inverse_of_dft_witness :
  option_map
    (fun r =>
       FFTReal.inverse r
         (fun a => dft false (2 * 4)
                       (real_samples (fun n => mkC (INR n) 1%R)) (a - 10))
         10 0 false 20 (0 + 3))
    (FFTReal.new 8)
  = Some (cscale (INR (2 * 4)) (mkC (INR 3) 1%R)).
Proof.
  destruct (FFTReal.new (T := R) 8) as [r|] eqn:Hnew; [|discriminate].
  pose proof (new_FFTReal_fields 8 r Hnew) as (Hsize & _).
  change (Nat.shiftr 8 1) with 4 in Hsize.
  cbn [option_map]. f_equal.
  replace (2 * 4) with (2 * FFTReal.size r) by (rewrite Hsize; reflexivity).
  apply (real_inverse_of_dft 8 r _ (fun n => mkC (INR n) 1%R) 10 0 20 Hnew);
    try (rewrite Hsize; lia).
  intros k Hk. now replace (10 + k - 10) with k by lia.
Defined.

(* ================================================================== *)
(** * What the first packed cell costs *)
(* ================================================================== *)

Lemma dft_change_first (inv : bool) (N n : nat) (X Y : nat -> C) :
  1 <= N -> (forall j, 1 <= j < N -> Y j = X j) ->
  dft inv N Y n = cadd (dft inv N X n) (csub (Y 0) (X 0)).
Proof.
  intros HN HXY. destruct N as [|N]; [lia|].
  unfold dft. rewrite !csum_shift, Nat.mul_0_r, unit_root_0.
  rewrite (csum_ext N (fun i => cmul (Y (S i)) (unit_root inv (S N) (n * S i)))
                    (fun i => cmul (X (S i)) (unit_root inv (S N) (n * S i))))
    by (intros i Hi; rewrite HXY by lia; reflexivity).
  ring.
Qed.

Lemma real_bin_ext_inner (X Y : nat -> C) (W : list C) (N k : nat) :
  1 <= k < N -> (forall j, 1 <= j < N -> X j = Y j) ->
  real_bin X W N k = real_bin Y W N k.
Proof.
  intros Hk HXY. unfold real_bin, recombine_low, recombine_high. cbv zeta.
  replace (k =? 0) with false by (symmetry; apply Nat.eqb_neq; lia).
  replace (k =? N) with false by (symmetry; apply Nat.eqb_neq; lia).
  replace (N - (N - k)) with k by lia.
  rewrite (HXY k), (HXY (N - k)) by lia. reflexivity.
Qed.

(** The second half of [inverse] again, for any content [c0] of the
    first cell of the scratch block: what differs from twice bin 0 of
    the spectrum is added to every output cell. *)
Lemma real_inverse_core_first (N : nat) (X : nat -> C) (W : list C)
      (v : nat -> C) (c0 : C) (m2 : mem R) (sp outData : nat) :
  1 <= N ->
  sp + N <= outData \/ outData + N <= sp ->
  (forall k, 1 <= k < N -> cmul (tw_at W (k - 1)) (v k) = cone) ->
  (forall k, 1 <= k -> 2 * k = N ->
     tw_at W (k - 1) = mkC (-1)%R 0%R /\ v k = mkC (-1)%R 0%R) ->
  m2 (sp + 0) = c0 ->
  (forall j, 1 <= j < N -> m2 (sp + j) = real_bin X W N j) ->
  forall n, n < N ->
    inverse (new_FFTComplex N)
      (for_loop (N / 2)
         (pair_body N sp sp
            (fun k s0 t0 =>
               cadd (cadd s0 (conj t0)) (cmul (csub s0 (conj t0)) (v k)))
            (fun k s0 t0 =>
               conj (csub (cadd s0 (conj t0))
                          (cmul (csub s0 (conj t0)) (v k)))))
         m2)
      sp outData (outData + n)
    = cadd (cscale 2 (dft true N X n)) (csub c0 (cscale 2 (X 0))).
Proof.
  intros HN Hd Hinv Hmid Hm0 Hm2 n Hn.
  set (Y := fun j => if j =? 0 then cscale (/ 2) c0 else X j).
  assert (HY : forall j, 1 <= j < N -> Y j = X j).
  { intros j Hj. unfold Y.
    now replace (j =? 0) with false by (symmetry; apply Nat.eqb_neq; lia). }
  rewrite (real_inverse_core N Y W v m2 sp outData HN Hd Hinv Hmid).
  - rewrite (dft_change_first true N n X Y HN HY).
    change (Y 0) with (cscale (/ 2) c0).
    destruct (dft true N X n) as [a b], c0 as [c d], (X 0) as [e f].
    apply complex_eq; csimpl; lra.
  - rewrite Hm0. change (Y 0) with (cscale (/ 2) c0).
    destruct c0 as [c d]. apply complex_eq; csimpl; lra.
  - intros j Hj. rewrite Hm2 by assumption.
    apply real_bin_ext_inner; [assumption|].
    intros i Hi. symmetry. now apply HY.
  - assumption.
Qed.

(** X17: what the cleared bin costs.  On exact samples,
    [fftpp::FFTReal::forward] followed by [inverse] with
    [inPlace = false] does not return the [2 N] samples multiplied by
    [2 N]: bin [N] of their transform, which [forward] has set to
    zero, is missing, so every even sample comes back with that bin
    subtracted and every odd sample with that bin added.  The round
    trip is exact only for inputs whose bin [N] is zero. *)
Theorem real_round_trip_misses_last_bin
        (fftSize : nat) (r : FFTReal.FFTReal (T := R)) (m : mem R)
        (timeData freqData outData sp : nat) :
  FFTReal.new fftSize = Some r ->
  let N := FFTReal.size r in
  1 <= N ->
  timeData + N <= freqData \/ freqData + N <= timeData ->
  freqData + N + 1 <= sp \/ sp + N <= freqData ->
  sp + N <= outData \/ outData + N <= sp ->
  let last := real (dft false (2 * N)
                        (real_samples (fun i => m (timeData + i))) N) in
  forall n, n < N ->
    FFTReal.inverse r (FFTReal.forward r m timeData freqData)
                    freqData outData false sp (outData + n)
    = cadd (cscale (INR (2 * N)) (m (timeData + n)))
           (mkC (- last)%R last).
Proof.
  intros Hnew N HN Hd1 Hd2 Hd3 last n Hn.
  destruct (new_FFTReal_fields fftSize r Hnew) as (_ & Hfft & _).
  fold N in Hfft.
  set (W := FFTReal.twiddlesCplx r).
  set (z := fun i => m (timeData + i)).
  set (X := dft false N z).
  set (mF := FFTReal.forward r m timeData freqData).
  assert (Hbins : forall k, k < N -> mF (freqData + k) = real_bin X W N k).
  { intros k Hk.
    apply (fftpp_forward_bins_dft fftSize r m timeData freqData Hnew HN Hd1
                                  k Hk). }
  assert (HmN : mF (freqData + N) = czero).
  { unfold mF, FFTReal.forward. cbv zeta. apply memset0_cleared_at.
    fold N. lia. }
  assert (Hlast : last = (real (X 0%nat) - imag (X 0%nat))%R).
  { unfold last. fold z.
    rewrite <- (real_bin_dft N N z W HN (le_n _)).
    - unfold real_bin.
      replace (N =? 0) with false by (symmetry; apply Nat.eqb_neq; lia).
      now rewrite Nat.eqb_refl.
    - intros j Hj. apply (fftpp_twiddle_root fftSize r j Hnew). fold N. lia. }
  set (m1 := store mF sp
               (mkC (add (real (mF freqData)) (real (mF (freqData + N))))
                    (sub (real (mF freqData)) (real (mF (freqData + N)))))).
  set (m2 := memcpy m1 (sp + 1) (freqData + 1) (N - 1)).
  assert (Hcode :
            FFTReal.inverse r mF freqData outData false sp (outData + n)
            = inverse (FFTReal.fft r)
                (for_loop (N / 2)
                   (pair_body N sp sp
                      (fun k s0 t0 =>
                         cadd (cadd s0 (conj t0))
                              (cmul (csub s0 (conj t0))
                                    ((fun k => conj (tw_at W (k - 1))) k)))
                      (fun k s0 t0 =>
                         conj (csub (cadd s0 (conj t0))
                                    (cmul (csub s0 (conj t0))
                                          ((fun k => conj (tw_at W (k - 1)))
                                             k)))))
                   m2)
                sp outData (outData + n)) by reflexivity.
  rewrite Hcode, Hfft.
  rewrite (real_inverse_core_first N X W (fun k => conj (tw_at W (k - 1)))
             (mkC (real (X 0%nat) + imag (X 0%nat))%R
                  (real (X 0%nat) + imag (X 0%nat))%R)
             m2 sp outData HN Hd3).
  - unfold X at 1. rewrite (dft_inversion N n z) by assumption.
    rewrite Hlast, mult_INR. change (INR 2) with 2%R. fold (z n).
    destruct (z n) as [a b], (X 0) as [c d].
    apply complex_eq; csimpl; ring.
  - intros k Hk. apply (fftpp_twiddles_inverse fftSize r k Hnew). fold N. lia.
  - intros k Hk H2.
    pose proof (fftpp_twiddles_middle fftSize r k Hnew Hk H2) as Hmd.
    fold W in Hmd. rewrite Hmd.
    split; [reflexivity|]. apply complex_eq; csimpl; ring.
  - unfold m2. rewrite memcpy_frame by lia. unfold m1.
    rewrite Nat.add_0_r, store_same.
    pose proof (Hbins 0 ltac:(lia)) as H0.
    rewrite Nat.add_0_r in H0. rewrite H0, HmN. unfold real_bin.
    cbn [Nat.eqb]. apply complex_eq; csimpl; ring.
  - intros j Hj. unfold m2.
    replace (sp + j) with (sp + 1 + (j - 1)) by lia.
    rewrite memcpy_copied by lia. unfold m1.
    rewrite store_other by lia.
    replace (freqData + 1 + (j - 1)) with (freqData + j) by lia.
    apply Hbins. lia.
  - assumption.
Qed.

Lemma real_round_trip_misses_last_bin_witness :
  option_map
    (fun r =>
       FFTReal.inverse r
         (FFTReal.forward r (fun a => mkC (INR a) 1%R) 0 10)
         10 0 false 20 (0 + 3))
    (FFTReal.new 8)
  = Some (cadd (cscale (INR (2 * 4)) (mkC (INR (0 + 3)) 1%R))
               (mkC (- real (dft false (2 * 4)
                               (real_samples
                                  (fun i => mkC (INR (0 + i)) 1%R)) 4))%R
                    (real (dft false (2 * 4)
                             (real_samples
                                (fun i => mkC (INR (0 + i)) 1%R)) 4)))).
Proof.
  destruct (FFTReal.new (T := R) 8) as [r|] eqn:Hnew; [|discriminate].
  pose proof (new_FFTReal_fields 8 r Hnew) as (Hsize & _).
  change (Nat.shiftr 8 1) with 4 in Hsize.
  cbn [option_map]. f_equal.
  etransitivity;
    [apply (real_round_trip_misses_last_bin
              8 r (fun a => mkC (INR a) 1%R) 0 10 0 20 Hnew);
     rewrite Hsize; lia|].
  cbv zeta. rewrite Hsize. reflexivity.
Defined.

(** X18: what the skipped first cell costs.  On exact samples,
    [fftpp::FFTReal::inverse] called in place on the bins of the
    transform of [2 N] real samples takes [freqData[0]] as it is
    instead of packing bins 0 and [N] into it, so every output cell is
    the right one, [2 N] times the samples, plus the same error:
    [freqData[0]] minus twice the sum of the cells. *)
Theorem real_inverse_in_place_of_dft
        (fftSize : nat) (r : FFTReal.FFTReal (T := R)) (m : mem R)
        (z : nat -> C) (freqData timeData sp : nat) :
  FFTReal.new fftSize = Some r ->
  let N := FFTReal.size r in
  1 <= N ->
  freqData + N <= timeData \/ timeData + N <= freqData ->
  (forall k, k < N ->
     m (freqData + k) = dft false (2 * N) (real_samples z) k) ->
  forall n, n < N ->
    FFTReal.inverse r m freqData timeData true sp (timeData + n)
    = cadd (cscale (INR (2 * N)) (z n))
           (csub (m freqData) (cscale 2 (csum N z))).
Proof.
  intros Hnew N HN Hd Hm n Hn.
  destruct (new_FFTReal_fields fftSize r Hnew) as (_ & Hfft & _).
  fold N in Hfft.
  set (W := FFTReal.twiddlesCplx r).
  set (X := dft false N z).
  assert (Hbins : forall k, k < N -> m (freqData + k) = real_bin X W N k).
  { intros k Hk. rewrite Hm by assumption. symmetry.
    apply real_bin_dft; try lia.
    intros j Hj. apply (fftpp_twiddle_root fftSize r j Hnew). fold N. lia. }
  assert (Hcode :
            FFTReal.inverse r m freqData timeData true sp (timeData + n)
            = inverse (FFTReal.fft r)
                (for_loop (N / 2)
                   (pair_body N freqData freqData
                      (fun k s0 t0 =>
                         cadd (cadd s0 (conj t0))
                              (cmul (csub s0 (conj t0))
                                    ((fun k => conj (tw_at W (k - 1))) k)))
                      (fun k s0 t0 =>
                         conj (csub (cadd s0 (conj t0))
                                    (cmul (csub s0 (conj t0))
                                          ((fun k => conj (tw_at W (k - 1)))
                                             k)))))
                   m)
                freqData timeData (timeData + n)) by reflexivity.
  rewrite Hcode, Hfft.
  rewrite (real_inverse_core_first N X W (fun k => conj (tw_at W (k - 1)))
             (m freqData) m freqData timeData HN Hd).
  - unfold X. rewrite (dft_inversion N n z), dft_bin_0 by assumption.
    rewrite mult_INR. change (INR 2) with 2%R.
    destruct (z n) as [a b]. apply complex_eq; csimpl; ring.
  - intros k Hk. apply (fftpp_twiddles_inverse fftSize r k Hnew). fold N. lia.
  - intros k Hk H2.
    pose proof (fftpp_twiddles_middle fftSize r k Hnew Hk H2) as Hmd.
    fold W in Hmd. rewrite Hmd.
    split; [reflexivity|]. apply complex_eq; csimpl; ring.
  - now rewrite Nat.add_0_r.
  - intros j Hj. apply Hbins. lia.
  - assumption.
Qed.

Lemma real_inverse_in_place_of_dft_witness :
  option_map
    (fun r =>
       FFTReal.inverse r
         (fun a => dft false (2 * 4)
                       (real_samples (fun n => mkC (INR n) 1%R)) (a - 10))
         10 0 true 20 (0 + 3))
    (FFTReal.new 8)
  = Some (cadd (cscale (INR (2 * 4)) (mkC (INR 3) 1%R))
               (csub (dft false (2 * 4)
                          (real_samples (fun n => mkC (INR n) 1%R)) (10 - 10))
                     (cscale 2 (csum 4 (fun n => mkC (INR n) 1%R))))).
Proof.
  destruct (FFTReal.new (T := R) 8) as [r|] eqn:Hnew; [|discriminate].
  pose proof (new_FFTReal_fields 8 r Hnew) as (Hsize & _).
  change (Nat.shiftr 8 1) with 4 in Hsize.
  cbn [option_map]. f_equal.
  etransitivity;
    [apply (real_inverse_in_place_of_dft
              8 r _ (fun n => mkC (INR n) 1%R) 10 0 20 Hnew);
     try (rewrite Hsize; lia);
     intros k Hk; rewrite Hsize;
     now replace (10 + k - 10) with k by lia|].
  cbv zeta. rewrite Hsize. reflexivity.
Defined.

(* ================================================================== *)
(** * What the variant with scratch buffers writes *)
(* ================================================================== *)

Section ScratchFootprints.
Context {T : Type} `{Scalar T}.

Lemma new_FFTRealScratch_fft (fftSize : nat)
        (r : FFTRealScratch.FFTReal (T := T)) :
    FFTRealScratch.new fftSize = Some r ->
    FFTRealScratch.fft r = new_FFTComplex (FFTRealScratch.size r).
  Proof.
    unfold FFTRealScratch.new.
    destruct (FFTRealScratch.size_check fftSize); [|discriminate].
    now intros [= <-].
  Qed.

Lemma scratch_forward_frame (r : FFTRealScratch.FFTReal) (m : mem T)
        (timeData freqData sp x : nat) :
    1 <= FFTRealScratch.size r ->
    FFTRealScratch.fft r = new_FFTComplex (FFTRealScratch.size r) ->
    x < freqData \/ freqData + FFTRealScratch.size r + 1 <= x ->
    x < sp \/ sp + FFTRealScratch.size r <= x ->
    FFTRealScratch.forward r m timeData freqData sp x = m x.
  Proof.
    intros Hs Hfft Hx1 Hx2. unfold FFTRealScratch.forward. cbv zeta.
    etransitivity.
    { apply for_loop_frame. intros j m' Hj.
      pose proof (Nat.Div0.mul_div_le (FFTRealScratch.size r) 2).
      rewrite !store_other by lia. reflexivity. }
    rewrite !store_other by lia.
    etransitivity.
    { instantiate (1 := forward (FFTRealScratch.fft r) m timeData sp x).
      destruct is_integral; [|reflexivity].
      apply for_loop_frame. intros k m' Hk. apply cdiv_at_frame. lia. }
    rewrite Hfft. apply forward_frame; lia.
  Qed.

Lemma scratch_inverse_frame (r : FFTRealScratch.FFTReal) (m : mem T)
        (freqData timeData sp x : nat) :
    1 <= FFTRealScratch.size r ->
    FFTRealScratch.fft r = new_FFTComplex (FFTRealScratch.size r) ->
    x < timeData \/ timeData + FFTRealScratch.size r <= x ->
    x < sp \/ sp + FFTRealScratch.size r <= x ->
    FFTRealScratch.inverse r m freqData timeData sp x = m x.
  Proof.
    intros Hs Hfft Hx1 Hx2. unfold FFTRealScratch.inverse. cbv zeta.
    rewrite Hfft, inverse_frame by lia.
    etransitivity.
    { apply for_loop_frame. intros j m' Hj.
      pose proof (Nat.Div0.mul_div_le (FFTRealScratch.size r) 2).
      rewrite !store_other by lia. reflexivity. }
    etransitivity.
    { instantiate
        (1 := memcpy (store m sp _) (sp + 1) (freqData + 1)
                     (FFTRealScratch.size r - 1) x).
      destruct is_integral; [|reflexivity].
      apply for_loop_frame. intros k m' Hk. apply cdiv_at_frame. lia. }
    rewrite memcpy_frame by lia. apply store_other. lia.
  Qed.
End ScratchFootprints.

(** X19: for every sample type, the variant of [FFTReal] with scratch
    buffers writes only its output and its scratch block: [forward]
    the [N + 1] cells of [freqData] and the [N] cells of the scratch
    block, [inverse] the [N] cells of [timeData] and the [N] cells of
    the scratch block.  Every other cell of the memory, the input
    included when it is apart from both, is as it was. *)
Theorem scratch_real_footprint {T : Type} `{Scalar T}
        (fftSize : nat) (r : FFTRealScratch.FFTReal) (m : mem T)
        (timeData freqData sp x : nat) :
  FFTRealScratch.new fftSize = Some r ->
  let N := FFTRealScratch.size r in
  1 <= N ->
  x < sp \/ sp + N <= x ->
  (x < freqData \/ freqData + N + 1 <= x ->
   FFTRealScratch.forward r m timeData freqData sp x = m x) /\
  (x < timeData \/ timeData + N <= x ->
   FFTRealScratch.inverse r m freqData timeData sp x = m x).
Proof.
  intros Hnew N HN Hsp.
  pose proof (new_FFTRealScratch_fft fftSize r Hnew) as Hfft.
  split; intros Hx.
  - now apply scratch_forward_frame.
  - now apply scratch_inverse_frame.
Qed.

Lemma scratch_real_footprint_witness :
  option_map
    (fun r => FFTRealScratch.forward r (fun a => mkC (INR a) 0%R) 0 10 20 17)
    (FFTRealScratch.new 12)
  = Some (mkC (INR 17) 0%R).
Proof.
  destruct (FFTRealScratch.new (T := R) 12) as [r|] eqn:Hnew; [|discriminate].
  pose proof (new_FFTRealScratch_fields 12 r Hnew) as (Hsize & _).
  change (Nat.shiftr 12 1) with 6 in Hsize.
  cbn [option_map]. f_equal.
  refine (proj1 (scratch_real_footprint 12 r (fun a => mkC (INR a) 0%R)
                   0 10 20 17 Hnew _ _) _); rewrite Hsize; lia.
Defined.

(* ================================================================== *)
(** * Silence in, silence out *)
(* ================================================================== *)

Lemma for_loop_invariant {S : Type} (P : S -> Prop) (n : nat)
      (body : nat -> S -> S) (s : S) :
  (forall i s', i < n -> P s' -> P (body i s')) -> P s ->
  P (for_loop n body s).
Proof.
  induction n as [|n IH]; intros Hb Hs; [exact Hs|].
  cbn [for_loop]. apply Hb; [lia|]. apply IH; [|exact Hs].
  intros i s' Hi. apply Hb. lia.
Qed.

(** Any sample type on which the scalar operations keep zero at zero:
    the integer types, whose [smul] and [sdiv] round, and the exact
    ones. *)
Section Silence.
Context {T : Type} `{Scalar T}.
Hypothesis add_zero : add (cast 0) (cast 0) = cast 0.
Hypothesis sub_zero : sub (cast 0) (cast 0) = cast 0.
Hypothesis smul_zero : forall x, smul (cast 0) x = cast 0.
Hypothesis sdiv_zero : forall d, sdiv (cast 0) (cast d) = cast 0.

Lemma cadd_zero : cadd czero czero = czero.
  Proof. unfold cadd, czero. cbn [real imag]. now rewrite add_zero. Qed.

Lemma csub_zero : csub czero czero = czero.
  Proof. unfold csub, czero. cbn [real imag]. now rewrite sub_zero. Qed.

Lemma cmul_zero (w : complex T) : cmul czero w = czero.
  Proof.
    unfold cmul, czero. cbn [real imag].
    now rewrite !smul_zero, add_zero, sub_zero.
  Qed.

Lemma cdiv_zero (d : Z) : cdiv czero d = czero.
  Proof. unfold cdiv, czero. cbn [real imag]. now rewrite !sdiv_zero. Qed.

Lemma rotate_zero_a :
    mkC (sub (real czero) (imag czero)) (add (imag czero) (real czero))
    = czero.
  Proof. unfold czero. cbn [real imag]. now rewrite add_zero, sub_zero. Qed.

Lemma rotate_zero_b :
    mkC (add (real czero) (imag czero)) (sub (imag czero) (real czero))
    = czero.
  Proof. unfold czero. cbn [real imag]. now rewrite add_zero, sub_zero. Qed.

Lemma silent_store (m : mem T) (a n x : nat) (v : complex T) :
    silent m a n -> v = czero -> silent (store m x v) a n.
  Proof.
    intros Hm -> y Hy. destruct (Nat.eq_dec y x) as [->|Hne].
    - apply store_same.
    - rewrite store_other by assumption. now apply Hm.
  Qed.

Lemma silent_cdiv_at (m : mem T) (a n x : nat) (d : Z) :
    silent m a n -> a <= x < a + n -> silent (cdiv_at m x d) a n.
  Proof.
    intros Hm Hx. unfold cdiv_at. apply silent_store; [assumption|].
    rewrite (Hm x Hx). apply cdiv_zero.
  Qed.

Ltac zero_values :=
    rewrite ?cmul_zero, ?cadd_zero, ?csub_zero, ?cmul_zero, ?cadd_zero,
      ?csub_zero, ?rotate_zero_a, ?rotate_zero_b;
    reflexivity.

Lemma butterfly2_silent (m : mem T) (output stride length : nat)
        (twiddles : list (complex T)) :
    silent m output (2 * length) ->
    silent (butterfly2 m output stride length twiddles) output (2 * length).
  Proof.
    intros Hm. unfold butterfly2.
    apply (for_loop_invariant (fun m => silent m output (2 * length)));
      [|exact Hm].
    intros i m0 Hi H0. cbv zeta.
    set (m1 := if is_integral then _ else m0).
    assert (H1 : silent m1 output (2 * length)).
    { subst m1. destruct is_integral; [|exact H0].
      apply silent_cdiv_at; [apply silent_cdiv_at|]; try assumption; lia. }
    assert (Ha : m1 (output + i) = czero) by (apply H1; lia).
    assert (Hb : m1 (output + length + i) = czero) by (apply H1; lia).
    rewrite Hb.
    assert (H2 : silent (store m1 (output + length + i)
                           (csub (m1 (output + i))
                                 (cmul czero (tw_at twiddles (i * stride)))))
                        output (2 * length)).
    { apply silent_store; [assumption|]. rewrite Ha. zero_values. }
    apply silent_store; [assumption|].
    rewrite (H2 (output + i)) by lia. zero_values.
  Qed.

Lemma butterfly4_silent (m : mem T) (output stride length : nat)
        (twiddles : list (complex T)) (inverse : bool) :
    silent m output (4 * length) ->
    silent (butterfly4 m output stride length twiddles inverse)
           output (4 * length).
  Proof.
    intros Hm. unfold butterfly4. cbv zeta.
    set (m1 := if is_integral then _ else m).
    assert (H1 : silent m1 output (4 * length)).
    { subst m1. destruct is_integral; [|exact Hm].
      apply (for_loop_invariant (fun m => silent m output (4 * length)));
        [|exact Hm].
      intros i m0 Hi H0.
      repeat (apply silent_cdiv_at; [|lia]). exact H0. }
    apply (for_loop_invariant (fun m => silent m output (4 * length)));
      [|exact H1].
    intros i m0 Hi H0.
    rewrite (H0 (output + i)), (H0 (output + i + length)),
      (H0 (output + i + 2 * length)), (H0 (output + i + 3 * length)) by lia.
    rewrite !cmul_zero, !cadd_zero, !csub_zero.
    assert (Ha : silent (store m0 (output + i) czero) output (4 * length))
      by (now apply silent_store).
    rewrite (Ha (output + i)) by lia. rewrite csub_zero.
    assert (Hb : silent (store (store m0 (output + i) czero)
                               (output + i + 2 * length) czero)
                        output (4 * length))
      by (now apply silent_store).
    rewrite (Hb (output + i)) by lia. rewrite cadd_zero.
    destruct inverse;
      (apply silent_store;
       [apply silent_store; [apply silent_store; [exact Hb|reflexivity]|]|];
       zero_values).
  Qed.

Lemma nth_silent (l : list (complex T)) (q : nat) :
    (forall v, In v l -> v = czero) -> nth q l czero = czero.
  Proof.
    intros Hl. destruct (Nat.lt_ge_cases q (List.length l)) as [Hq|Hq].
    - apply Hl. now apply nth_In.
    - now apply nth_overflow.
  Qed.

Lemma generic_inner_silent (size stride radix k output a n : nat)
        (scratch twiddles : list (complex T)) (m : mem T) :
    silent m a n -> a <= output + k < a + n ->
    (forall v, In v scratch -> v = czero) ->
    silent (generic_inner size stride radix k output scratch twiddles m) a n.
  Proof.
    intros Hm Hk Hs. unfold generic_inner.
    apply (for_loop_invariant (fun st => silent (fst st) a n));
      [|exact Hm].
    intros j [m0 ix] Hj H0. cbn [fst snd] in *.
    unfold generic_inner_step. cbn [fst snd].
    apply silent_store; [assumption|].
    rewrite (H0 (output + k)) by assumption.
    rewrite (nth_silent scratch _ Hs). zero_values.
  Qed.

Lemma butterflyGeneric_silent (size : nat) (m : mem T)
        (output stride radix length : nat) (twiddles : list (complex T)) :
    silent m output (radix * length) ->
    silent (butterflyGeneric size m output stride radix length twiddles)
           output (radix * length).
  Proof.
    intros Hm. unfold butterflyGeneric. cbv zeta.
    assert (Hcell : forall u q1, u < length -> q1 < radix ->
              output <= output + (u + q1 * length)
              < output + radix * length).
    { intros u q1 Hu Hq1.
      assert ((q1 + 1) * length <= radix * length)
        by (apply Nat.mul_le_mono_r; lia).
      lia. }
    set (m1 := if is_integral then _ else m).
    assert (H1 : silent m1 output (radix * length)).
    { subst m1. destruct is_integral; [|exact Hm].
      apply (for_loop_invariant (fun m => silent m output (radix * length)));
        [|exact Hm].
      intros u m0 Hu H0.
      apply (for_loop_invariant (fun m => silent m output (radix * length)));
        [|exact H0].
      intros q1 m' Hq1 H'. apply silent_cdiv_at; [assumption|].
      now apply Hcell. }
    apply (for_loop_invariant (fun m => silent m output (radix * length)));
      [|exact H1].
    intros u m0 Hu H0.
    assert (Hs : forall v,
              In v (map (fun q1 => m0 (output + (u + q1 * length)))
                        (seq 0 radix)) -> v = czero).
    { intros v Hv. apply in_map_iff in Hv. destruct Hv as (q1 & <- & Hq1).
      apply in_seq in Hq1. apply H0. apply Hcell; lia. }
    apply (for_loop_invariant (fun m => silent m output (radix * length)));
      [|exact H0].
    intros q1 m' Hq1 H'.
    apply generic_inner_silent; [|now apply Hcell|exact Hs].
    apply silent_store; [assumption|]. now apply nth_silent.
  Qed.

  (** [perform] on silent input cells leaves a silent output block. *)
Lemma perform_silent (fft : FFTComplex T) (N inStride : nat)
        (inverse : bool) :
    1 <= N ->
    forall fs stride m input output,
      stages N stride fs ->
      let n := match fs with
               | f :: _ => radix f * length f
               | [] => 0
               end in
      (forall j, j < n -> m (input + j * (stride * inStride)) = czero) ->
      (forall j, j < n ->
         input + j * (stride * inStride) < output \/
         output + n <= input + j * (stride * inStride)) ->
      silent (perform fft m input output stride inStride fs inverse)
             output n.
  Proof.
    intros HN. induction fs as [|f fs IH];
      intros stride m input output Hst n Hin Hd; [contradiction|].
    destruct Hst as (Hr & Hl & Hprod & Hrest).
    cbn [perform]. cbv zeta. subst n.
    set (st := stride * inStride) in *.
    set (m1 := if length f =? 1 then _ else _).
    assert (H1 : silent m1 output (radix f * length f)).
    { subst m1. destruct (length f =? 1) eqn:Hlen.
      - intros x Hx.
        replace x with (output + (x - output)) by lia.
        rewrite (copy_loop_spec m input output st (radix f * length f)).
        + apply Hin. lia.
        + intros i k Hi Hk. specialize (Hd i Hi). lia.
        + lia.
      - apply Nat.eqb_neq in Hlen. specialize (Hrest Hlen).
        destruct fs as [|f' fs']; [contradiction|].
        pose proof Hrest as (Hr' & Hl' & Hp' & _).
        assert (Hsub : radix f' * length f' = length f) by nia.
        assert (Hinv : forall k, k <= radix f ->
                  let mk := for_loop k (fun q m =>
                              perform fft m (input + q * st)
                                      (output + q * length f)
                                      (stride * radix f) inStride
                                      (f' :: fs') inverse) m in
                  (forall j, j < radix f * length f ->
                     mk (input + j * st) = czero) /\
                  silent mk output (k * length f)).
        { induction k as [|k IHk]; intros Hk; cbv zeta.
          - split; [exact Hin|]. intros x Hx. lia.
          - cbn [for_loop].
            destruct (IHk ltac:(lia)) as [Hin_k Hblk]. cbv zeta in Hin_k, Hblk.
            match type of Hblk with
            | silent ?M _ _ => set (mk := M) in *
            end.
            assert (Hlow : (k + 1) * length f <= radix f * length f)
              by (apply Nat.mul_le_mono_r; lia).
            assert (Hframe : forall x,
                      x < output + k * length f \/
                      output + k * length f + length f <= x ->
                      perform fft mk (input + k * st) (output + k * length f)
                              (stride * radix f) inStride (f' :: fs') inverse x
                      = mk x).
            { intros x Hx.
              apply (perform_frame fft N inStride inverse HN (f' :: fs')
                                   (stride * radix f) mk); [exact Hrest|].
              rewrite Hsub. exact Hx. }
            split.
            + intros j Hj. rewrite Hframe; [now apply Hin_k|].
              specialize (Hd j Hj). lia.
            + intros x Hx.
              destruct (Nat.lt_ge_cases x (output + k * length f))
                as [Hxl|Hxl].
              * rewrite Hframe by lia. apply Hblk. lia.
              * pose proof (IH (stride * radix f) mk (input + k * st)
                               (output + k * length f) Hrest) as Hsil.
                cbv zeta in Hsil. rewrite Hsub in Hsil.
                apply Hsil.
                -- intros j Hj.
                   replace (input + k * st + j * (stride * radix f * inStride))
                     with (input + (k + j * radix f) * st)
                     by (unfold st; nia).
                   apply Hin_k. nia.
                -- intros j Hj.
                   replace (input + k * st + j * (stride * radix f * inStride))
                     with (input + (k + j * radix f) * st)
                     by (unfold st; nia).
                   assert (Hjj : k + j * radix f < radix f * length f) by nia.
                   specialize (Hd _ Hjj). lia.
                -- lia. }
        destruct (Hinv (radix f) (le_n _)) as [_ Hfin]. exact Hfin. }
    destruct (radix f) as [|[|[|[|[|r]]]]] eqn:Hrad.
    - lia.
    - now apply butterflyGeneric_silent.
    - now apply butterfly2_silent.
    - now apply butterflyGeneric_silent.
    - now apply butterfly4_silent.
    - now apply butterflyGeneric_silent.
  Qed.
End Silence.

Lemma wrap_zero (B : positive) : wrap (Z.pos B) 0 = 0%Z.
Proof.
  apply wrap_in_range; [lia|]. unfold in_range.
  assert (0 < 2 ^ (Z.pos B - 1))%Z by (apply Z.pow_pos_nonneg; lia). lia.
Qed.

Lemma int_smul_zero (B : positive) (x : Z) : int_smul (Z.pos B) 0 x = 0%Z.
Proof.
  unfold int_smul. rewrite Z.mul_0_l.
  replace (sround (wrap 64 0)) with 0%Z by reflexivity.
  apply wrap_zero.
Qed.

Section IntegerSilence.
Context `{Binary64}.

(** X20: silence in, silence out.  For an integer sample type of any
    width and every size [N >= 1], when the [N] input cells are all
    zero, [forward] and [inverse] leave [N] zero cells in their output:
    the scaling through [sdiv] before each butterfly and the rounding
    in [smul] never turn silence into an offset. *)
Theorem integer_transform_of_silence
        (B : positive) (N : nat) (m : mem (int B)) (input output : nat) :
  1 <= N ->
  input + N <= output \/ output + N <= input ->
  silent m input N ->
  silent (forward (new_FFTComplex N) m input output) output N /\
  silent (inverse (new_FFTComplex N) m input output) output N.
Proof.
  intros HN Hd Hm.
  assert (Hadd : add (T := int B) (cast 0) (cast 0) = cast 0).
  { cbn [add cast IntScalar]. rewrite wrap_zero. cbn [Z.add].
    now rewrite wrap_zero. }
  assert (Hsub : sub (T := int B) (cast 0) (cast 0) = cast 0).
  { cbn [sub cast IntScalar]. rewrite wrap_zero. cbn [Z.sub Z.opp Z.add].
    now rewrite wrap_zero. }
  assert (Hmul : forall x, smul (T := int B) (cast 0) x = cast 0).
  { intros x. cbn [smul cast IntScalar]. rewrite wrap_zero.
    apply int_smul_zero. }
  assert (Hdiv : forall d, sdiv (T := int B) (cast 0) (cast d) = cast 0).
  { intros d. cbn [sdiv cast IntScalar]. rewrite wrap_zero.
    apply int_smul_zero. }
  pose proof (factorize_stages N HN) as Hst.
  assert (Hn : match factorize N with
               | f :: _ => radix f * length f
               | [] => 0
               end = N).
  { destruct (factorize N) as [|f fs]; [contradiction|].
    destruct Hst as (_ & _ & Hp & _). lia. }
  split.
  - unfold forward. cbn [factors new_FFTComplex].
    pose proof (perform_silent Hadd Hsub Hmul Hdiv (new_FFTComplex N) N 1
                  false HN (factorize N) 1 m input output Hst) as Hs.
    cbv zeta in Hs. rewrite Hn in Hs. apply Hs.
    + intros j Hj. apply Hm. lia.
    + intros j Hj. lia.
  - unfold inverse. cbn [factors new_FFTComplex].
    pose proof (perform_silent Hadd Hsub Hmul Hdiv (new_FFTComplex N) N 1
                  true HN (factorize N) 1 m input output Hst) as Hs.
    cbv zeta in Hs. rewrite Hn in Hs. apply Hs.
    + intros j Hj. apply Hm. lia.
    + intros j Hj. lia.
Qed.

End IntegerSilence.

Lemma integer_transform_of_silence_witness :
  silent (forward (new_FFTComplex (T := int 32) 6)
                  (fun a => if a <? 6 then czero else mkC 5%Z 7%Z) 0 10)
         10 6.
Proof.
  refine (proj1 (integer_transform_of_silence
                   32 6 (fun a => if a <? 6 then czero else mkC 5%Z 7%Z)
                   0 10 _ _ _)).
  - lia.
  - lia.
  - intros x Hx.
    now replace (x <? 6) with true by (symmetry; apply Nat.ltb_lt; lia).
Defined.
